(** * IntrusiveList: a shallow embedding of [src/intrusivelist.hh]

    The header defines an intrusive doubly-linked list.  Elements embed an
    [IntrusiveNode] (two cursors, [prev] and [next]); an [IntrusiveList]
    holds a [head] cursor, a [last] cursor and, when the [Enable] template
    switch is on, a [std::size_t] length counter.

    Objects live in a store: element objects are addressed by natural
    numbers and so are list objects, which lets two lists (or a list and
    one of its arguments) alias.  A cursor is an optional address
    ([None] is [nullptr]).  Every member function is a computation in a
    state-and-failure monad; failure stands for undefined behaviour
    (dereferencing a null cursor, touching an object that does not exist)
    and for a loop that ran out of fuel. *)

From Stdlib Require Import ZArith Lia.
From stdpp Require Import base option list gmap.

Local Open Scope Z_scope.

(** ** Cursors and objects *)

(** [NodeIteratorBase::nodePtr]: a possibly-null pointer to an element. *)
Definition ptr : Type := option nat.

(** [NodeIteratorBase::operator bool]. *)
Definition to_bool (p : ptr) : bool :=
  match p with Some _ => true | None => false end.

(** [operator==] of the cursor family: identity of the element pointer. *)
Definition ptr_eqb (a b : ptr) : bool := bool_decide (a = b).

(** [IntrusiveNode<T>]: the two link cursors. *)
Record IntrusiveNode : Type := mkNode { prev : ptr; next : ptr }.

(** [IntrusiveList<T, Enable>]: [HasLength] is the template switch,
    [l_length] the counter of [RecordLength<true>] (unused when the switch
    is off). *)
Record IntrusiveList : Type :=
  mkList { HasLength : bool; l_head : ptr; l_last : ptr; l_length : Z }.

(** [std::size_t] arithmetic wraps modulo [2^64]. *)
Definition size_max : Z := 2 ^ 64.
Definition wrap (z : Z) : Z := z mod size_max.

Record state : Type :=
  mkState { nodes : gmap nat IntrusiveNode; lists : gmap nat IntrusiveList }.

(** ** The monad *)

Definition M (A : Type) : Type := state -> option (A * state).

Definition ret {A} (a : A) : M A := fun s => Some (a, s).

Definition bind {A B} (m : M A) (f : A -> M B) : M B :=
  fun s => match m s with Some (a, s') => f a s' | None => None end.

Definition fail {A} : M A := fun _ => None.

Declare Scope il_scope.
Delimit Scope il_scope with il.
Notation "x <- m ;; k" := (bind m (fun x => k))
  (at level 100, m at next level, k at level 200, right associativity)
  : il_scope.
Notation "m ;; k" := (bind m (fun _ => k))
  (at level 100, k at level 200, right associativity) : il_scope.
Local Open Scope il_scope.

Definition when (b : bool) (m : M unit) : M unit := if b then m else ret tt.

(** *** Element objects *)

Definition load (p : ptr) : M IntrusiveNode := fun s =>
  match p with
  | Some a => match nodes s !! a with Some n => Some (n, s) | None => None end
  | None => None
  end.

Definition store (p : ptr) (n : IntrusiveNode) : M unit := fun s =>
  match p with
  | Some a =>
      match nodes s !! a with
      | Some _ => Some (tt, mkState (<[a := n]> (nodes s)) (lists s))
      | None => None
      end
  | None => None
  end.

Definition get_prev (p : ptr) : M ptr := n <- load p ;; ret (prev n).
Definition get_next (p : ptr) : M ptr := n <- load p ;; ret (next n).
Definition set_prev (p v : ptr) : M unit :=
  n <- load p ;; store p (mkNode v (next n)).
Definition set_next (p v : ptr) : M unit :=
  n <- load p ;; store p (mkNode (prev n) v).

(** *** List objects *)

Definition get_list (l : nat) : M IntrusiveList := fun s =>
  match lists s !! l with Some L => Some (L, s) | None => None end.

Definition put_list (l : nat) (L : IntrusiveList) : M unit := fun s =>
  Some (tt, mkState (nodes s) (<[l := L]> (lists s))).

Definition get_head (l : nat) : M ptr := L <- get_list l ;; ret (l_head L).
Definition get_last (l : nat) : M ptr := L <- get_list l ;; ret (l_last L).
Definition set_head (l : nat) (v : ptr) : M unit :=
  L <- get_list l ;; put_list l (mkList (HasLength L) v (l_last L) (l_length L)).
Definition set_last (l : nat) (v : ptr) : M unit :=
  L <- get_list l ;; put_list l (mkList (HasLength L) (l_head L) v (l_length L)).
Definition set_length (l : nat) (z : Z) : M unit :=
  L <- get_list l ;; put_list l (mkList (HasLength L) (l_head L) (l_last L) z).

(** ** [IntrusiveNode]: [AttachPrev], [AttachNext], [Detach] *)

Definition AttachPrev (this node : ptr) : M unit :=
  p <- get_prev node ;; set_prev this p ;;
  set_next this node ;;
  p <- get_prev node ;;
  when (to_bool p) (set_next p this) ;;
  set_prev node this.

Definition AttachNext (this node : ptr) : M unit :=
  set_prev this node ;;
  n <- get_next node ;; set_next this n ;;
  n <- get_next node ;;
  when (to_bool n) (set_prev n this) ;;
  set_next node this.

Definition Detach (this : ptr) : M unit :=
  p <- get_prev this ;;
  when (to_bool p) (n <- get_next this ;; set_next p n) ;;
  n <- get_next this ;;
  when (to_bool n) (p <- get_prev this ;; set_prev n p) ;;
  set_prev this None ;;
  set_next this None.

(** ** [RecordLength] *)

(** [GetLength] exists only in [RecordLength<true>]. *)
Definition GetLength (this : nat) : M Z :=
  L <- get_list this ;; if HasLength L then ret (l_length L) else fail.

Definition SetToZero (this : nat) : M unit := set_length this 0.

Definition IncLength (this : nat) : M unit :=
  L <- get_list this ;; set_length this (wrap (l_length L + 1)).

Definition DecLength (this : nat) : M unit :=
  L <- get_list this ;; set_length this (wrap (l_length L - 1)).

(** [if constexpr (Enable) { ... }]. *)
Definition if_Enable (this : nat) (m : M unit) : M unit :=
  L <- get_list this ;; when (HasLength L) m.

(** ** [IntrusiveList] *)

(** The defaulted constructor, placing a list object at address [this]. *)
Definition new_list (this : nat) (enable : bool) : M unit :=
  put_list this (mkList enable None None 0).

Definition GetHead (this : nat) : M ptr := get_head this.
Definition GetLast (this : nat) : M ptr := get_last this.

Definition IsEmpty (this : nat) : M bool :=
  h <- get_head this ;; l <- get_last this ;;
  ret (negb (to_bool h) && negb (to_bool l)).

Definition Clear (this : nat) : M unit :=
  set_head this None ;;
  h <- get_head this ;; set_last this h ;;
  if_Enable this (SetToZero this).

Definition InsertPrev (this : nat) (curNode newNode : ptr) : M ptr :=
  Detach newNode ;;
  e <- IsEmpty this ;;
  (if e then set_head this newNode ;; set_last this newNode
   else AttachPrev newNode curNode ;;
        h <- get_head this ;;
        when (ptr_eqb curNode h) (set_head this newNode)) ;;
  if_Enable this (IncLength this) ;;
  ret newNode.

Definition InsertNext (this : nat) (curNode newNode : ptr) : M ptr :=
  Detach newNode ;;
  e <- IsEmpty this ;;
  (if e then set_head this newNode ;; set_last this newNode
   else AttachNext newNode curNode ;;
        l <- get_last this ;;
        when (ptr_eqb curNode l) (set_last this newNode)) ;;
  if_Enable this (IncLength this) ;;
  ret newNode.

Definition InsertHead (this : nat) (newNode : ptr) : M ptr :=
  h <- get_head this ;; InsertPrev this h newNode.

Definition InsertLast (this : nat) (newNode : ptr) : M ptr :=
  l <- get_last this ;; InsertNext this l newNode.

Definition Remove (this : nat) (curNode : ptr) : M unit :=
  h <- get_head this ;;
  when (ptr_eqb curNode h) (n <- get_next h ;; set_head this n) ;;
  l <- get_last this ;;
  when (ptr_eqb curNode l) (p <- get_prev l ;; set_last this p) ;;
  Detach curNode ;;
  if_Enable this (DecLength this).

Definition RemoveHead (this : nat) : M unit :=
  h <- get_head this ;; Remove this h.

Definition RemoveLast (this : nat) : M unit :=
  l <- get_last this ;; Remove this l.

(** The overloads taking the list [other] the node comes from. *)
Definition InsertPrev_from (this : nat) (curNode newNode : ptr) (other : nat)
  : M ptr :=
  Remove other newNode ;; InsertPrev this curNode newNode.

Definition InsertNext_from (this : nat) (curNode newNode : ptr) (other : nat)
  : M ptr :=
  Remove other newNode ;; InsertNext this curNode newNode.

Definition InsertHead_from (this : nat) (newNode : ptr) (other : nat) : M ptr :=
  Remove other newNode ;; InsertHead this newNode.

Definition InsertLast_from (this : nat) (newNode : ptr) (other : nat) : M ptr :=
  Remove other newNode ;; InsertLast this newNode.

(** Move construction of a new list object at [this] from [other]. *)
Definition move_ctor (this other : nat) : M unit :=
  O <- get_list other ;;
  put_list this (mkList (HasLength O) (l_head O) (l_last O) (l_length O)) ;;
  Clear other.

(** Move assignment; [RecordLength::operator=] copies the counter when
    there is one. *)
Definition move_assign (this other : nat) : M unit :=
  if bool_decide (this = other) then ret tt
  else
    O <- get_list other ;;
    if_Enable this (set_length this (l_length O)) ;;
    set_head this (l_head O) ;;
    set_last this (l_last O) ;;
    Clear other.

(** The converting move constructor: a range-based [for] over [other],
    whose cursor is advanced after the body has run. *)
Fixpoint convert_loop (fuel : nat) (this other : nat) (it : ptr) : M unit :=
  match it with
  | None => ret tt
  | Some _ =>
      match fuel with
      | O => fail
      | S fuel' =>
          InsertLast_from this it other ;;
          n <- get_next it ;;
          convert_loop fuel' this other n
      end
  end.

Definition convert_ctor (fuel : nat) (this : nat) (enable : bool) (other : nat)
  : M unit :=
  new_list this enable ;;
  b <- get_head other ;;
  convert_loop fuel this other b.

(** The loop shared by [operator+=] and [operator+]:
    [prev = iter++; dst.InsertLast(prev, src);] until [iter] is null. *)
Fixpoint drain_loop (fuel : nat) (dst src : nat) (iter : ptr) : M unit :=
  match iter with
  | None => ret tt
  | Some _ =>
      match fuel with
      | O => fail
      | S fuel' =>
          n <- get_next iter ;;
          InsertLast_from dst iter src ;;
          drain_loop fuel' dst src n
      end
  end.

Definition append (fuel : nat) (this rhs : nat) : M unit :=
  b <- get_head rhs ;; drain_loop fuel this rhs b.

(** [operator+]: the result is the list object [tmp], whose switch is
    [Enable || Enable_]. *)
Definition concat (fuel : nat) (tmp lhs rhs : nat) : M unit :=
  L <- get_list lhs ;; R <- get_list rhs ;;
  new_list tmp (HasLength L || HasLength R) ;;
  b <- get_head lhs ;; drain_loop fuel tmp lhs b ;;
  b <- get_head rhs ;; drain_loop fuel tmp rhs b.

(** ** Traversal *)

(** [for (it = begin; it != end; ++it)] with the forward cursor, collecting
    the addresses visited. *)
Fixpoint walk_next (fuel : nat) (h : gmap nat IntrusiveNode) (it : ptr)
  : option (list nat) :=
  match it with
  | None => Some []
  | Some a =>
      match fuel with
      | O => None
      | S fuel' =>
          match h !! a with
          | Some n =>
              match walk_next fuel' h (next n) with
              | Some r => Some (a :: r)
              | None => None
              end
          | None => None
          end
      end
  end.

(** The same with the reverse cursor, whose increment follows [prev]. *)
Fixpoint walk_prev (fuel : nat) (h : gmap nat IntrusiveNode) (it : ptr)
  : option (list nat) :=
  match it with
  | None => Some []
  | Some a =>
      match fuel with
      | O => None
      | S fuel' =>
          match h !! a with
          | Some n =>
              match walk_prev fuel' h (prev n) with
              | Some r => Some (a :: r)
              | None => None
              end
          | None => None
          end
      end
  end.

(** Forward traversal [begin() .. end()] and reverse traversal
    [rbegin() .. rend()] of the list at address [l]. *)
Definition forward (fuel : nat) (s : state) (l : nat) : option (list nat) :=
  match lists s !! l with
  | Some L => walk_next fuel (nodes s) (l_head L)
  | None => None
  end.

Definition backward (fuel : nat) (s : state) (l : nat) : option (list nat) :=
  match lists s !! l with
  | Some L => walk_prev fuel (nodes s) (l_last L)
  | None => None
  end.

(** ** The cursor family *)

(** The four cursor types share [NodeIterator]; they differ in the
    direction of their step ([ForwardNodeIteratorBase] or
    [ReverseNodeIteratorBase]) and in constness, which a model without
    types for constness does not see. *)
Inductive direction : Type := Forward | Reverse.

(** [Increment()] and [Decrement()]: the cursor becomes the [next] or the
    [prev] of the element it is at; the result is the new cursor. *)
Definition Increment (d : direction) (it : ptr) : M ptr :=
  match d with Forward => get_next it | Reverse => get_prev it end.

Definition Decrement (d : direction) (it : ptr) : M ptr :=
  match d with Forward => get_prev it | Reverse => get_next it end.

(** [begin()], [end()], [rbegin()], [rend()] (and their [c] variants). *)
Definition begin_ (d : direction) (this : nat) : M ptr :=
  match d with Forward => get_head this | Reverse => get_last this end.

Definition end_ (d : direction) (this : nat) : M ptr := ret None.

(** [for (it = begin; it != end; ++it)] with a cursor of direction [d],
    collecting the addresses visited. *)
Fixpoint iterate (fuel : nat) (d : direction) (it : ptr) : M (list nat) :=
  match it with
  | None => ret []
  | Some a =>
      match fuel with
      | O => fail
      | S fuel' =>
          n <- Increment d it ;;
          r <- iterate fuel' d n ;;
          ret (a :: r)
      end
  end.

Definition traverse (fuel : nat) (d : direction) (this : nat) : M (list nat) :=
  b <- begin_ d this ;; iterate fuel d b.

(** ** Comparison of two lists *)

(** The two operators hand the ranges [begin() .. end()] of the two lists
    to algorithms of the C++ standard library, which are modelled here as
    the standard describes them.  They compare the elements with the
    operators of the element types, which are parameters: [elem_eq a b] is
    [*it1 == *it2] and [elem_cmp a b] is [*it1 <=> *it2] for cursors at the
    addresses [a] and [b]. *)

(** The result of a three-way comparison ([std::partial_ordering] has all
    four values, the stronger categories lack [unordered]). *)
Inductive ordering : Type := less | equivalent | greater | unordered.

(** [std::equal(first1, last1, first2, last2)] on cursors that are not
    random-access: walk both ranges together, stop at the first pair of
    unequal elements, and at the end ask that both ranges are exhausted.
    Both [last1] and [last2] are [end()], the null cursor. *)
Fixpoint std_equal (elem_eq : nat -> nat -> bool) (fuel : nat)
    (h : gmap nat IntrusiveNode) (it1 it2 : ptr) : option bool :=
  match it1, it2 with
  | Some a, Some b =>
      match fuel with
      | O => None
      | S fuel' =>
          if elem_eq a b then
            match h !! a, h !! b with
            | Some na, Some nb =>
                std_equal elem_eq fuel' h (next na) (next nb)
            | _, _ => None
            end
          else Some false
      end
  | _, _ => Some (ptr_eqb it1 None && ptr_eqb it2 None)
  end.

(** [std::lexicographical_compare_three_way(first1, last1, first2, last2)]
    with the default comparator. *)
Fixpoint std_lexicographical_compare_three_way
    (elem_cmp : nat -> nat -> ordering) (fuel : nat)
    (h : gmap nat IntrusiveNode) (it1 it2 : ptr) : option ordering :=
  match it1 with
  | None => Some (if to_bool it2 then less else equivalent)
  | Some a =>
      match it2 with
      | None => Some greater
      | Some b =>
          match fuel with
          | O => None
          | S fuel' =>
              match elem_cmp a b with
              | equivalent =>
                  match h !! a, h !! b with
                  | Some na, Some nb =>
                      std_lexicographical_compare_three_way elem_cmp fuel' h
                        (next na) (next nb)
                  | _, _ => None
                  end
              | c => Some c
              end
          end
      end
  end.

(** [operator==(lhs, rhs)] and [operator<=>(lhs, rhs)]. *)
Definition operator_eq (elem_eq : nat -> nat -> bool) (fuel : nat)
    (lhs rhs : nat) : M bool :=
  b1 <- get_head lhs ;; b2 <- get_head rhs ;;
  fun s => match std_equal elem_eq fuel (nodes s) b1 b2 with
           | Some r => Some (r, s)
           | None => None
           end.

Definition operator_cmp (elem_cmp : nat -> nat -> ordering) (fuel : nat)
    (lhs rhs : nat) : M ordering :=
  b1 <- get_head lhs ;; b2 <- get_head rhs ;;
  fun s => match std_lexicographical_compare_three_way elem_cmp fuel
                   (nodes s) b1 b2 with
           | Some r => Some (r, s)
           | None => None
           end.

(** ** Driving the list *)

(** [InsertLast] called once for each element of [xs], in order. *)
Fixpoint InsertLast_all (l : nat) (xs : list nat) : M unit :=
  match xs with
  | [] => ret tt
  | x :: r => InsertLast l (Some x) ;; InsertLast_all l r
  end.

(** The public operations that change a list. *)
Inductive op : Type :=
  | OInsertPrev (l : nat) (cur : ptr) (x : nat)
  | OInsertNext (l : nat) (cur : ptr) (x : nat)
  | OInsertHead (l x : nat)
  | OInsertLast (l x : nat)
  | OInsertPrev_from (l : nat) (cur : ptr) (x other : nat)
  | OInsertNext_from (l : nat) (cur : ptr) (x other : nat)
  | OInsertHead_from (l x other : nat)
  | OInsertLast_from (l x other : nat)
  | ORemove (l x : nat)
  | ORemoveHead (l : nat)
  | ORemoveLast (l : nat)
  | OClear (l : nat)
  | Omove_ctor (this other : nat)
  | Omove_assign (this other : nat)
  | Oconvert_ctor (this : nat) (enable : bool) (other : nat)
  | Oappend (this rhs : nat)
  | Oconcat (tmp lhs rhs : nat).

Definition run_op (fuel : nat) (o : op) : M unit :=
  match o with
  | OInsertPrev l cur x => InsertPrev l cur (Some x) ;; ret tt
  | OInsertNext l cur x => InsertNext l cur (Some x) ;; ret tt
  | OInsertHead l x => InsertHead l (Some x) ;; ret tt
  | OInsertLast l x => InsertLast l (Some x) ;; ret tt
  | OInsertPrev_from l cur x other =>
      InsertPrev_from l cur (Some x) other ;; ret tt
  | OInsertNext_from l cur x other =>
      InsertNext_from l cur (Some x) other ;; ret tt
  | OInsertHead_from l x other => InsertHead_from l (Some x) other ;; ret tt
  | OInsertLast_from l x other => InsertLast_from l (Some x) other ;; ret tt
  | ORemove l x => Remove l (Some x)
  | ORemoveHead l => RemoveHead l
  | ORemoveLast l => RemoveLast l
  | OClear l => Clear l
  | Omove_ctor this other => move_ctor this other
  | Omove_assign this other => move_assign this other
  | Oconvert_ctor this enable other => convert_ctor fuel this enable other
  | Oappend this rhs => append fuel this rhs
  | Oconcat tmp lhs rhs => concat fuel tmp lhs rhs
  end.

(** ** Abstraction: which sequence of elements a list object holds *)

(** An element with both links null. *)
Definition detached : IntrusiveNode := mkNode None None.

Definition hd_ptr (xs : list nat) (nx : ptr) : ptr :=
  match xs with [] => nx | y :: _ => Some y end.

Definition last_ptr (pv : ptr) (xs : list nat) : ptr :=
  match last xs with Some y => Some y | None => pv end.

(** [chain h pv xs nx]: in the object store [h] the elements [xs] form a
    doubly-linked segment entered from [pv] and left towards [nx]. *)
Fixpoint chain (h : gmap nat IntrusiveNode) (pv : ptr) (xs : list nat)
  (nx : ptr) : Prop :=
  match xs with
  | [] => True
  | x :: r => h !! x = Some (mkNode pv (hd_ptr r nx)) /\ chain h (Some x) r nx
  end.

(** The counter of a length-tracking list holds [n]. *)
Definition counts (L : IntrusiveList) (n : nat) : Prop :=
  HasLength L = true -> l_length L = Z.of_nat n /\ Z.of_nat n < size_max.

(** [Repr s l xs]: the list object at [l] holds exactly [xs], in this
    order. *)
Definition Repr (s : state) (l : nat) (xs : list nat) : Prop :=
  exists L,
    lists s !! l = Some L /\
    l_head L = head xs /\ l_last L = last xs /\ counts L (length xs) /\
    chain (nodes s) None xs None /\ NoDup xs.

(** The counter of the list at [l] can be incremented [k] times without
    wrapping. *)
Definition room (s : state) (l : nat) (k : nat) : Prop :=
  forall L, lists s !! l = Some L -> HasLength L = true ->
            l_length L + Z.of_nat k < size_max.

(** Everything but the elements [X] and the list objects [Ls] is as it
    was. *)
Definition frame (X : list nat) (Ls : list nat) (s s' : state) : Prop :=
  (forall y, y ∉ X -> nodes s' !! y = nodes s !! y) /\
  (forall l, l ∉ Ls -> lists s' !! l = lists s !! l) /\
  (forall y, is_Some (nodes s !! y) -> is_Some (nodes s' !! y)) /\
  (forall l, is_Some (lists s' !! l) <-> is_Some (lists s !! l)) /\
  (forall l L L', lists s !! l = Some L -> lists s' !! l = Some L' ->
                  HasLength L' = HasLength L).

(** A hypothesis set aside while the others are being split. *)
Definition kept (P : Prop) : Prop := P.

(** The counter of the list at [l], if it has one, can hold [n]. *)
Definition fits (s : state) (l : nat) (n : nat) : Prop :=
  forall L, lists s !! l = Some L -> HasLength L = true ->
            Z.of_nat n < size_max.

(** The invariant C7 names, for the list object at [l]: head is null
    exactly when last is, and the counter of a length-tracking list is the
    number of elements met walking from head along [next] to null. *)
Definition list_inv (s : state) (l : nat) : Prop :=
  exists L,
    lists s !! l = Some L /\
    (l_head L = None <-> l_last L = None) /\
    (HasLength L = true ->
     exists fuel ys, walk_next fuel (nodes s) (l_head L) = Some ys /\
                     l_length L = Z.of_nat (length ys)).

(** The data model: [rho] says which sequence each list object holds, and
    no element is held twice. *)
Definition wf (s : state) (rho : gmap nat (list nat)) : Prop :=
  (forall l, is_Some (lists s !! l) <-> is_Some (rho !! l)) /\
  (forall l xs, rho !! l = Some xs -> Repr s l xs) /\
  (forall l1 l2 xs ys, l1 <> l2 -> rho !! l1 = Some xs -> rho !! l2 = Some ys ->
                       xs ## ys).

(** [x] is detached: its links are null and no list holds it. *)
Definition free (s : state) (rho : gmap nat (list nat)) (x : nat) : Prop :=
  nodes s !! x = Some detached /\ forall l xs, rho !! l = Some xs -> x ∉ xs.

(** [cur] is a position of a list holding [xs], which only matters when
    the list is not empty. *)
Definition at_pos (xs : list nat) (cur : ptr) : Prop :=
  xs = [] \/ exists c, cur = Some c /\ c ∈ xs.

(** The preconditions. *)
Definition pre (s : state) (rho : gmap nat (list nat)) (o : op) : Prop :=
  match o with
  | OInsertPrev l cur x | OInsertNext l cur x =>
      exists xs, rho !! l = Some xs /\ at_pos xs cur /\ free s rho x /\
                 room s l 1
  | OInsertHead l x | OInsertLast l x =>
      exists xs, rho !! l = Some xs /\ free s rho x /\ room s l 1
  | OInsertPrev_from l cur x other | OInsertNext_from l cur x other =>
      exists xs ys, rho !! l = Some xs /\ rho !! other = Some ys /\
                    l <> other /\ x ∈ ys /\ at_pos xs cur /\ room s l 1
  | OInsertHead_from l x other | OInsertLast_from l x other =>
      exists xs ys, rho !! l = Some xs /\ rho !! other = Some ys /\
                    l <> other /\ x ∈ ys /\ room s l 1
  | ORemove l x => exists xs, rho !! l = Some xs /\ x ∈ xs
  | ORemoveHead l | ORemoveLast l => exists xs, rho !! l = Some xs /\ xs <> []
  | OClear l => is_Some (rho !! l)
  | Omove_ctor this other | Oconvert_ctor this _ other =>
      rho !! this = None /\ is_Some (rho !! other)
  | Omove_assign this other =>
      exists T O, lists s !! this = Some T /\ lists s !! other = Some O /\
                  HasLength T = HasLength O
  | Oappend this rhs =>
      exists xs ys, rho !! this = Some ys /\ rho !! rhs = Some xs /\
                    this <> rhs /\ fits s this (length ys + length xs)
  | Oconcat tmp lhs rhs =>
      exists xs ys L R,
        rho !! tmp = None /\ rho !! lhs = Some xs /\ rho !! rhs = Some ys /\
        lhs <> rhs /\ lists s !! lhs = Some L /\ lists s !! rhs = Some R /\
        (HasLength L || HasLength R = true ->
         Z.of_nat (length xs + length ys) < size_max)
  end.


(** ** The comparisons, on sequences *)

(** The comparisons on the sequences of elements, as the specification
    words them. *)
Fixpoint equal_spec (elem_eq : nat -> nat -> bool) (xs ys : list nat)
  : bool :=
  match xs, ys with
  | [], [] => true
  | x :: xs', y :: ys' => elem_eq x y && equal_spec elem_eq xs' ys'
  | _, _ => false
  end.

Fixpoint lex_spec (elem_cmp : nat -> nat -> ordering) (xs ys : list nat)
  : ordering :=
  match xs, ys with
  | [], [] => equivalent
  | [], _ :: _ => less
  | _ :: _, [] => greater
  | x :: xs', y :: ys' =>
      match elem_cmp x y with
      | equivalent => lex_spec elem_cmp xs' ys'
      | c => c
      end
  end.

Definition eqv (elem_cmp : nat -> nat -> ordering) (a b : nat) : Prop :=
  elem_cmp a b = equivalent.

(** ** Example stores *)

Definition fresh_nodes (xs : list nat) : gmap nat IntrusiveNode :=
  list_to_map ((fun x => (x, detached)) <$> xs).

(** Concrete stores for the examples: list object [100] holds the elements
    [1; 2; 3], list object [101] holds [4; 5]; element [6] is detached. *)
Definition st_nodes : gmap nat IntrusiveNode :=
  list_to_map
    [(1%nat, mkNode None (Some 2%nat));
     (2%nat, mkNode (Some 1%nat) (Some 3%nat));
     (3%nat, mkNode (Some 2%nat) None);
     (4%nat, mkNode None (Some 5%nat));
     (5%nat, mkNode (Some 4%nat) None);
     (6%nat, detached)].

Definition st_two : state :=
  mkState st_nodes
    (list_to_map
       [(100%nat, mkList true (Some 1%nat) (Some 3%nat) 3);
        (101%nat, mkList true (Some 4%nat) (Some 5%nat) 2)]).

(** What the two lists of [st_two] hold. *)
Definition rho_two : gmap nat (list nat) :=
  {[ 100%nat := [1%nat; 2%nat; 3%nat]; 101%nat := [4%nat; 5%nat] ]}.

(** The elements of the example compare by their addresses. *)
Definition nat_cmp (a b : nat) : ordering :=
  match Nat.compare a b with Lt => less | Eq => equivalent | Gt => greater end.

(** ** The header's own test *)

(** What the test of the header looks at: [IsEmpty()], [GetLength()] and
    the two traversals. *)
Definition observe (l : nat) : M (bool * Z * list nat * list nat) :=
  e <- IsEmpty l ;; n <- GetLength l ;;
  fun s =>
    match forward 16 s l, backward 16 s l with
    | Some f, Some b => Some ((e, n, f, b), s)
    | _, _ => None
    end.

(** The calls of the test, in its order; element [vi] is at address [i]
    ([v i] is [&vi]) and the lists [list], [list1] .. [list6] are the
    objects [20] .. [26]. *)
Definition v (i : nat) : ptr := Some i.

Definition header_test : M (list (bool * Z * list nat * list nat)) :=
  new_list 20 true ;;
  o1 <- observe 20 ;;
  InsertLast 20 (v 1) ;; InsertLast 20 (v 2) ;; InsertLast 20 (v 3) ;;
  o2 <- observe 20 ;;
  Remove 20 (v 2) ;;
  o3 <- observe 20 ;;
  h <- GetHead 20 ;; InsertPrev 20 h (v 4) ;;
  l <- GetLast 20 ;; InsertPrev 20 l (v 5) ;;
  o4 <- observe 20 ;;
  RemoveHead 20 ;; RemoveLast 20 ;;
  o5 <- observe 20 ;;
  h <- GetHead 20 ;; InsertNext 20 h (v 6) ;;
  l <- GetLast 20 ;; InsertNext 20 l (v 7) ;;
  o6 <- observe 20 ;;
  Clear 20 ;;
  o7 <- observe 20 ;;
  InsertHead 20 (v 8) ;; InsertHead 20 (v 9) ;; InsertHead 20 (v 0) ;;
  o8 <- observe 20 ;;
  new_list 21 true ;; new_list 22 true ;;
  InsertLast 21 (v 1) ;; InsertLast 21 (v 2) ;; InsertLast 21 (v 3) ;;
  InsertLast 21 (v 4) ;; InsertLast 21 (v 5) ;;
  InsertLast 22 (v 6) ;; InsertLast 22 (v 7) ;; InsertLast 22 (v 8) ;;
  InsertLast 22 (v 9) ;; InsertLast 22 (v 0) ;;
  InsertPrev_from 21 (v 2) (v 9) 22 ;; InsertLast_from 21 (v 8) 22 ;;
  o9 <- observe 21 ;; o10 <- observe 22 ;;
  InsertNext_from 22 (v 7) (v 4) 21 ;; InsertHead_from 22 (v 3) 21 ;;
  o11 <- observe 21 ;; o12 <- observe 22 ;;
  move_ctor 23 21 ;;
  o13 <- observe 21 ;; o14 <- observe 23 ;;
  new_list 24 true ;; move_assign 24 22 ;;
  o15 <- observe 22 ;; o16 <- observe 24 ;;
  new_list 25 true ;; append 16 25 23 ;;
  o17 <- observe 23 ;; o18 <- observe 25 ;;
  concat 16 26 25 24 ;;
  o19 <- observe 24 ;; o20 <- observe 26 ;;
  Clear 25 ;; Clear 26 ;;
  o21 <- observe 25 ;; o22 <- observe 26 ;;
  ret [o1; o2; o3; o4; o5; o6; o7; o8; o9; o10; o11; o12; o13; o14; o15; o16;
       o17; o18; o19; o20; o21; o22].

(** * Properties *)

Local Open Scope nat_scope.

(** The model passes the test of the header: the emptiness, the length and
    the two traversals the test asserts after each group of calls. *)
Example header_test_passes :
  option_map fst (header_test (mkState (fresh_nodes (seq 0 10)) ∅)) =
  Some
    [(true, 0%Z, [], []);
     (false, 3%Z, [1; 2; 3], [3; 2; 1]);
     (false, 2%Z, [1; 3], [3; 1]);
     (false, 4%Z, [4; 1; 5; 3], [3; 5; 1; 4]);
     (false, 2%Z, [1; 5], [5; 1]);
     (false, 4%Z, [1; 6; 5; 7], [7; 5; 6; 1]);
     (true, 0%Z, [], []);
     (false, 3%Z, [0; 9; 8], [8; 9; 0]);
     (false, 7%Z, [1; 9; 2; 3; 4; 5; 8], [8; 5; 4; 3; 2; 9; 1]);
     (false, 3%Z, [6; 7; 0], [0; 7; 6]);
     (false, 5%Z, [1; 9; 2; 5; 8], [8; 5; 2; 9; 1]);
     (false, 5%Z, [3; 6; 7; 4; 0], [0; 4; 7; 6; 3]);
     (true, 0%Z, [], []);
     (false, 5%Z, [1; 9; 2; 5; 8], [8; 5; 2; 9; 1]);
     (true, 0%Z, [], []);
     (false, 5%Z, [3; 6; 7; 4; 0], [0; 4; 7; 6; 3]);
     (true, 0%Z, [], []);
     (false, 5%Z, [1; 9; 2; 5; 8], [8; 5; 2; 9; 1]);
     (true, 0%Z, [], []);
     (false, 10%Z, [1; 9; 2; 5; 8; 3; 6; 7; 4; 0],
        [0; 4; 7; 6; 3; 8; 5; 2; 9; 1]);
     (true, 0%Z, [], []);
     (true, 0%Z, [], [])].
Proof. vm_compute. reflexivity. Qed.

Local Close Scope nat_scope.

Section Chain.
Implicit Types (h : gmap nat IntrusiveNode) (xs ys : list nat) (pv nx : ptr).

Lemma hd_ptr_app xs ys nx : hd_ptr (xs ++ ys) nx = hd_ptr xs (hd_ptr ys nx).
Proof. by destruct xs. Qed.

Lemma last_ptr_nil pv : last_ptr pv [] = pv.
Proof. done. Qed.

Lemma last_ptr_cons pv x xs : last_ptr pv (x :: xs) = last_ptr (Some x) xs.
Proof.
  unfold last_ptr. destruct xs as [|y r]; [done|].
  change (last (x :: y :: r)) with (last (y :: r)).
  by destruct (last (y :: r)) eqn:E; [|apply last_None in E].
Qed.

Lemma last_ptr_snoc pv xs a : last_ptr pv (xs ++ [a]) = Some a.
Proof. unfold last_ptr. by rewrite last_snoc. Qed.

Lemma last_ptr_app pv xs ys :
  last_ptr pv (xs ++ ys) = last_ptr (last_ptr pv xs) ys.
Proof.
  revert pv. induction xs as [|x r IH]; intros pv; [done|].
  rewrite <- app_comm_cons, !last_ptr_cons. apply IH.
Qed.

Lemma head_hd_ptr xs : head xs = hd_ptr xs None.
Proof. by destruct xs. Qed.

Lemma last_last_ptr xs : last xs = last_ptr None xs.
Proof. unfold last_ptr. by destruct (last xs). Qed.

Lemma chain_app h pv xs ys nx :
  chain h pv (xs ++ ys) nx <->
  chain h pv xs (hd_ptr ys nx) /\ chain h (last_ptr pv xs) ys nx.
Proof.
  revert pv. induction xs as [|x r IH]; intros pv; simpl.
  - rewrite last_ptr_nil. tauto.
  - rewrite last_ptr_cons, hd_ptr_app, IH. tauto.
Qed.

Lemma chain_snoc h pv xs a nx :
  chain h pv (xs ++ [a]) nx <->
  chain h pv xs (Some a) /\ h !! a = Some (mkNode (last_ptr pv xs) nx).
Proof. rewrite chain_app. simpl. tauto. Qed.

(** A segment depends only on the objects it names. *)
Lemma chain_frame h h' pv xs nx :
  (forall y, y ∈ xs -> h' !! y = h !! y) ->
  chain h pv xs nx -> chain h' pv xs nx.
Proof.
  revert pv. induction xs as [|x r IH]; intros pv Hy; simpl; [done|].
  intros [Hx Hr]. split.
  - rewrite Hy; [done | left].
  - apply IH; [|done]. intros y Hin. apply Hy. by right.
Qed.

Lemma chain_lookup h pv xs nx x :
  chain h pv xs nx -> x ∈ xs -> is_Some (h !! x).
Proof.
  revert pv. induction xs as [|y r IH]; intros pv; simpl.
  - intros _ Hin. by apply elem_of_nil in Hin.
  - intros [Hy Hr] Hin. apply elem_of_cons in Hin as [->|Hin]; eauto.
Qed.

(** The links of an element in the middle of a segment. *)
Lemma chain_mid h pv xs x ys nx :
  chain h pv (xs ++ x :: ys) nx ->
  h !! x = Some (mkNode (last_ptr pv xs) (hd_ptr ys nx)).
Proof. rewrite chain_app. simpl. tauto. Qed.

(** Walking a segment. *)
Lemma walk_next_chain h pv xs fuel :
  chain h pv xs None -> (length xs <= fuel)%nat ->
  walk_next fuel h (hd_ptr xs None) = Some xs.
Proof.
  revert pv fuel. induction xs as [|x r IH]; intros pv fuel; simpl.
  - by destruct fuel.
  - intros [Hx Hr] Hf. destruct fuel as [|fuel]; [lia|]. simpl.
    rewrite Hx. simpl. rewrite (IH (Some x)); [done | done | lia].
Qed.

Lemma walk_prev_chain h xs nx fuel :
  chain h None xs nx -> (length xs <= fuel)%nat ->
  walk_prev fuel h (last_ptr None xs) = Some (reverse xs).
Proof.
  revert nx fuel. induction xs as [|a r IH] using rev_ind; intros nx fuel.
  - by destruct fuel.
  - rewrite chain_snoc, last_ptr_snoc, length_app. simpl.
    intros [Hr Ha] Hf. destruct fuel as [|fuel]; [lia|]. simpl.
    rewrite Ha. simpl. rewrite (IH (Some a)); [|done|lia].
    by rewrite reverse_snoc.
Qed.
End Chain.

(** ** Symbolic execution *)

Ltac unfold_node_ops :=
  cbv beta iota delta
    [bind ret fail when load store get_prev get_next set_prev set_next
     AttachPrev AttachNext Detach to_bool nodes lists prev next].

Ltac unfold_list_ops :=
  cbv beta iota delta
    [bind ret fail when get_prev get_next load
     get_list put_list get_head get_last set_head set_last set_length
     GetLength SetToZero IncLength DecLength
     if_Enable new_list GetHead GetLast IsEmpty Clear InsertPrev InsertNext
     InsertHead InsertLast Remove RemoveHead RemoveLast
     InsertPrev_from InsertNext_from InsertHead_from InsertLast_from
     move_ctor move_assign to_bool ptr_eqb nodes lists
     HasLength l_head l_last l_length prev next negb andb orb].

(** Two keys differ: by congruence, or because one is in a list the other
    is known not to be in. *)
Ltac solve_ne :=
  first [ congruence
        | let E := fresh in intros E; subst; contradiction ].

Ltac lookups :=
  repeat first
    [ rewrite lookup_insert_eq
    | rewrite lookup_insert_ne by solve_ne
    | match goal with
      | H : ?m !! ?k = Some _ |- context [?m !! ?k] => rewrite H
      end
    | match goal with
      | H : forall ls, _ = Some _ |- _ => rewrite H
      end
    | rewrite bool_decide_eq_true_2 by congruence
    | rewrite bool_decide_eq_false_2 by congruence ].

Ltac exec_node := repeat (progress (unfold_node_ops; lookups)).
Ltac exec_list := repeat (progress (unfold_list_ops; lookups)).

(** Splitting [NoDup], membership and [chain] facts about concatenations. *)
Ltac split_hyps :=
  repeat match goal with
    | H : _ /\ _ |- _ => destruct H
    | H : context [(_ ++ _) ++ _] |- _ => rewrite <- app_assoc in H; simpl in H
    | H : NoDup (_ ++ _) |- _ => apply NoDup_app in H
    | H : NoDup (_ :: _) |- _ => apply NoDup_cons in H
    | H : _ ∉ _ :: _ |- _ => apply not_elem_of_cons in H
    | H : _ ∉ _ ++ _ |- _ => apply not_elem_of_app in H
    | H : chain _ _ (_ ++ _) _ |- _ => apply chain_app in H
    | H : chain _ _ (_ :: _) _ |- _ => simpl in H
    end.

(** Use the disjointness facts at a given member. *)
Ltac use_member y Hy :=
  repeat match goal with
    | H : forall z, z ∈ ?l -> _, Hy' : y ∈ ?l |- _ =>
        let F := fresh in pose proof (H y Hy') as F; clear H
    end;
  split_hyps.

(** A lookup away from every key that was written. *)
Ltac off_keys :=
  repeat (rewrite lookup_insert_ne by solve_ne); try done.

Ltac frame_chain H :=
  apply (chain_frame _ _ _ _ _) with (2 := H);
  let y := fresh "y" in let Hy := fresh "Hy" in
  intros y Hy; use_member y Hy; off_keys.

Ltac chain_goal :=
  rewrite <- ?app_assoc; simpl; rewrite ?chain_app; simpl;
  rewrite ?last_ptr_snoc;
  repeat split; try (by lookups);
  try match goal with
    | H : chain _ ?p ?l ?n |- chain _ ?p ?l ?n => frame_chain H
    end.

Ltac still_there :=
  let y := fresh "y" in
  intros y ?; rewrite ?lookup_insert_is_Some'; auto.

Section NodeOps.
Implicit Types (h : gmap nat IntrusiveNode) (ls : gmap nat IntrusiveList).

(** [Detach] on an element of a well-linked sequence closes the gap
    around it and nulls its own links. *)
Lemma Detach_chain h l1 x l2 :
  chain h None (l1 ++ x :: l2) None -> NoDup (l1 ++ x :: l2) ->
  exists h',
    (forall ls, Detach (Some x) (mkState h ls) = Some (tt, mkState h' ls)) /\
    chain h' None (l1 ++ l2) None /\
    h' !! x = Some detached /\
    (forall y, y ∉ l1 ++ x :: l2 -> h' !! y = h !! y) /\
    (forall y, is_Some (h !! y) -> is_Some (h' !! y)).
Proof.
  intros Hc Hn.
  destruct l1 as [|a l1 _] using rev_ind; destruct l2 as [|b l2];
    simpl in *; split_hyps; rewrite ?last_ptr_snoc in *; simpl hd_ptr in *.
  all: eexists; split; [intros ls; exec_node; reflexivity|].
  all: split; [|split; [by lookups|split; [|still_there]]].
  all: try (intros y Hy; split_hyps; off_keys; fail).
  all: chain_goal.
Qed.

(** [AttachNext] links an element right after [c]. *)
Lemma AttachNext_chain h k1 c k2 x n0 :
  chain h None (k1 ++ c :: k2) None -> NoDup (k1 ++ c :: k2) ->
  h !! x = Some n0 -> x ∉ k1 ++ c :: k2 ->
  exists h',
    (forall ls,
        AttachNext (Some x) (Some c) (mkState h ls) = Some (tt, mkState h' ls)) /\
    chain h' None (k1 ++ c :: x :: k2) None /\
    (forall y, y ∉ x :: k1 ++ c :: k2 -> h' !! y = h !! y) /\
    (forall y, is_Some (h !! y) -> is_Some (h' !! y)).
Proof.
  intros Hc Hn Hx Hnin.
  destruct k2 as [|b k2]; simpl in *; split_hyps; simpl hd_ptr in *.
  all: eexists; split; [intros ls; exec_node; reflexivity|].
  all: split; [|split; [|still_there]].
  all: try (intros y Hy; split_hyps; off_keys; fail).
  all: chain_goal.
Qed.

(** [AttachPrev] links an element right before [c]. *)
Lemma AttachPrev_chain h k1 c k2 x n0 :
  chain h None (k1 ++ c :: k2) None -> NoDup (k1 ++ c :: k2) ->
  h !! x = Some n0 -> x ∉ k1 ++ c :: k2 ->
  exists h',
    (forall ls,
        AttachPrev (Some x) (Some c) (mkState h ls) = Some (tt, mkState h' ls)) /\
    chain h' None (k1 ++ x :: c :: k2) None /\
    (forall y, y ∉ x :: k1 ++ c :: k2 -> h' !! y = h !! y) /\
    (forall y, is_Some (h !! y) -> is_Some (h' !! y)).
Proof.
  intros Hc Hn Hx Hnin.
  destruct k1 as [|a k1 _] using rev_ind; simpl in *; split_hyps;
    rewrite ?last_ptr_snoc in *; simpl hd_ptr in *.
  all: eexists; split; [intros ls; exec_node; reflexivity|].
  all: split; [|split; [|still_there]].
  all: try (intros y Hy; split_hyps; off_keys; fail).
  all: chain_goal.
Qed.
End NodeOps.


Ltac norm_ends :=
  repeat (progress (rewrite ?head_hd_ptr, ?last_last_ptr, ?hd_ptr_app,
                      ?last_ptr_app, ?last_ptr_cons, ?last_ptr_nil));
  simpl hd_ptr.

Ltac solve_counts :=
  unfold counts, room, wrap, size_max in *; cbn [HasLength l_length] in *;
  try discriminate;
  let E := fresh in
  intros E;
  repeat match goal with
    | H : true = true -> _ |- _ => specialize (H eq_refl)
    | H : forall L, ?ls !! ?l = Some L -> _, H' : ?ls !! ?l = Some _ |- _ =>
        specialize (H _ H'); cbn [HasLength l_length] in H
    | H : _ /\ _ |- _ => destruct H
    end;
  repeat (progress (rewrite ?length_app in *; simpl length in * ));
  rewrite ?Z.mod_small by lia; lia.

Section ListOps.
Implicit Types (s : state) (xs ys : list nat).

Lemma head_app_cons (l1 : list nat) x l2 :
  head (l1 ++ x :: l2) = Some (default x (head l1)).
Proof. by destruct l1. Qed.

Lemma last_app_cons (l1 : list nat) x l2 :
  last (l1 ++ x :: l2) = Some (default x (last l2)).
Proof.
  rewrite last_app. destruct l2 as [|b l2 _] using rev_ind; [done|].
  change (x :: l2 ++ [b]) with ((x :: l2) ++ [b]). by rewrite !last_snoc.
Qed.

Lemma NoDup_drop_mid (l1 : list nat) x l2 :
  NoDup (l1 ++ x :: l2) -> NoDup (l1 ++ l2).
Proof.
  rewrite !NoDup_app, NoDup_cons. intros (? & Hd & ? & ?).
  repeat split; [done| |done].
  intros y Hy Hy'. apply (Hd y Hy). by right.
Qed.

Lemma frame_intro X (l : nat) h ls h' ls' L :
  ls !! l = Some L ->
  (forall y, y ∉ X -> h' !! y = h !! y) ->
  (forall y, is_Some (h !! y) -> is_Some (h' !! y)) ->
  (forall l', l' <> l -> ls' !! l' = ls !! l') ->
  (exists L', ls' !! l = Some L' /\ HasLength L' = HasLength L) ->
  frame X [l] (mkState h ls) (mkState h' ls').
Proof.
  intros HL Hf Hs Hls (L' & HL' & Hen). unfold frame. cbn.
  repeat split; [done| |done| | |].
  - intros l' Hl'. apply Hls. intros ->. apply Hl'. left.
  - destruct (decide (l0 = l)) as [->|Hne]; [eauto|]. by rewrite <- Hls.
  - destruct (decide (l0 = l)) as [->|Hne]; [eauto|]. by rewrite Hls.
  - intros l0 L0 L0' H0 H0'. destruct (decide (l0 = l)) as [->|Hne].
    + congruence.
    + rewrite Hls in H0' by done. congruence.
Qed.

Lemma Remove_spec s (l : nat) l1 x l2 :
  Repr s l (l1 ++ x :: l2) ->
  exists s',
    Remove l (Some x) s = Some (tt, s') /\
    Repr s' l (l1 ++ l2) /\
    nodes s' !! x = Some detached /\
    frame (l1 ++ x :: l2) [l] s s'.
Proof.
  destruct s as [h ls]. intros (L & HL & Hh & Hl & Hn & Hc & Hd).
  cbn in HL, Hc.
  destruct (Detach_chain _ _ _ _ Hc Hd) as (h' & HD & Hc' & Hx' & Hf & Hs).
  pose proof (NoDup_drop_mid _ _ _ Hd) as Hd'.
  change (kept (chain h' None (l1 ++ l2) None)) in Hc'.
  change (kept (NoDup (l1 ++ l2))) in Hd'.
  change (kept (forall y, y ∉ l1 ++ x :: l2 -> h' !! y = h !! y)) in Hf.
  destruct L as [en hd la len]. cbn in Hh, Hl. subst hd la.
  rewrite head_app_cons, last_app_cons in *.
  destruct l1 as [|a l1]; destruct l2 as [|b l2 _] using rev_ind;
    rewrite ?last_snoc in *; simpl in * |-; split_hyps; destruct en.
  all: eexists; split; [exec_list; reflexivity|].
  all: unfold kept in *.
  all: split; [|split; [done|]].
  all: try (eapply frame_intro; [exact HL|exact Hf|exact Hs| |];
    [intros; by rewrite ?lookup_insert_ne by done
    |eexists; split; [by lookups|done]]).
  all: unfold Repr; cbn [nodes lists]; eexists; (split; [by lookups|]);
    cbn [l_head l_last]; split; [|split; [|split; [|done]]].
  all: try solve_counts.
  all: norm_ends; try done.
Qed.
End ListOps.

Section Insert.
Implicit Types (s : state) (xs ys : list nat).

Lemma NoDup_insert_mid (k1 : list nat) x k2 :
  NoDup (k1 ++ k2) -> x ∉ k1 ++ k2 -> NoDup (k1 ++ x :: k2).
Proof.
  rewrite !NoDup_app, NoDup_cons, not_elem_of_app.
  intros (? & Hd & ?) [? ?]. repeat split; try done.
  intros y Hy Hy'. apply elem_of_cons in Hy' as [->|Hy']; [done|].
  by apply (Hd y).
Qed.

Lemma last_cons_default (c : nat) k2 :
  last (c :: k2) = Some (default c (last k2)).
Proof. apply (last_app_cons [] c k2). Qed.

(** [Detach] leaves a detached element, and everything else, alone. *)
Lemma Detach_detached h x :
  h !! x = Some detached ->
  forall ls, Detach (Some x) (mkState h ls) = Some (tt, mkState h ls).
Proof.
  intros Hx ls. unfold detached in Hx. exec_node.
  by rewrite insert_insert_eq, insert_id.
Qed.

(** What [InsertNext] does once [Detach] has run, on a list that is not
    empty. *)
Lemma InsertNext_linked h h1 ls (l : nat) k1 c k2 x n0 :
  (forall ls, Detach (Some x) (mkState h ls) = Some (tt, mkState h1 ls)) ->
  Repr (mkState h1 ls) l (k1 ++ c :: k2) ->
  h1 !! x = Some n0 -> x ∉ k1 ++ c :: k2 ->
  room (mkState h1 ls) l 1 ->
  exists s',
    InsertNext l (Some c) (Some x) (mkState h ls) = Some (Some x, s') /\
    Repr s' l (k1 ++ c :: x :: k2) /\
    frame (x :: k1 ++ c :: k2) [l] (mkState h1 ls) s'.
Proof.
  intros HD (L & HL & Hh & Hl & Hn & Hc & Hd) Hx Hnin Hroom.
  cbn in HL, Hc.
  destruct (AttachNext_chain _ _ _ _ _ _ Hc Hd Hx Hnin)
    as (h2 & HA & Hc2 & Hf & Hs).
  assert (Hd2 : NoDup (k1 ++ c :: x :: k2)).
  { change (NoDup (k1 ++ [c] ++ x :: k2)). rewrite app_assoc.
    apply NoDup_insert_mid; by rewrite <- app_assoc. }
  change (kept (chain h2 None (k1 ++ c :: x :: k2) None)) in Hc2.
  change (kept (NoDup (k1 ++ c :: x :: k2))) in Hd2.
  change (kept (forall y, y ∉ x :: k1 ++ c :: k2 -> h2 !! y = h1 !! y)) in Hf.
  clear Hc Hx.
  destruct L as [en hd la len]. cbn in Hh, Hl. subst hd la.
  rewrite head_app_cons, last_app_cons in *.
  destruct k2 as [|b k2 _] using rev_ind;
    rewrite ?last_snoc in *; simpl in * |-; split_hyps; destruct en.
  all: eexists; split; [exec_list; reflexivity|].
  all: unfold kept in *.
  all: split.
  all: try (eapply frame_intro; [exact HL|exact Hf|exact Hs| |];
    [intros; by rewrite ?lookup_insert_ne by done
    |eexists; split; [by lookups|done]]).
  all: unfold Repr; cbn [nodes lists]; eexists; (split; [by lookups|]);
    cbn [l_head l_last]; split; [|split; [|split; [|done]]].
  all: try solve_counts.
  all: rewrite ?head_app_cons; try done.
  all: norm_ends; try done.
Qed.

Lemma InsertPrev_linked h h1 ls (l : nat) k1 c k2 x n0 :
  (forall ls, Detach (Some x) (mkState h ls) = Some (tt, mkState h1 ls)) ->
  Repr (mkState h1 ls) l (k1 ++ c :: k2) ->
  h1 !! x = Some n0 -> x ∉ k1 ++ c :: k2 ->
  room (mkState h1 ls) l 1 ->
  exists s',
    InsertPrev l (Some c) (Some x) (mkState h ls) = Some (Some x, s') /\
    Repr s' l (k1 ++ x :: c :: k2) /\
    frame (x :: k1 ++ c :: k2) [l] (mkState h1 ls) s'.
Proof.
  intros HD (L & HL & Hh & Hl & Hn & Hc & Hd) Hx Hnin Hroom.
  cbn in HL, Hc.
  destruct (AttachPrev_chain _ _ _ _ _ _ Hc Hd Hx Hnin)
    as (h2 & HA & Hc2 & Hf & Hs).
  assert (Hd2 : NoDup (k1 ++ x :: c :: k2)) by by apply NoDup_insert_mid.
  change (kept (chain h2 None (k1 ++ x :: c :: k2) None)) in Hc2.
  change (kept (NoDup (k1 ++ x :: c :: k2))) in Hd2.
  change (kept (forall y, y ∉ x :: k1 ++ c :: k2 -> h2 !! y = h1 !! y)) in Hf.
  clear Hc Hx.
  destruct L as [en hd la len]. cbn in Hh, Hl. subst hd la.
  rewrite head_app_cons, last_app_cons in *.
  destruct k1 as [|a k1]; simpl in * |-; split_hyps; destruct en.
  all: eexists; split; [exec_list; reflexivity|].
  all: unfold kept in *.
  all: split.
  all: try (eapply frame_intro; [exact HL|exact Hf|exact Hs| |];
    [intros; by rewrite ?lookup_insert_ne by done
    |eexists; split; [by lookups|done]]).
  all: unfold Repr; cbn [nodes lists]; eexists; (split; [by lookups|]);
    cbn [l_head l_last]; split; [|split; [|split; [|done]]].
  all: try solve_counts.
  all: rewrite ?last_app_cons, ?last_cons_default; try done.
Qed.

(** Both insertions, once [Detach] has run, on an empty list: [curNode]
    is not looked at. *)
Lemma Insert_empty h h1 ls (l : nat) cur x :
  (forall ls, Detach (Some x) (mkState h ls) = Some (tt, mkState h1 ls)) ->
  Repr (mkState h1 ls) l [] ->
  h1 !! x = Some detached ->
  room (mkState h1 ls) l 1 ->
  exists s',
    InsertNext l cur (Some x) (mkState h ls) = Some (Some x, s') /\
    InsertPrev l cur (Some x) (mkState h ls) = Some (Some x, s') /\
    Repr s' l [x] /\
    frame [x] [l] (mkState h1 ls) s'.
Proof.
  intros HD (L & HL & Hh & Hl & Hn & Hc & Hd) Hx Hroom.
  cbn in HL. destruct L as [en hd la len]. cbn in Hh, Hl. subst hd la.
  destruct en.
  all: eexists; split; [exec_list; reflexivity|].
  all: split; [exec_list; reflexivity|].
  all: split.
  all: try (eapply frame_intro; [exact HL|done|done| |];
    [intros; by rewrite ?lookup_insert_ne by done
    |eexists; split; [by lookups|done]]).
  all: unfold Repr; cbn [nodes lists chain]; eexists; (split; [by lookups|]);
    cbn [l_head l_last]; split; [done|split; [done|split]].
  all: try solve_counts.
  all: split; [done|apply NoDup_singleton].
Qed.
End Insert.

Section Frame.
Implicit Types (s : state) (X : list nat) (Ls : list nat).

Lemma frame_refl X Ls s : frame X Ls s s.
Proof. unfold frame. repeat split; try done. congruence. Qed.

Lemma frame_trans X X' Ls Ls' s s1 s2 :
  frame X Ls s s1 -> frame X' Ls' s1 s2 -> frame (X ++ X') (Ls ++ Ls') s s2.
Proof.
  intros (N1 & L1 & S1 & D1 & E1) (N2 & L2 & S2 & D2 & E2).
  unfold frame. repeat split.
  - intros y Hy. apply not_elem_of_app in Hy as [? ?].
    rewrite N2, N1; done.
  - intros l Hl. apply not_elem_of_app in Hl as [? ?].
    rewrite L2, L1; done.
  - auto.
  - intros Hl. by apply D1, D2.
  - intros Hl. by apply D2, D1.
  - intros l L L' HL HL'.
    destruct (proj2 (D1 l) (ex_intro _ L HL)) as [L1' HL1].
    rewrite (E2 _ _ _ HL1 HL'). by apply (E1 l).
Qed.

Lemma frame_mono X X' Ls Ls' s s' :
  X ⊆ X' -> Ls ⊆ Ls' -> frame X Ls s s' -> frame X' Ls' s s'.
Proof.
  intros HX HL (N1 & L1 & S1 & D1 & E1). unfold frame. repeat split.
  - intros y Hy. apply N1. intros Hin. by apply Hy, HX.
  - intros l Hl. apply L1. intros Hin. by apply Hl, HL.
  - done.
  - apply D1.
  - apply D1.
  - done.
Qed.

(** A change of element objects only. *)
Lemma frame_nodes X h h' ls :
  (forall y, y ∉ X -> h' !! y = h !! y) ->
  (forall y, is_Some (h !! y) -> is_Some (h' !! y)) ->
  frame X [] (mkState h ls) (mkState h' ls).
Proof. intros. unfold frame. cbn. repeat split; try done. congruence. Qed.

Lemma Repr_frame X Ls s s' (l : nat) xs :
  frame X Ls s s' -> l ∉ Ls -> (forall y, y ∈ xs -> y ∉ X) ->
  Repr s l xs -> Repr s' l xs.
Proof.
  intros (N1 & L1 & _) Hl Hx (L & HL & Hh & Hla & Hn & Hc & Hd).
  exists L. rewrite L1 by done. split_and!; try done.
  eapply chain_frame; [|done]. intros y Hy. by apply N1, Hx.
Qed.

Lemma room_frame X Ls s s' (l : nat) k :
  frame X Ls s s' -> l ∉ Ls -> room s l k -> room s' l k.
Proof.
  intros (_ & L1 & _) Hl Hr L HL. apply Hr. by rewrite <- L1.
Qed.

Lemma Repr_elem_alloc s (l : nat) xs x :
  Repr s l xs -> x ∈ xs -> is_Some (nodes s !! x).
Proof. intros (L & _ & _ & _ & _ & Hc & _). by eapply chain_lookup. Qed.

Lemma Repr_forward s (l : nat) xs fuel :
  Repr s l xs -> (length xs <= fuel)%nat -> forward fuel s l = Some xs.
Proof.
  intros (L & HL & Hh & _ & _ & Hc & _) Hf. unfold forward.
  rewrite HL, Hh, head_hd_ptr. by eapply walk_next_chain.
Qed.

Lemma Repr_backward s (l : nat) xs fuel :
  Repr s l xs -> (length xs <= fuel)%nat ->
  backward fuel s l = Some (reverse xs).
Proof.
  intros (L & HL & _ & Hl & _ & Hc & _) Hf. unfold backward.
  rewrite HL, Hl, last_last_ptr. by eapply walk_prev_chain.
Qed.
End Frame.

Section InsertSpecs.
Implicit Types (s : state) (xs ys : list nat).

Lemma InsertNext_spec s (l : nat) k1 c k2 x :
  Repr s l (k1 ++ c :: k2) ->
  nodes s !! x = Some detached -> x ∉ k1 ++ c :: k2 -> room s l 1 ->
  exists s',
    InsertNext l (Some c) (Some x) s = Some (Some x, s') /\
    Repr s' l (k1 ++ c :: x :: k2) /\
    frame (x :: k1 ++ c :: k2) [l] s s'.
Proof.
  destruct s as [h ls]. intros HR Hx Hnin Hroom.
  by apply (InsertNext_linked h h ls l k1 c k2 x detached
              (Detach_detached h x Hx)).
Qed.

Lemma InsertPrev_spec s (l : nat) k1 c k2 x :
  Repr s l (k1 ++ c :: k2) ->
  nodes s !! x = Some detached -> x ∉ k1 ++ c :: k2 -> room s l 1 ->
  exists s',
    InsertPrev l (Some c) (Some x) s = Some (Some x, s') /\
    Repr s' l (k1 ++ x :: c :: k2) /\
    frame (x :: k1 ++ c :: k2) [l] s s'.
Proof.
  destruct s as [h ls]. intros HR Hx Hnin Hroom.
  by apply (InsertPrev_linked h h ls l k1 c k2 x detached
              (Detach_detached h x Hx)).
Qed.

Lemma Insert_empty_spec s (l : nat) cur x :
  Repr s l [] -> nodes s !! x = Some detached -> room s l 1 ->
  exists s',
    InsertNext l cur (Some x) s = Some (Some x, s') /\
    InsertPrev l cur (Some x) s = Some (Some x, s') /\
    Repr s' l [x] /\
    frame [x] [l] s s'.
Proof.
  destruct s as [h ls]. intros HR Hx Hroom.
  by apply (Insert_empty h h ls l cur x (Detach_detached h x Hx)).
Qed.

Lemma InsertLast_unfold s (l : nat) L p :
  lists s !! l = Some L -> InsertLast l p s = InsertNext l (l_last L) p s.
Proof. intros HL. unfold InsertLast, get_last, get_list, bind, ret. by rewrite HL. Qed.

Lemma InsertHead_unfold s (l : nat) L p :
  lists s !! l = Some L -> InsertHead l p s = InsertPrev l (l_head L) p s.
Proof. intros HL. unfold InsertHead, get_head, get_list, bind, ret. by rewrite HL. Qed.

Lemma InsertLast_spec s (l : nat) xs x :
  Repr s l xs ->
  nodes s !! x = Some detached -> x ∉ xs -> room s l 1 ->
  exists s',
    InsertLast l (Some x) s = Some (Some x, s') /\
    Repr s' l (xs ++ [x]) /\
    frame (x :: xs) [l] s s'.
Proof.
  intros HR Hx Hnin Hroom.
  destruct HR as (L & HL & Hh & Hl & HR).
  rewrite (InsertLast_unfold _ _ _ _ HL), Hl.
  assert (HR' : Repr s l xs) by (exists L; done).
  destruct xs as [|c k1 _] using rev_ind.
  - destruct (Insert_empty_spec s l (last []) x HR' Hx Hroom)
      as (s' & E & _ & ? & ?). by exists s'.
  - rewrite last_snoc.
    destruct (InsertNext_spec s l k1 c [] x HR' Hx Hnin Hroom)
      as (s' & E & ? & ?).
    exists s'. by rewrite <- app_assoc.
Qed.

Lemma InsertHead_spec s (l : nat) xs x :
  Repr s l xs ->
  nodes s !! x = Some detached -> x ∉ xs -> room s l 1 ->
  exists s',
    InsertHead l (Some x) s = Some (Some x, s') /\
    Repr s' l (x :: xs) /\
    frame (x :: xs) [l] s s'.
Proof.
  intros HR Hx Hnin Hroom.
  destruct HR as (L & HL & Hh & Hl & HR).
  rewrite (InsertHead_unfold _ _ _ _ HL), Hh.
  assert (HR' : Repr s l xs) by (exists L; done).
  destruct xs as [|c k2].
  - destruct (Insert_empty_spec s l (head []) x HR' Hx Hroom)
      as (s' & _ & E & ? & ?). by exists s'.
  - simpl head.
    destruct (InsertPrev_spec s l [] c k2 x HR' Hx Hnin Hroom)
      as (s' & E & ? & ?).
    by exists s'.
Qed.
End InsertSpecs.

Section Loose.
Implicit Types (s : state) (h : gmap nat IntrusiveNode)
  (ls : gmap nat IntrusiveList) (ks : list nat) (x : nat).

(** [Detach] of an element of a loose segment, a run of elements linked to
    each other of which the list [l] holds none, leaves [l] as it was. *)
Lemma Detach_loose h ls (l : nat) ks (l1 : list nat) x (l2 : list nat) :
  Repr (mkState h ls) l ks -> chain h None (l1 ++ x :: l2) None ->
  NoDup (l1 ++ x :: l2) -> ks ## (l1 ++ x :: l2) ->
  room (mkState h ls) l 1 ->
  exists h1,
    (forall ls, Detach (Some x) (mkState h ls) = Some (tt, mkState h1 ls)) /\
    Repr (mkState h1 ls) l ks /\ h1 !! x = Some detached /\
    room (mkState h1 ls) l 1 /\ (x ∉ ks).
Proof.
  intros HR Hc Hd Hdisj Hroom.
  destruct (Detach_chain h l1 x l2 Hc Hd) as (h1 & HD & _ & Hx1 & Hf1 & Hs1).
  assert (F1 : frame (l1 ++ x :: l2) [] (mkState h ls) (mkState h1 ls))
    by (by apply frame_nodes).
  exists h1. split_and!; [done| |done| |].
  - apply (Repr_frame _ _ _ _ _ _ F1); [apply not_elem_of_nil| |done].
    intros y Hy Hy'. by apply (Hdisj y).
  - apply (room_frame _ _ _ _ _ _ F1); [apply not_elem_of_nil|done].
  - intros Hin. apply (Hdisj x Hin). apply elem_of_app. right. left.
Qed.

(** The four insertions, given an element [x] that the list does not
    hold: [x] may be detached ([l1] and [l2] empty) or still linked to
    neighbours, as an element of another list is. *)
Lemma Insert_loose s (l : nat) ks (l1 : list nat) x (l2 : list nat) :
  Repr s l ks -> chain (nodes s) None (l1 ++ x :: l2) None ->
  NoDup (l1 ++ x :: l2) -> ks ## (l1 ++ x :: l2) -> room s l 1 ->
  (forall k1 c k2, ks = k1 ++ c :: k2 ->
     (exists s',
         InsertPrev l (Some c) (Some x) s = Some (Some x, s') /\
         Repr s' l (k1 ++ x :: c :: k2)) /\
     (exists s',
         InsertNext l (Some c) (Some x) s = Some (Some x, s') /\
         Repr s' l (k1 ++ c :: x :: k2))) /\
  (ks = [] -> forall cur,
     exists s',
       InsertPrev l cur (Some x) s = Some (Some x, s') /\
       InsertNext l cur (Some x) s = Some (Some x, s') /\
       Repr s' l [x]) /\
  (exists s',
      InsertHead l (Some x) s = Some (Some x, s') /\ Repr s' l (x :: ks)) /\
  (exists s',
      InsertLast l (Some x) s = Some (Some x, s') /\ Repr s' l (ks ++ [x])).
Proof.
  destruct s as [h ls]. intros HR Hc Hd Hdisj Hroom. cbn in Hc.
  destruct (Detach_loose h ls l ks l1 x l2 HR Hc Hd Hdisj Hroom)
    as (h1 & HD & HR1 & Hx1 & Hroom1 & Hnin).
  assert (Hmid : forall k1 c k2, ks = k1 ++ c :: k2 ->
     (exists s',
         InsertPrev l (Some c) (Some x) (mkState h ls) = Some (Some x, s') /\
         Repr s' l (k1 ++ x :: c :: k2)) /\
     (exists s',
         InsertNext l (Some c) (Some x) (mkState h ls) = Some (Some x, s') /\
         Repr s' l (k1 ++ c :: x :: k2))).
  { intros k1 c k2 ->. split.
    - destruct (InsertPrev_linked h h1 ls l k1 c k2 x detached HD HR1 Hx1
                  Hnin Hroom1) as (s' & E & ? & _). by exists s'.
    - destruct (InsertNext_linked h h1 ls l k1 c k2 x detached HD HR1 Hx1
                  Hnin Hroom1) as (s' & E & ? & _). by exists s'. }
  assert (Hemp : ks = [] -> forall cur,
     exists s',
       InsertPrev l cur (Some x) (mkState h ls) = Some (Some x, s') /\
       InsertNext l cur (Some x) (mkState h ls) = Some (Some x, s') /\
       Repr s' l [x]).
  { intros -> cur.
    destruct (Insert_empty h h1 ls l cur x HD HR1 Hx1 Hroom1)
      as (s' & E1 & E2 & ? & _). by exists s'. }
  pose proof HR as (L & HL & Hh & Hl & _).
  split_and!; [done|done| |].
  - rewrite (InsertHead_unfold _ _ _ _ HL), Hh.
    destruct ks as [|c k2].
    + destruct (Hemp eq_refl (head [])) as (s' & E & _ & ?). by exists s'.
    + destruct (Hmid [] c k2 eq_refl) as [(s' & E & ?) _]. by exists s'.
  - rewrite (InsertLast_unfold _ _ _ _ HL), Hl.
    destruct ks as [|c k1 _] using rev_ind.
    + destruct (Hemp eq_refl (last [])) as (s' & _ & E & ?). by exists s'.
    + rewrite last_snoc.
      destruct (Hmid k1 c [] eq_refl) as [_ (s' & E & ?)].
      exists s'. split; [done|]. by rewrite <- app_assoc.
Qed.

(** Whatever the arguments and the store, an insertion that returns,
    returns [newNode]. *)
Lemma bind_inv {A B} (m : M A) (f : A -> M B) s (b : B) s' :
  bind m f s = Some (b, s') ->
  exists a s1, m s = Some (a, s1) /\ f a s1 = Some (b, s').
Proof. unfold bind. destruct (m s) as [[a s1]|]; [eauto|done]. Qed.

Lemma Insert_ret s (l : nat) (curNode newNode r : ptr) s' :
  InsertPrev l curNode newNode s = Some (r, s') \/
  InsertNext l curNode newNode s = Some (r, s') \/
  InsertHead l newNode s = Some (r, s') \/
  InsertLast l newNode s = Some (r, s') ->
  r = newNode.
Proof.
  assert (Hp : forall cur s0, InsertPrev l cur newNode s0 = Some (r, s') ->
                              r = newNode).
  { intros cur s0 H. unfold InsertPrev in H.
    repeat (apply bind_inv in H as (? & ? & _ & H)).
    unfold ret in H. congruence. }
  assert (Hn : forall cur s0, InsertNext l cur newNode s0 = Some (r, s') ->
                              r = newNode).
  { intros cur s0 H. unfold InsertNext in H.
    repeat (apply bind_inv in H as (? & ? & _ & H)).
    unfold ret in H. congruence. }
  intros [H|[H|[H|H]]].
  - by apply (Hp curNode s).
  - by apply (Hn curNode s).
  - unfold InsertHead in H. apply bind_inv in H as (h & s0 & _ & H).
    by apply (Hp h s0).
  - unfold InsertLast in H. apply bind_inv in H as (h & s0 & _ & H).
    by apply (Hn h s0).
Qed.
End Loose.

Section Splice.
Implicit Types (s : state) (xs ys ks : list nat).

Lemma bind_run {A B} (m : M A) (f : A -> M B) s a s1 :
  m s = Some (a, s1) -> bind m f s = f a s1.
Proof. unfold bind. by intros ->. Qed.

(** Taking [x] out of [other] and then running an insertion [ins] into a
    different list [l]. *)
Lemma from_spec s (l other : nat) l1 x l2 ks ks' (ins : M ptr) :
  Repr s other (l1 ++ x :: l2) -> Repr s l ks -> other <> l ->
  (l1 ++ x :: l2) ## ks -> room s l 1 ->
  (forall s1,
      Repr s1 l ks -> nodes s1 !! x = Some detached -> x ∉ ks ->
      room s1 l 1 ->
      exists s', ins s1 = Some (Some x, s') /\ Repr s' l ks' /\
                 frame (x :: ks) [l] s1 s') ->
  exists s',
    (Remove other (Some x) ;; ins) s = Some (Some x, s') /\
    Repr s' other (l1 ++ l2) /\ Repr s' l ks' /\
    frame ((l1 ++ x :: l2) ++ x :: ks) [other; l] s s'.
Proof.
  intros HO HL Hne Hdisj Hroom Hins.
  pose proof HO as (_ & _ & _ & _ & _ & _ & Hd).
  destruct (Remove_spec s other l1 x l2 HO) as (s1 & E1 & HO1 & Hx1 & F1).
  assert (Hxk : x ∉ ks).
  { intros Hin. apply (Hdisj x); [|done]. apply elem_of_app. right. left. }
  assert (HL1 : Repr s1 l ks).
  { eapply Repr_frame; [exact F1| | |exact HL].
    - by intros [->|[]%elem_of_nil]%elem_of_cons.
    - intros y Hy Hy'. by apply (Hdisj y). }
  assert (Hroom1 : room s1 l 1).
  { eapply room_frame; [exact F1| |done].
    by intros [->|[]%elem_of_nil]%elem_of_cons. }
  destruct (Hins s1 HL1 Hx1 Hxk Hroom1) as (s2 & E2 & HL2 & F2).
  exists s2. split; [by rewrite (bind_run _ _ _ _ _ E1)|].
  split; [|split; [done|]].
  - eapply Repr_frame; [exact F2| | |exact HO1].
    + by intros [->|[]%elem_of_nil]%elem_of_cons.
    + intros y Hy [->|Hy']%elem_of_cons.
      * apply NoDup_app in Hd as (_ & Hd1 & [Hd2 _]%NoDup_cons).
        apply elem_of_app in Hy as [Hy|Hy]; [|done].
        apply (Hd1 x Hy). left.
      * apply (Hdisj y); [|done].
        apply elem_of_app in Hy as [Hy|Hy]; apply elem_of_app;
          [by left|right; by right].
  - by apply (frame_trans _ _ [other] [l] s s1 s2).
Qed.

Lemma InsertNext_from_spec s (l other : nat) l1 x l2 k1 c k2 :
  Repr s other (l1 ++ x :: l2) -> Repr s l (k1 ++ c :: k2) -> other <> l ->
  (l1 ++ x :: l2) ## (k1 ++ c :: k2) -> room s l 1 ->
  exists s',
    InsertNext_from l (Some c) (Some x) other s = Some (Some x, s') /\
    Repr s' other (l1 ++ l2) /\ Repr s' l (k1 ++ c :: x :: k2) /\
    frame ((l1 ++ x :: l2) ++ x :: k1 ++ c :: k2) [other; l] s s'.
Proof.
  intros HO HL Hne Hdisj Hroom.
  apply (from_spec s l other l1 x l2 _ _ _ HO HL Hne Hdisj Hroom).
  intros s1. apply InsertNext_spec.
Qed.

Lemma InsertPrev_from_spec s (l other : nat) l1 x l2 k1 c k2 :
  Repr s other (l1 ++ x :: l2) -> Repr s l (k1 ++ c :: k2) -> other <> l ->
  (l1 ++ x :: l2) ## (k1 ++ c :: k2) -> room s l 1 ->
  exists s',
    InsertPrev_from l (Some c) (Some x) other s = Some (Some x, s') /\
    Repr s' other (l1 ++ l2) /\ Repr s' l (k1 ++ x :: c :: k2) /\
    frame ((l1 ++ x :: l2) ++ x :: k1 ++ c :: k2) [other; l] s s'.
Proof.
  intros HO HL Hne Hdisj Hroom.
  apply (from_spec s l other l1 x l2 _ _ _ HO HL Hne Hdisj Hroom).
  intros s1. apply InsertPrev_spec.
Qed.

Lemma InsertLast_from_spec s (l other : nat) l1 x l2 ks :
  Repr s other (l1 ++ x :: l2) -> Repr s l ks -> other <> l ->
  (l1 ++ x :: l2) ## ks -> room s l 1 ->
  exists s',
    InsertLast_from l (Some x) other s = Some (Some x, s') /\
    Repr s' other (l1 ++ l2) /\ Repr s' l (ks ++ [x]) /\
    frame ((l1 ++ x :: l2) ++ x :: ks) [other; l] s s'.
Proof.
  intros HO HL Hne Hdisj Hroom.
  apply (from_spec s l other l1 x l2 _ _ _ HO HL Hne Hdisj Hroom).
  intros s1. apply InsertLast_spec.
Qed.

Lemma InsertHead_from_spec s (l other : nat) l1 x l2 ks :
  Repr s other (l1 ++ x :: l2) -> Repr s l ks -> other <> l ->
  (l1 ++ x :: l2) ## ks -> room s l 1 ->
  exists s',
    InsertHead_from l (Some x) other s = Some (Some x, s') /\
    Repr s' other (l1 ++ l2) /\ Repr s' l (x :: ks) /\
    frame ((l1 ++ x :: l2) ++ x :: ks) [other; l] s s'.
Proof.
  intros HO HL Hne Hdisj Hroom.
  apply (from_spec s l other l1 x l2 _ _ _ HO HL Hne Hdisj Hroom).
  intros s1. apply InsertHead_spec.
Qed.

End Splice.

(** Inclusion between lists built from [++] and [::]. *)
Ltac sub_list :=
  let y := fresh "y" in
  intros y;
  repeat (rewrite elem_of_app || rewrite elem_of_cons || rewrite elem_of_nil);
  tauto.

Section Loops.
Implicit Types (s : state) (xs ys ks : list nat).

Lemma room_of_fits s (l : nat) ys k :
  Repr s l ys -> fits s l (length ys + k) -> room s l k.
Proof.
  intros (L & HL & _ & _ & Hn & _) Hfit L' HL' Hen.
  rewrite HL in HL'. injection HL' as <-.
  destruct (Hn Hen) as [-> _]. specialize (Hfit L HL Hen). lia.
Qed.

Lemma fits_frame X Ls s s' (l : nat) n :
  frame X Ls s s' -> fits s l n -> fits s' l n.
Proof.
  intros (_ & _ & _ & D & E) Hfit L' HL' Hen.
  destruct (proj1 (D l) (ex_intro _ L' HL')) as [L HL].
  apply (Hfit L HL). by rewrite <- (E l L L').
Qed.

Lemma fits_le s (l : nat) n n' :
  (n' <= n)%nat -> fits s l n -> fits s l n'.
Proof. intros Hle Hfit L HL Hen. specialize (Hfit L HL Hen). lia. Qed.

Lemma drain_loop_step fuel (dst src : nat) x n s s1 r :
  nodes s !! x = Some n ->
  InsertLast_from dst (Some x) src s = Some (r, s1) ->
  drain_loop (S fuel) dst src (Some x) s =
  drain_loop fuel dst src (next n) s1.
Proof.
  intros Hx E.
  change (drain_loop (S fuel) dst src (Some x) s)
    with ((n <- get_next (Some x) ;; InsertLast_from dst (Some x) src ;;
           drain_loop fuel dst src n) s).
  unfold bind at 1. unfold get_next, load, bind at 1, ret. rewrite Hx.
  unfold bind. by rewrite E.
Qed.

(** The loop of [operator+=] and [operator+] moves every element of the
    source to the tail of the destination, in order. *)
Lemma drain_loop_spec xs : forall ys s fuel (dst src : nat),
  Repr s src xs -> Repr s dst ys -> src <> dst -> xs ## ys ->
  fits s dst (length ys + length xs) -> (length xs <= fuel)%nat ->
  exists s',
    drain_loop fuel dst src (head xs) s = Some (tt, s') /\
    Repr s' src [] /\ Repr s' dst (ys ++ xs) /\
    frame (xs ++ ys) [src; dst] s s'.
Proof.
  induction xs as [|x xs IH]; intros ys s fuel dst src HS HD Hne Hdisj Hfit Hfuel.
  - exists s. rewrite app_nil_r. destruct fuel; simpl; split_and!; try done;
      apply frame_refl.
  - destruct fuel as [|fuel]; [simpl in Hfuel; lia|].
    simpl in Hfuel.
    pose proof HS as (L & HL & _ & _ & _ & Hc & Hd). simpl in Hc.
    destruct Hc as [Hx _].
    assert (Hroom : room s dst 1).
    { eapply room_of_fits; [done|]. eapply fits_le; [|done]. simpl. lia. }
    destruct (InsertLast_from_spec s dst src [] x xs ys HS HD Hne Hdisj Hroom)
      as (s1 & E1 & HS1 & HD1 & F1).
    simpl in HS1.
    destruct (IH (ys ++ [x]) s1 fuel dst src HS1 HD1 Hne) as (s2 & E2 & HS2 & HD2 & F2).
    + intros y Hy [Hy'|Hy']%elem_of_app.
      * apply (Hdisj y); [by right|done].
      * apply list_elem_of_singleton in Hy' as ->.
        by apply NoDup_cons in Hd as [? _].
    + eapply fits_frame; [exact F1|]. eapply fits_le; [|exact Hfit].
      rewrite length_app. simpl. lia.
    + lia.
    + exists s2. split_and!; [|done| |].
      * rewrite (drain_loop_step _ _ _ _ _ _ _ _ Hx E1). cbn [next].
        by rewrite <- head_hd_ptr.
      * by rewrite <- app_assoc in HD2.
      * eapply frame_mono; [| |exact (frame_trans _ _ _ _ _ _ _ F1 F2)].
        -- sub_list.
        -- sub_list.
Qed.
End Loops.

Section Whole.
Implicit Types (s : state) (xs ys ks : list nat).

Lemma convert_loop_step fuel (this other : nat) x s s1 r n :
  InsertLast_from this (Some x) other s = Some (r, s1) ->
  nodes s1 !! x = Some n ->
  convert_loop (S fuel) this other (Some x) s =
  convert_loop fuel this other (next n) s1.
Proof.
  intros E Hx.
  change (convert_loop (S fuel) this other (Some x) s)
    with ((InsertLast_from this (Some x) other ;;
           n <- get_next (Some x) ;; convert_loop fuel this other n) s).
  unfold bind at 1. rewrite E.
  unfold bind at 1. unfold get_next, load, bind at 1, ret. by rewrite Hx.
Qed.

(** The loop of the converting constructor stops after its first
    round: the element it has just moved is the last of the new list, so
    the cursor advances to null. *)
Lemma convert_loop_spec s (this other : nat) x xs ys fuel :
  Repr s other (x :: xs) -> Repr s this ys -> other <> this ->
  (x :: xs) ## ys -> room s this 1 ->
  exists s',
    convert_loop (S fuel) this other (Some x) s = Some (tt, s') /\
    Repr s' other xs /\ Repr s' this (ys ++ [x]) /\
    frame ((x :: xs) ++ x :: ys) [other; this] s s'.
Proof.
  intros HO HT Hne Hdisj Hroom.
  destruct (InsertLast_from_spec s this other [] x xs ys HO HT Hne Hdisj Hroom)
    as (s1 & E1 & HO1 & HT1 & F1).
  exists s1.
  pose proof HT1 as (_ & _ & _ & _ & _ & Hc & _).
  apply chain_snoc in Hc as [_ Hx].
  rewrite (convert_loop_step _ _ _ _ _ _ _ _ E1 Hx). cbn [next].
  by destruct fuel.
Qed.

Lemma Clear_spec s (l : nat) L :
  lists s !! l = Some L ->
  exists s',
    Clear l s = Some (tt, s') /\
    nodes s' = nodes s /\
    lists s' !! l =
      Some (mkList (HasLength L) None None
              (if HasLength L then 0 else l_length L)) /\
    Repr s' l [] /\
    frame [] [l] s s'.
Proof.
  destruct s as [h ls]. cbn. intros HL. destruct L as [[] hd la len].
  all: eexists; split; [exec_list; reflexivity|].
  all: cbn [nodes lists]; split; [done|split; [by lookups|split]].
  all: try (eapply frame_intro; [exact HL|done|done| |];
    [intros; by rewrite ?lookup_insert_ne by done
    |eexists; split; [by lookups|done]]).
  all: unfold Repr; cbn [nodes lists chain]; eexists; (split; [by lookups|]);
    cbn [l_head l_last]; split_and!; try done; try apply NoDup_nil_2.
  all: solve_counts.
Qed.

(** Writing a list object leaves the other lists as they are. *)
Lemma Repr_put_other h ls (t l : nat) L xs :
  l <> t -> Repr (mkState h ls) l xs ->
  Repr (mkState h (<[t := L]> ls)) l xs.
Proof.
  intros Hne (L0 & HL & HR). exists L0. cbn in *.
  by rewrite lookup_insert_ne.
Qed.

Lemma new_list_spec s (t : nat) enable :
  exists s',
    new_list t enable s = Some (tt, s') /\
    nodes s' = nodes s /\
    lists s' = <[t := mkList enable None None 0]> (lists s) /\
    Repr s' t [].
Proof.
  destruct s as [h ls]. eexists. split; [reflexivity|]. cbn.
  split_and!; try done.
  exists (mkList enable None None 0). cbn. rewrite lookup_insert_eq.
  split_and!; try done; apply NoDup_nil_2.
Qed.
End Whole.

Section Moves.
Implicit Types (s : state) (xs ys ks : list nat).

Lemma move_ctor_spec s (this other : nat) xs :
  Repr s other xs -> this <> other ->
  exists s',
    move_ctor this other s = Some (tt, s') /\
    nodes s' = nodes s /\
    Repr s' this xs /\ Repr s' other [] /\
    (forall l, l <> this -> l <> other -> lists s' !! l = lists s !! l).
Proof.
  destruct s as [h ls]. intros (L & HL & Hh & Hl & Hn & Hc & Hd) Hne.
  cbn in HL, Hc. destruct L as [[] hd la len]; cbn in Hh, Hl; subst hd la.
  all: eexists; split; [exec_list; reflexivity|].
  all: cbn [nodes lists]; split; [done|].
  all: split_and!;
    try (intros; by rewrite ?lookup_insert_ne by done).
  all: unfold Repr; cbn [nodes lists chain]; eexists; (split; [by lookups|]);
    cbn [l_head l_last]; split_and!; try done; try apply NoDup_nil_2.
  all: solve_counts.
Qed.

Lemma move_assign_spec s (this other : nat) xs T O :
  Repr s other xs -> lists s !! this = Some T -> lists s !! other = Some O ->
  HasLength T = HasLength O -> this <> other ->
  exists s',
    move_assign this other s = Some (tt, s') /\
    nodes s' = nodes s /\
    Repr s' this xs /\ Repr s' other [] /\
    (forall l, l <> this -> l <> other -> lists s' !! l = lists s !! l).
Proof.
  destruct s as [h ls]. intros (L & HL & Hh & Hl & Hn & Hc & Hd) HT HO Hen Hne.
  cbn in HL, Hc, HT, HO. rewrite HL in HO. injection HO as <-.
  destruct T as [ten thd tla tlen]. cbn in Hen. subst ten.
  destruct L as [[] hd la len]; cbn in Hh, Hl; subst hd la.
  all: unfold move_assign; rewrite bool_decide_eq_false_2 by done.
  all: eexists; split; [exec_list; reflexivity|].
  all: cbn [nodes lists]; split; [done|].
  all: split_and!;
    try (intros; by rewrite ?lookup_insert_ne by done).
  all: unfold Repr; cbn [nodes lists chain]; eexists; (split; [by lookups|]);
    cbn [l_head l_last]; split_and!; try done; try apply NoDup_nil_2.
  all: solve_counts.
Qed.

Lemma move_assign_self s (this : nat) :
  move_assign this this s = Some (tt, s).
Proof. unfold move_assign. by rewrite bool_decide_eq_true_2. Qed.

Lemma append_spec s (this rhs : nat) xs ys fuel :
  Repr s rhs xs -> Repr s this ys -> rhs <> this -> xs ## ys ->
  fits s this (length ys + length xs) -> (length xs <= fuel)%nat ->
  exists s',
    append fuel this rhs s = Some (tt, s') /\
    Repr s' rhs [] /\ Repr s' this (ys ++ xs) /\
    frame (xs ++ ys) [rhs; this] s s'.
Proof.
  intros HR HT Hne Hdisj Hfit Hfuel.
  destruct (drain_loop_spec xs ys s fuel this rhs HR HT Hne Hdisj Hfit Hfuel)
    as (s' & E & ? & ? & ?).
  exists s'. split_and!; try done.
  destruct HR as (L & HL & Hh & _).
  unfold append, get_head, get_list, bind, ret. by rewrite HL, Hh.
Qed.
End Moves.

Section Build.
Implicit Types (s : state) (xs ys zs : list nat).

Lemma get_list_run s (l : nat) L :
  lists s !! l = Some L -> get_list l s = Some (L, s).
Proof. unfold get_list. by intros ->. Qed.

Lemma get_head_Repr s (l : nat) xs :
  Repr s l xs -> get_head l s = Some (head xs, s).
Proof.
  intros (L & HL & Hh & _). unfold get_head, get_list, bind, ret.
  by rewrite HL, Hh.
Qed.

Lemma Repr_flag_frame X Ls s s' (l : nat) xs xs' L :
  frame X Ls s s' -> lists s !! l = Some L -> Repr s' l xs' ->
  exists L', lists s' !! l = Some L' /\ HasLength L' = HasLength L.
Proof.
  intros (_ & _ & _ & _ & E) HL (L' & HL' & _). exists L'. split; [done|].
  by apply (E l).
Qed.

Lemma concat_spec s (tmp lhs rhs : nat) xs ys L R fuel :
  Repr s lhs xs -> Repr s rhs ys ->
  lists s !! lhs = Some L -> lists s !! rhs = Some R ->
  lhs <> rhs -> tmp <> lhs -> tmp <> rhs -> xs ## ys ->
  (HasLength L || HasLength R = true ->
   Z.of_nat (length xs + length ys) < size_max) ->
  (length xs <= fuel)%nat -> (length ys <= fuel)%nat ->
  exists s',
    concat fuel tmp lhs rhs s = Some (tt, s') /\
    Repr s' tmp (xs ++ ys) /\ Repr s' lhs [] /\ Repr s' rhs [] /\
    (exists T, lists s' !! tmp = Some T /\
               HasLength T = HasLength L || HasLength R) /\
    (forall l zs, l <> tmp -> l <> lhs -> l <> rhs -> zs ## (xs ++ ys) ->
                  Repr s l zs -> Repr s' l zs) /\
    (forall l, l <> tmp -> l <> lhs -> l <> rhs ->
               lists s' !! l = lists s !! l).
Proof.
  intros HX HY HL HR Hne Ht1 Ht2 Hdisj Hsize Hf1 Hf2.
  destruct (new_list_spec s tmp (HasLength L || HasLength R))
    as (s0 & E0 & N0 & L0 & HT0).
  assert (Hput : forall l zs, l <> tmp -> Repr s l zs -> Repr s0 l zs).
  { intros l zs Hl Hz. destruct s as [h ls], s0 as [h0 ls0]. cbn in N0, L0.
    subst h0 ls0. by apply Repr_put_other. }
  assert (HX0 : Repr s0 lhs xs) by (apply Hput; done).
  assert (HY0 : Repr s0 rhs ys) by (apply Hput; done).
  assert (Hfit0 : fits s0 tmp (length xs + length ys)).
  { intros T HT Hen. rewrite L0, lookup_insert_eq in HT.
    injection HT as <-. by apply Hsize. }
  destruct (drain_loop_spec xs [] s0 fuel tmp lhs HX0 HT0) as
    (s1 & E1 & HX1 & HT1 & F1); try done.
  { intros y _ []%elem_of_nil. }
  { eapply fits_le; [|exact Hfit0]. simpl. lia. }
  simpl in HT1.
  assert (HY1 : Repr s1 rhs ys).
  { eapply Repr_frame; [exact F1| | |exact HY0].
    - intros [->|[->|[]%elem_of_nil]%elem_of_cons]%elem_of_cons; done.
    - intros y Hy Hy'. rewrite app_nil_r in Hy'. by apply (Hdisj y). }
  destruct (drain_loop_spec ys xs s1 fuel tmp rhs HY1 HT1) as
    (s2 & E2 & HY2 & HT2 & F2); try done.
  { intros y Hy Hy'. by apply (Hdisj y). }
  { eapply fits_frame; [exact F1|done]. }
  exists s2. split_and!; try done.
  - unfold concat.
    rewrite (bind_run _ _ _ _ _ (get_list_run _ _ _ HL)).
    rewrite (bind_run _ _ _ _ _ (get_list_run _ _ _ HR)).
    rewrite (bind_run _ _ _ _ _ E0).
    rewrite (bind_run _ _ _ _ _ (get_head_Repr _ _ _ HX0)).
    rewrite (bind_run _ _ _ _ _ E1).
    by rewrite (bind_run _ _ _ _ _ (get_head_Repr _ _ _ HY1)).
  - eapply Repr_frame; [exact F2| | |exact HX1].
    + intros [->|[->|[]%elem_of_nil]%elem_of_cons]%elem_of_cons; done.
    + intros y []%elem_of_nil.
  - assert (HT00 : lists s0 !! tmp = Some (mkList (HasLength L || HasLength R) None None 0))
      by (by rewrite L0, lookup_insert_eq).
    destruct (Repr_flag_frame _ _ _ _ _ [] _ _ F1 HT00 HT1) as (T1 & HT1' & En1).
    destruct (Repr_flag_frame _ _ _ _ _ xs _ _ F2 HT1' HT2) as (T2 & HT2' & En2).
    exists T2. split; [done|]. by rewrite En2, En1.
  - intros l zs Hl1 Hl2 Hl3 Hz HZ.
    eapply Repr_frame; [exact F2| | |].
    + intros [->|[->|[]%elem_of_nil]%elem_of_cons]%elem_of_cons; done.
    + intros y Hy Hy'. apply (Hz y Hy). rewrite elem_of_app.
      rewrite elem_of_app in Hy'. tauto.
    + eapply Repr_frame; [exact F1| | |by apply Hput].
      * intros [->|[->|[]%elem_of_nil]%elem_of_cons]%elem_of_cons; done.
      * intros y Hy Hy'. apply (Hz y Hy). rewrite elem_of_app.
        rewrite app_nil_r in Hy'. tauto.
  - intros l Hl1 Hl2 Hl3.
    destruct F1 as (_ & F1 & _), F2 as (_ & F2 & _).
    rewrite F2, F1, L0, lookup_insert_ne; [done|done| |].
    + intros [->|[->|[]%elem_of_nil]%elem_of_cons]%elem_of_cons; done.
    + intros [->|[->|[]%elem_of_nil]%elem_of_cons]%elem_of_cons; done.
Qed.

(** The converting move constructor moves the first element only. *)
Lemma convert_ctor_spec s (this other : nat) enable xs fuel :
  Repr s other xs -> this <> other -> (1 <= fuel)%nat ->
  exists s',
    convert_ctor fuel this enable other s = Some (tt, s') /\
    Repr s' this (take 1 xs) /\ Repr s' other (drop 1 xs) /\
    (forall l zs, l <> this -> l <> other -> zs ## xs ->
                  Repr s l zs -> Repr s' l zs) /\
    (forall l, l <> this -> l <> other -> lists s' !! l = lists s !! l).
Proof.
  intros HO Hne Hfuel.
  destruct (new_list_spec s this enable) as (s0 & E0 & N0 & L0 & HT0).
  assert (Hput : forall l zs, l <> this -> Repr s l zs -> Repr s0 l zs).
  { intros l zs Hl Hz. destruct s as [h ls], s0 as [h0 ls0]. cbn in N0, L0.
    subst h0 ls0. by apply Repr_put_other. }
  assert (HO0 : Repr s0 other xs) by (apply Hput; done).
  destruct xs as [|x xs].
  - exists s0. split_and!; try done.
    + unfold convert_ctor. rewrite (bind_run _ _ _ _ _ E0).
      rewrite (bind_run _ _ _ _ _ (get_head_Repr _ _ _ HO0)).
      by destruct fuel.
    + intros l zs ? ? ? ?. by apply Hput.
    + intros l ? ?. by rewrite L0, lookup_insert_ne.
  - destruct fuel as [|fuel]; [lia|].
    destruct (convert_loop_spec s0 this other x xs [] fuel HO0 HT0)
      as (s1 & E1 & HO1 & HT1 & F1); try done.
    { intros y _ []%elem_of_nil. }
    { intros T HT Hen. rewrite L0, lookup_insert_eq in HT.
      injection HT as <-. cbn. unfold size_max. lia. }
    exists s1. split_and!; try done.
    + unfold convert_ctor. rewrite (bind_run _ _ _ _ _ E0).
      by rewrite (bind_run _ _ _ _ _ (get_head_Repr _ _ _ HO0)).
    + intros l zs Hl1 Hl2 Hz HZ.
      eapply Repr_frame; [exact F1| | |by apply Hput].
      * intros [->|[->|[]%elem_of_nil]%elem_of_cons]%elem_of_cons; done.
      * intros y Hy Hy'. apply (Hz y Hy).
        repeat (rewrite elem_of_app in Hy' || rewrite elem_of_cons in Hy'
                || rewrite elem_of_nil in Hy').
        rewrite elem_of_cons. tauto.
    + intros l Hl1 Hl2. destruct F1 as (_ & F1 & _).
      rewrite F1, L0, lookup_insert_ne; [done|done|].
      intros [->|[->|[]%elem_of_nil]%elem_of_cons]%elem_of_cons; done.
Qed.
End Build.

Section Observers.
Implicit Types (s : state) (xs ys zs : list nat).

Lemma GetHead_Repr s (l : nat) xs :
  Repr s l xs -> GetHead l s = Some (head xs, s).
Proof. apply get_head_Repr. Qed.

Lemma GetLast_Repr s (l : nat) xs :
  Repr s l xs -> GetLast l s = Some (last xs, s).
Proof.
  intros (L & HL & _ & Hl & _). unfold GetLast, get_last, get_list, bind, ret.
  by rewrite HL, Hl.
Qed.

Lemma IsEmpty_Repr s (l : nat) xs :
  Repr s l xs -> IsEmpty l s = Some (bool_decide (xs = []), s).
Proof.
  intros HR. unfold IsEmpty.
  rewrite (bind_run _ _ _ _ _ (get_head_Repr _ _ _ HR)).
  rewrite (bind_run _ _ _ _ _ (GetLast_Repr _ _ _ HR)).
  destruct xs as [|x xs]; [done|].
  by rewrite last_cons_default.
Qed.

Lemma GetLength_inv s (l : nat) n s0 :
  GetLength l s = Some (n, s0) ->
  s0 = s /\ exists L, lists s !! l = Some L /\ HasLength L = true /\
                      l_length L = n.
Proof.
  unfold GetLength, get_list, bind, ret, fail.
  destruct (lists s !! l) as [L|]; [|done].
  destruct (HasLength L) eqn:E; [|done].
  intros [= <- <-]. eauto.
Qed.

Lemma GetLength_Repr s (l : nat) xs L :
  Repr s l xs -> lists s !! l = Some L -> HasLength L = true ->
  GetLength l s = Some (Z.of_nat (length xs), s).
Proof.
  intros (L' & HL' & _ & _ & Hn & _) HL Hen. rewrite HL in HL'.
  injection HL' as <-. destruct (Hn Hen) as [Hlen _].
  unfold GetLength, get_list, bind, ret. by rewrite HL, Hen, Hlen.
Qed.

(** The counter read before and after an operation that changed the
    sequence held from [xs] to [xs']. *)
Lemma GetLength_change X Ls s s' (l : nat) xs xs' n :
  frame X Ls s s' -> Repr s l xs -> Repr s' l xs' ->
  GetLength l s = Some (n, s) ->
  GetLength l s' = Some (n + (Z.of_nat (length xs') - Z.of_nat (length xs)), s').
Proof.
  intros F HR HR' HG.
  apply GetLength_inv in HG as (_ & L & HL & Hen & Hlen).
  destruct (Repr_flag_frame _ _ _ _ _ xs _ _ F HL HR') as (L' & HL' & Hen').
  rewrite (GetLength_Repr _ _ _ _ HR' HL') by congruence.
  destruct HR as (L0 & HL0 & _ & _ & Hn & _). rewrite HL in HL0.
  injection HL0 as <-. destruct (Hn Hen) as [Hl _].
  repeat f_equal. lia.
Qed.

Lemma NoDup_mid_notin (l1 : list nat) x l2 :
  NoDup (l1 ++ x :: l2) -> x ∉ l1 ++ l2.
Proof.
  intros (_ & Hd & [? _]%NoDup_cons)%NoDup_app [Hin|Hin]%elem_of_app;
    [|done].
  apply (Hd x Hin). left.
Qed.
End Observers.

(** * The claims *)

(** A decidable fact about concrete data, by evaluation. *)
Ltac by_decide :=
  match goal with |- ?P => exact (bool_decide_unpack P I) end.

(** Two concrete lists have no element in common. *)
Ltac concrete_disjoint :=
  let y := fresh "y" in
  let Hy := fresh "Hy" in
  let Hy' := fresh "Hy'" in
  intros y Hy Hy'; simpl in Hy, Hy';
  repeat (apply elem_of_cons in Hy as [->|Hy];
          [apply list_elem_of_In in Hy'; simpl in Hy'; intuition discriminate|]);
  by apply elem_of_nil in Hy.

(** Establishing [Repr] on a concrete store by evaluation. *)
Ltac concrete_Repr :=
  eexists; split_and!;
  [ vm_compute; reflexivity
  | reflexivity
  | reflexivity
  | intros _; split; vm_compute; reflexivity
  | simpl; split_and!; first [ exact I | vm_compute; reflexivity ]
  | by_decide ].

(** ** C4: [Remove] *)

(** C4.  For a list holding [l1 ++ x :: l2], [Remove(x)] returns; the
    traversal afterwards is [l1 ++ l2] from [begin()] and its reverse from
    [rbegin()], neither of which contains [x], and [x] is left with both
    links null; [GetLength()] has gone down by exactly one; if [x] was the
    head the new head is the former [x->next], if [x] was the last the new
    last is the former [x->prev]; and when [x] was the only element the
    list is empty, with head and last both null. *)
Theorem Remove_correct (s : state) (l : nat) (l1 : list nat) (x : nat)
    (l2 : list nat) :
  Repr s l (l1 ++ x :: l2) ->
  exists s',
    Remove l (Some x) s = Some (tt, s') /\
    (forall fuel, (length (l1 ++ l2) <= fuel)%nat ->
                  forward fuel s' l = Some (l1 ++ l2)) /\
    (forall fuel, (length (l1 ++ l2) <= fuel)%nat ->
                  backward fuel s' l = Some (reverse (l1 ++ l2))) /\
    (x ∉ l1 ++ l2) /\ (x ∉ reverse (l1 ++ l2)) /\
    nodes s' !! x = Some detached /\
    (forall n, GetLength l s = Some (n, s) ->
               GetLength l s' = Some (n - 1, s')) /\
    (GetHead l s = Some (Some x, s) ->
     exists nx, get_next (Some x) s = Some (nx, s) /\
                GetHead l s' = Some (nx, s')) /\
    (GetLast l s = Some (Some x, s) ->
     exists pv, get_prev (Some x) s = Some (pv, s) /\
                GetLast l s' = Some (pv, s')) /\
    (l1 = [] -> l2 = [] ->
     GetHead l s' = Some (None, s') /\ GetLast l s' = Some (None, s') /\
     IsEmpty l s' = Some (true, s')).
Proof.
  intros HR.
  destruct (Remove_spec s l l1 x l2 HR) as (s' & E & HR' & Hx' & F).
  pose proof HR as (L & HL & Hh & Hl & Hn & Hc & Hd).
  pose proof (chain_mid _ _ _ _ _ _ Hc) as Hx.
  exists s'. split_and!.
  - done.
  - intros fuel Hf. by apply Repr_forward.
  - intros fuel Hf. by apply Repr_backward.
  - by apply NoDup_mid_notin.
  - rewrite elem_of_reverse. by apply NoDup_mid_notin.
  - done.
  - intros n HG.
    rewrite (GetLength_change _ _ _ _ _ _ _ _ F HR HR' HG).
    repeat f_equal. rewrite !length_app. simpl. lia.
  - rewrite (GetHead_Repr _ _ _ HR), head_app_cons. intros [= Hhx].
    exists (hd_ptr l2 None). split.
    + unfold get_next, load, bind, ret. by rewrite Hx.
    + rewrite (GetHead_Repr _ _ _ HR'). destruct l1 as [|a l1].
      * simpl. by rewrite head_hd_ptr.
      * simpl in Hhx. subst a. apply NoDup_cons in Hd as [Hd _].
        destruct Hd. apply elem_of_app. right. left.
  - rewrite (GetLast_Repr _ _ _ HR), last_app_cons. intros [= Hlx].
    exists (last_ptr None l1). split.
    + unfold get_prev, load, bind, ret. by rewrite Hx.
    + rewrite (GetLast_Repr _ _ _ HR').
      destruct l2 as [|b l2 _] using rev_ind.
      * by rewrite app_nil_r, last_last_ptr.
      * rewrite last_snoc in Hlx. simpl in Hlx. subst b.
        apply NoDup_app in Hd as (_ & _ & [Hd _]%NoDup_cons).
        destruct Hd. apply elem_of_app. right. left.
  - intros -> ->. simpl in HR'.
    rewrite (GetHead_Repr _ _ _ HR'), (GetLast_Repr _ _ _ HR'),
      (IsEmpty_Repr _ _ _ HR'). done.
Qed.

Lemma Remove_correct_witness :
  Repr st_two 100 ([1%nat] ++ 2%nat :: [3%nat]) /\
  exists s',
    Remove 100 (Some 2%nat) st_two = Some (tt, s') /\
    forward 2 s' 100 = Some [1%nat; 3%nat] /\
    backward 2 s' 100 = Some [3%nat; 1%nat] /\
    GetLength 100 s' = Some (2, s').
Proof.
  assert (HR : Repr st_two 100 ([1%nat] ++ 2%nat :: [3%nat])) by concrete_Repr.
  split; [exact HR|].
  destruct (Remove_correct st_two 100 [1%nat] 2%nat [3%nat] HR)
    as (s' & E & Hf & Hb & _ & _ & _ & Hg & _).
  exists s'. split_and!;
    [exact E | by apply Hf | by apply (Hb 2%nat) | by apply (Hg 3)].
Defined.

(** ** C3: splicing one element between two lists *)

(** C3.  With [X] held by [L1] and [pos] held by a different list [L2],
    [L2.InsertNext(pos, X, L1)] returns [X]; afterwards [L1] is traversed
    as before but without [X], from [begin()] and from [rbegin()] alike,
    and its counter is one less; [L2] is traversed with [X] right after
    [pos], in both directions, and its counter is one more. *)
Theorem InsertNext_from_correct (s : state) (L1 L2 : nat)
    (l1 : list nat) (X : nat) (l2 k1 : list nat) (pos : nat) (k2 : list nat) :
  Repr s L1 (l1 ++ X :: l2) -> Repr s L2 (k1 ++ pos :: k2) -> L1 <> L2 ->
  (l1 ++ X :: l2) ## (k1 ++ pos :: k2) -> room s L2 1 ->
  exists s',
    InsertNext_from L2 (Some pos) (Some X) L1 s = Some (Some X, s') /\
    (forall fuel, (length (l1 ++ l2) <= fuel)%nat ->
                  forward fuel s' L1 = Some (l1 ++ l2)) /\
    (forall fuel, (length (l1 ++ l2) <= fuel)%nat ->
                  backward fuel s' L1 = Some (reverse (l1 ++ l2))) /\
    (X ∉ l1 ++ l2) /\ (X ∉ reverse (l1 ++ l2)) /\
    (forall fuel, (length (k1 ++ pos :: X :: k2) <= fuel)%nat ->
                  forward fuel s' L2 = Some (k1 ++ pos :: X :: k2)) /\
    (forall fuel, (length (k1 ++ pos :: X :: k2) <= fuel)%nat ->
                  backward fuel s' L2
                  = Some (reverse (k1 ++ pos :: X :: k2))) /\
    (forall n, GetLength L1 s = Some (n, s) ->
               GetLength L1 s' = Some (n - 1, s')) /\
    (forall n, GetLength L2 s = Some (n, s) ->
               GetLength L2 s' = Some (n + 1, s')).
Proof.
  intros H1 H2 Hne Hdisj Hroom.
  destruct (InsertNext_from_spec s L2 L1 l1 X l2 k1 pos k2 H1 H2 Hne Hdisj Hroom)
    as (s' & E & H1' & H2' & F).
  pose proof H1 as (_ & _ & _ & _ & _ & _ & Hd).
  exists s'. split_and!.
  - done.
  - intros fuel Hf. by apply Repr_forward.
  - intros fuel Hf. by apply Repr_backward.
  - by apply NoDup_mid_notin.
  - rewrite elem_of_reverse. by apply NoDup_mid_notin.
  - intros fuel Hf. by apply Repr_forward.
  - intros fuel Hf. by apply Repr_backward.
  - intros n HG. rewrite (GetLength_change _ _ _ _ _ _ _ _ F H1 H1' HG).
    repeat f_equal. rewrite !length_app. simpl. lia.
  - intros n HG. rewrite (GetLength_change _ _ _ _ _ _ _ _ F H2 H2' HG).
    repeat f_equal. rewrite !length_app. simpl. lia.
Qed.

Lemma InsertNext_from_correct_witness :
  exists s',
    InsertNext_from 101 (Some 4%nat) (Some 2%nat) 100 st_two
      = Some (Some 2%nat, s') /\
    forward 2 s' 100 = Some [1%nat; 3%nat] /\
    backward 2 s' 100 = Some [3%nat; 1%nat] /\
    forward 3 s' 101 = Some [4%nat; 2%nat; 5%nat] /\
    backward 3 s' 101 = Some [5%nat; 2%nat; 4%nat] /\
    GetLength 100 s' = Some (2, s') /\
    GetLength 101 s' = Some (3, s').
Proof.
  destruct (InsertNext_from_correct st_two 100 101 [1%nat] 2%nat [3%nat]
              [] 4%nat [5%nat])
    as (s' & E & Hf1 & Hb1 & _ & _ & Hf2 & Hb2 & Hg1 & Hg2).
  - concrete_Repr.
  - concrete_Repr.
  - discriminate.
  - concrete_disjoint.
  - intros L [= <-] _. vm_compute. reflexivity.
  - exists s'. split_and!;
      [exact E | by apply Hf1 | by apply (Hb1 2%nat) | by apply Hf2
      | by apply (Hb2 3%nat) | by apply (Hg1 3) | by apply (Hg2 2)].
Defined.

(** ** C9: [Clear] *)

(** C9.  Whatever a list object holds, [Clear()] returns with head and last
    null, so [IsEmpty()] is true, with [GetLength()] zero when the list
    tracks its length, and with every element object, links included,
    exactly as it was. *)
Theorem Clear_correct (s : state) (l : nat) (L : IntrusiveList) :
  lists s !! l = Some L ->
  exists s',
    Clear l s = Some (tt, s') /\
    GetHead l s' = Some (None, s') /\
    GetLast l s' = Some (None, s') /\
    IsEmpty l s' = Some (true, s') /\
    (HasLength L = true -> GetLength l s' = Some (0, s')) /\
    nodes s' = nodes s.
Proof.
  intros HL.
  destruct (Clear_spec s l L HL) as (s' & E & Hn & HL' & HR & _).
  exists s'. split_and!; try done.
  - by rewrite (GetHead_Repr _ _ _ HR).
  - by rewrite (GetLast_Repr _ _ _ HR).
  - by rewrite (IsEmpty_Repr _ _ _ HR).
  - intros Hen. rewrite Hen in HL'.
    by rewrite (GetLength_Repr _ _ _ _ HR HL').
Qed.

Lemma Clear_correct_witness :
  exists s',
    Clear 100 st_two = Some (tt, s') /\
    IsEmpty 100 s' = Some (true, s') /\
    GetLength 100 s' = Some (0, s') /\
    nodes s' !! 2%nat = Some (mkNode (Some 1%nat) (Some 3%nat)).
Proof.
  destruct (Clear_correct st_two 100 (mkList true (Some 1%nat) (Some 3%nat) 3))
    as (s' & E & _ & _ & He & Hg & Hn).
  - vm_compute. reflexivity.
  - exists s'. split_and!; [exact E | exact He | by apply Hg |].
    rewrite Hn. vm_compute. reflexivity.
Defined.

(** ** C10: what the insertions return *)

(** C10.  On a list holding [xs], given a [newNode] that the list does
    not hold ([newNode] may be detached, or still linked to neighbours
    [l1], [l2] as an element of another list is), and with [curNode] an
    element of the list (or the list empty), each of [InsertPrev],
    [InsertNext], [InsertHead] and [InsertLast] returns, and the cursor it
    returns is [newNode], which is then an element of the list: the list
    is traversed, from [begin()] and from [rbegin()], with [newNode] at
    the place the call names.  And on any call at all, whatever [curNode]
    is, an insertion that returns, returns [newNode]. *)
Theorem Insert_returns_newNode (s : state) (l : nat) (xs l1 : list nat)
    (newNode : nat) (l2 : list nat) :
  Repr s l xs ->
  chain (nodes s) None (l1 ++ newNode :: l2) None ->
  NoDup (l1 ++ newNode :: l2) -> xs ## (l1 ++ newNode :: l2) ->
  room s l 1 ->
  (forall k1 c k2, xs = k1 ++ c :: k2 ->
     (exists s',
         InsertPrev l (Some c) (Some newNode) s = Some (Some newNode, s') /\
         forward (S (length xs)) s' l = Some (k1 ++ newNode :: c :: k2) /\
         backward (S (length xs)) s' l
           = Some (reverse (k1 ++ newNode :: c :: k2))) /\
     (exists s',
         InsertNext l (Some c) (Some newNode) s = Some (Some newNode, s') /\
         forward (S (length xs)) s' l = Some (k1 ++ c :: newNode :: k2) /\
         backward (S (length xs)) s' l
           = Some (reverse (k1 ++ c :: newNode :: k2)))) /\
  (xs = [] -> forall curNode,
     (exists s',
         InsertPrev l curNode (Some newNode) s = Some (Some newNode, s') /\
         forward 1 s' l = Some [newNode] /\
         backward 1 s' l = Some [newNode]) /\
     (exists s',
         InsertNext l curNode (Some newNode) s = Some (Some newNode, s') /\
         forward 1 s' l = Some [newNode] /\
         backward 1 s' l = Some [newNode])) /\
  (exists s',
      InsertHead l (Some newNode) s = Some (Some newNode, s') /\
      forward (S (length xs)) s' l = Some (newNode :: xs) /\
      backward (S (length xs)) s' l = Some (reverse (newNode :: xs))) /\
  (exists s',
      InsertLast l (Some newNode) s = Some (Some newNode, s') /\
      forward (S (length xs)) s' l = Some (xs ++ [newNode]) /\
      backward (S (length xs)) s' l = Some (reverse (xs ++ [newNode]))) /\
  (forall curNode r s',
     InsertPrev l curNode (Some newNode) s = Some (r, s') \/
     InsertNext l curNode (Some newNode) s = Some (r, s') \/
     InsertHead l (Some newNode) s = Some (r, s') \/
     InsertLast l (Some newNode) s = Some (r, s') ->
     r = Some newNode).
Proof.
  intros HR Hc Hd Hdisj Hroom.
  destruct (Insert_loose s l xs l1 newNode l2 HR Hc Hd Hdisj Hroom)
    as (Hmid & Hemp & (s1 & E1 & R1) & (s2 & E2 & R2)).
  split_and!.
  - intros k1 c k2 Hxs.
    destruct (Hmid k1 c k2 Hxs) as [(sp & Ep & Rp) (sn & En & Rn)].
    subst xs. split.
    + exists sp. split_and!; [done| |].
      * apply Repr_forward; [done|]. rewrite !length_app. simpl. lia.
      * apply Repr_backward; [done|]. rewrite !length_app. simpl. lia.
    + exists sn. split_and!; [done| |].
      * apply Repr_forward; [done|]. rewrite !length_app. simpl. lia.
      * apply Repr_backward; [done|]. rewrite !length_app. simpl. lia.
  - intros Hxs curNode.
    destruct (Hemp Hxs curNode) as (s' & Ep & En & R).
    split; exists s'; (split_and!; [done| |]).
    + by apply Repr_forward.
    + by apply (Repr_backward s' l [newNode]).
    + by apply Repr_forward.
    + by apply (Repr_backward s' l [newNode]).
  - exists s1. split_and!; [done| |].
    + by apply Repr_forward.
    + by apply Repr_backward.
  - exists s2. split_and!; [done| |].
    + apply Repr_forward; [done|]. rewrite length_app. simpl. lia.
    + apply Repr_backward; [done|]. rewrite length_app. simpl. lia.
  - intros curNode r s'. apply Insert_ret.
Qed.

Lemma Insert_returns_newNode_witness :
  (exists s',
      InsertPrev 100 (Some 2%nat) (Some 6%nat) st_two = Some (Some 6%nat, s') /\
      forward 4 s' 100 = Some [1%nat; 6%nat; 2%nat; 3%nat] /\
      backward 4 s' 100 = Some [3%nat; 2%nat; 6%nat; 1%nat]) /\
  (exists s',
      InsertLast 100 (Some 6%nat) st_two = Some (Some 6%nat, s') /\
      forward 4 s' 100 = Some [1%nat; 2%nat; 3%nat; 6%nat]) /\
  (exists s',
      InsertNext 100 (Some 3%nat) (Some 5%nat) st_two = Some (Some 5%nat, s') /\
      forward 4 s' 100 = Some [1%nat; 2%nat; 3%nat; 5%nat]).
Proof.
  destruct (Insert_returns_newNode st_two 100 [1%nat; 2%nat; 3%nat] []
              6%nat [])
    as (Hmid & _ & _ & (s2 & E2 & F2 & _) & _).
  - concrete_Repr.
  - simpl. split; [vm_compute; reflexivity|exact I].
  - by_decide.
  - concrete_disjoint.
  - intros L [= <-] _. vm_compute. reflexivity.
  - destruct (Hmid [1%nat] 2%nat [3%nat] eq_refl) as [(s1 & E1 & F1 & B1) _].
    destruct (Insert_returns_newNode st_two 100 [1%nat; 2%nat; 3%nat]
                [4%nat] 5%nat [])
      as (Hmid' & _).
    + concrete_Repr.
    + simpl. split_and!; first [exact I | vm_compute; reflexivity].
    + by_decide.
    + concrete_disjoint.
    + intros L [= <-] _. vm_compute. reflexivity.
    + destruct (Hmid' [1%nat; 2%nat] 3%nat [] eq_refl)
        as [_ (s3 & E3 & F3 & _)].
      split_and!; [exists s1|exists s2|exists s3]; split_and!; assumption.
Defined.

(** ** C6: a run of [InsertLast] calls *)

Lemma InsertLast_all_spec (l : nat) (xs : list nat) : forall ys s,
  Repr s l ys -> NoDup xs -> xs ## ys ->
  (forall x, x ∈ xs -> nodes s !! x = Some detached) ->
  fits s l (length ys + length xs) ->
  exists s',
    InsertLast_all l xs s = Some (tt, s') /\ Repr s' l (ys ++ xs) /\
    frame (xs ++ ys) [l] s s'.
Proof.
  induction xs as [|x xs IH]; intros ys s HR Hd Hdisj Hdet Hfit.
  - exists s. rewrite app_nil_r. split_and!; [done|done|apply frame_refl].
  - apply NoDup_cons in Hd as [Hx Hd].
    assert (Hxy : x ∉ ys) by (intros ?; apply (Hdisj x); [left|done]).
    assert (Hroom : room s l 1).
    { eapply room_of_fits; [done|]. eapply fits_le; [|done]. simpl. lia. }
    destruct (InsertLast_spec s l ys x HR (Hdet x ltac:(left)) Hxy Hroom)
      as (s1 & E1 & HR1 & F1).
    destruct (IH (ys ++ [x]) s1 HR1 Hd) as (s2 & E2 & HR2 & F2).
    + intros y Hy [Hy'|Hy']%elem_of_app.
      * apply (Hdisj y); [by right|done].
      * apply list_elem_of_singleton in Hy' as ->. done.
    + intros y Hy. destruct F1 as (N1 & _). rewrite N1.
      * apply Hdet. by right.
      * intros [->|Hy']%elem_of_cons; [done|].
        apply (Hdisj y); [by right|done].
    + eapply fits_frame; [exact F1|]. eapply fits_le; [|exact Hfit].
      rewrite length_app. simpl. lia.
    + exists s2. split_and!.
      * simpl. by rewrite (bind_run _ _ _ _ _ E1).
      * by rewrite <- app_assoc in HR2.
      * eapply frame_mono; [| |exact (frame_trans _ _ _ _ _ _ _ F1 F2)];
          sub_list.
Qed.

(** C6.  Starting from an empty length-tracking list, calling [InsertLast]
    on [n] distinct detached elements returns; then [GetLength()] is [n],
    the traversal from [begin()] yields the elements in the order they were
    inserted, and the traversal from [rbegin()] yields the reverse. *)
Theorem InsertLast_all_correct (s : state) (l : nat) (xs : list nat) :
  lists s !! l = Some (mkList true None None 0) ->
  NoDup xs ->
  (forall x, x ∈ xs -> nodes s !! x = Some detached) ->
  Z.of_nat (length xs) < size_max ->
  exists s',
    InsertLast_all l xs s = Some (tt, s') /\
    GetLength l s' = Some (Z.of_nat (length xs), s') /\
    forward (length xs) s' l = Some xs /\
    backward (length xs) s' l = Some (reverse xs).
Proof.
  intros HL Hd Hdet Hsize.
  assert (HR : Repr s l []).
  { exists (mkList true None None 0).
    split_and!;
      first [done | apply NoDup_nil_2 | intros _; cbn; unfold size_max; lia]. }
  destruct (InsertLast_all_spec l xs [] s HR Hd) as (s' & E & HR' & F);
    [by intros y _ []%elem_of_nil | done | by intros L _ _ |].
  simpl in HR'.
  destruct (Repr_flag_frame _ _ _ _ _ [] _ _ F HL HR') as (L' & HL' & Hen).
  exists s'. split_and!.
  - done.
  - by apply (GetLength_Repr _ _ _ L').
  - by apply Repr_forward.
  - by apply Repr_backward.
Qed.

Lemma InsertLast_all_correct_witness :
  exists s',
    InsertLast_all 7 [1%nat; 2%nat; 3%nat]
      (mkState (fresh_nodes [1%nat; 2%nat; 3%nat])
         {[ 7%nat := mkList true None None 0 ]}) = Some (tt, s') /\
    GetLength 7 s' = Some (3, s') /\
    forward 3 s' 7 = Some [1%nat; 2%nat; 3%nat] /\
    backward 3 s' 7 = Some [3%nat; 2%nat; 1%nat].
Proof.
  apply (InsertLast_all_correct
           (mkState (fresh_nodes [1%nat; 2%nat; 3%nat])
              {[ 7%nat := mkList true None None 0 ]}) 7
           [1%nat; 2%nat; 3%nat]).
  - vm_compute. reflexivity.
  - by_decide.
  - intros x Hx.
    repeat (apply elem_of_cons in Hx as [->|Hx]; [vm_compute; reflexivity|]).
    by apply elem_of_nil in Hx.
  - vm_compute. reflexivity.
Defined.

(** ** C5: [operator+] *)



(** ** C1: the converting move constructor *)

(** C1.  The converting move constructor is the one chosen when source
    and target differ in their length switch.  On such a source holding two
    elements or more, [e1 :: e2 :: es], it returns after one round whatever
    the fuel: the new list holds [e1] only, and the source still holds
    [e2 :: es], so it is not empty. *)
Theorem convert_ctor_moves_first_only (s : state) (this other : nat)
    (enable : bool) (O : IntrusiveList) (e1 e2 : nat) (es : list nat)
    (fuel : nat) :
  Repr s other (e1 :: e2 :: es) ->
  lists s !! other = Some O -> HasLength O <> enable -> this <> other ->
  exists s',
    convert_ctor (S fuel) this enable other s = Some (tt, s') /\
    forward (length (e1 :: e2 :: es)) s' this = Some [e1] /\
    backward (length (e1 :: e2 :: es)) s' this = Some [e1] /\
    forward (length (e1 :: e2 :: es)) s' other = Some (e2 :: es) /\
    backward (length (e1 :: e2 :: es)) s' other
      = Some (reverse (e2 :: es)) /\
    IsEmpty other s' = Some (false, s') /\
    (forall T, lists s' !! this = Some T -> HasLength T = enable).
Proof.
  intros HO HL Hsw Hne.
  destruct (convert_ctor_spec s this other enable (e1 :: e2 :: es) (S fuel))
    as (s' & E & HT & HO' & _ & _); [done|done|lia|].
  simpl in HT, HO'. exists s'. split_and!.
  - done.
  - apply Repr_forward; [done|simpl; lia].
  - apply (Repr_backward s' this [e1]); [done|simpl; lia].
  - apply Repr_forward; [done|simpl; lia].
  - apply Repr_backward; [done|simpl; lia].
  - by rewrite (IsEmpty_Repr _ _ _ HO').
  - intros T HT'.
    destruct (new_list_spec s this enable) as (s0 & E0 & N0 & L0 & HT0).
    unfold convert_ctor in E. rewrite (bind_run _ _ _ _ _ E0) in E.
    assert (HO0 : Repr s0 other (e1 :: e2 :: es)).
    { destruct s as [h ls], s0 as [h0 ls0]. cbn in N0, L0. subst h0 ls0.
      by apply Repr_put_other. }
    rewrite (bind_run _ _ _ _ _ (get_head_Repr _ _ _ HO0)) in E.
    destruct (convert_loop_spec s0 this other e1 (e2 :: es) [] fuel HO0 HT0)
      as (s1 & E1 & _ & HT1 & F1); try done.
    { intros y _ []%elem_of_nil. }
    { intros T' HT'' Hen. rewrite L0, lookup_insert_eq in HT''.
      injection HT'' as <-. cbn. unfold size_max. lia. }
    change (head (e1 :: e2 :: es)) with (Some e1) in E.
    rewrite E1 in E. injection E as <-.
    destruct F1 as (_ & _ & _ & _ & Hflag).
    rewrite (Hflag this (mkList enable None None 0) T); [done| |done].
    by rewrite L0, lookup_insert_eq.
Qed.

Lemma convert_ctor_moves_first_only_witness :
  (exists s',
      convert_ctor 1 102 false 100 st_two = Some (tt, s') /\
      forward 3 s' 102 = Some [1%nat] /\
      forward 3 s' 100 = Some [2%nat; 3%nat] /\
      IsEmpty 100 s' = Some (false, s')) /\
  (exists s',
      convert_ctor 1 102 true 100
        (mkState st_nodes
           {[ 100%nat := mkList false (Some 1%nat) (Some 3%nat) 0 ]})
        = Some (tt, s') /\
      forward 3 s' 102 = Some [1%nat] /\
      forward 3 s' 100 = Some [2%nat; 3%nat] /\
      IsEmpty 100 s' = Some (false, s')).
Proof.
  split.
  - destruct (convert_ctor_moves_first_only st_two 102 100 false
                (mkList true (Some 1%nat) (Some 3%nat) 3) 1%nat 2%nat
                [3%nat] 0)
      as (s' & E & Hf & _ & Hf' & _ & He & _).
    + concrete_Repr.
    + vm_compute. reflexivity.
    + discriminate.
    + discriminate.
    + exists s'. split_and!; assumption.
  - destruct (convert_ctor_moves_first_only
                (mkState st_nodes
                   {[ 100%nat := mkList false (Some 1%nat) (Some 3%nat) 0 ]})
                102 100 true
                (mkList false (Some 1%nat) (Some 3%nat) 0) 1%nat 2%nat
                [3%nat] 0)
      as (s' & E & Hf & _ & Hf' & _ & He & _).
    + exists (mkList false (Some 1%nat) (Some 3%nat) 0). split_and!.
      * vm_compute. reflexivity.
      * reflexivity.
      * reflexivity.
      * intros [=].
      * simpl. split_and!; first [exact I | vm_compute; reflexivity].
      * by_decide.
    + vm_compute. reflexivity.
    + discriminate.
    + discriminate.
    + exists s'. split_and!; assumption.
Defined.

(** ** C2: inserting an element that another list still holds *)




(** ** C8: [operator==] and [operator<=>] *)

Section Compare.
(** [*it1 == *it2] and [*it1 <=> *it2] for the elements at two addresses:
    the comparisons of the element types, which the list only calls. *)
Variable elem_eq : nat -> nat -> bool.
Variable elem_cmp : nat -> nat -> ordering.

Lemma std_equal_chain h (xs : list nat) : forall ys pv1 pv2 fuel,
  chain h pv1 xs None -> chain h pv2 ys None -> (length xs <= fuel)%nat ->
  std_equal elem_eq fuel h (hd_ptr xs None) (hd_ptr ys None) = Some (equal_spec elem_eq xs ys).
Proof.
  induction xs as [|x xs IH]; intros ys pv1 pv2 fuel H1 H2 Hf.
  - destruct ys; by destruct fuel.
  - destruct ys as [|y ys]; [by destruct fuel|].
    destruct fuel as [|fuel]; [simpl in Hf; lia|].
    simpl in *. destruct H1 as [Hx H1], H2 as [Hy H2].
    destruct (elem_eq x y); [|done].
    rewrite Hx, Hy. simpl. apply (IH ys (Some x) (Some y)); [done|done|lia].
Qed.

Lemma std_lex_chain h (xs : list nat) : forall ys pv1 pv2 fuel,
  chain h pv1 xs None -> chain h pv2 ys None -> (length xs <= fuel)%nat ->
  std_lexicographical_compare_three_way elem_cmp fuel h (hd_ptr xs None)
    (hd_ptr ys None) = Some (lex_spec elem_cmp xs ys).
Proof.
  induction xs as [|x xs IH]; intros ys pv1 pv2 fuel H1 H2 Hf.
  - destruct ys; by destruct fuel.
  - destruct ys as [|y ys]; [by destruct fuel|].
    destruct fuel as [|fuel]; [simpl in Hf; lia|].
    simpl in *. destruct H1 as [Hx H1], H2 as [Hy H2].
    destruct (elem_cmp x y); try done.
    rewrite Hx, Hy. simpl. apply (IH ys (Some x) (Some y)); [done|done|lia].
Qed.

Lemma equal_spec_Forall2 (xs ys : list nat) :
  equal_spec elem_eq xs ys = true <->
  length xs = length ys /\ Forall2 (fun a b => elem_eq a b = true) xs ys.
Proof.
  revert ys. induction xs as [|x xs IH]; intros [|y ys]; simpl.
  - split; [intros _; split; [done|constructor]|done].
  - split; [done|by intros [? _]].
  - split; [done|by intros [? _]].
  - rewrite andb_true_iff, IH. split.
    + intros (? & ? & ?). split; [congruence|by constructor].
    + intros [Hl HF]. apply Forall2_cons in HF as [? ?].
      split_and!; [done|congruence|done].
Qed.

(** [lex_spec] is decided by the first pair of elements that are not
    equivalent. *)
Lemma lex_spec_differ (p q : list nat) x y r t :
  Forall2 (eqv elem_cmp) p q -> elem_cmp x y <> equivalent ->
  lex_spec elem_cmp (p ++ x :: r) (q ++ y :: t) = elem_cmp x y.
Proof.
  intros HF Hc. induction HF as [|a b p q Hab HF IH]; simpl.
  - by destruct (elem_cmp x y).
  - unfold eqv in Hab. by rewrite Hab.
Qed.

(** A sequence equivalent to a prefix of the other one comes first, or is
    equivalent to it when nothing is left. *)
Lemma lex_spec_prefix_l (xs q t : list nat) :
  Forall2 (eqv elem_cmp) xs q ->
  lex_spec elem_cmp xs (q ++ t) = if bool_decide (t = []) then equivalent else less.
Proof.
  intros HF. induction HF as [|a b p q Hab HF IH]; simpl.
  - by destruct t.
  - unfold eqv in Hab. by rewrite Hab.
Qed.

Lemma lex_spec_prefix_r (p r ys : list nat) :
  Forall2 (eqv elem_cmp) p ys -> r <> [] -> lex_spec elem_cmp (p ++ r) ys = greater.
Proof.
  intros HF Hr. induction HF as [|a b p q Hab HF IH]; simpl.
  - by destruct r.
  - unfold eqv in Hab. by rewrite Hab.
Qed.

(** C8.  For two lists holding [xs] and [ys]: [operator==] returns, and its
    result is [true] exactly when the two sequences have the same length
    and are elementwise equal; [operator<=>] returns the lexicographic
    comparison: the comparison of the first pair of elements that are not
    equivalent, and otherwise a sequence that is equivalent to a proper
    prefix of the other orders before it. *)
Theorem comparison_correct (s : state) (lhs rhs : nat) (xs ys : list nat)
    (fuel : nat) :
  Repr s lhs xs -> Repr s rhs ys -> (length xs <= fuel)%nat ->
  (exists b,
      operator_eq elem_eq fuel lhs rhs s = Some (b, s) /\
      (b = true <->
       length xs = length ys /\
       Forall2 (fun a b => elem_eq a b = true) xs ys)) /\
  (exists c,
      operator_cmp elem_cmp fuel lhs rhs s = Some (c, s) /\
      (forall p x r q y t,
          xs = p ++ x :: r -> ys = q ++ y :: t -> Forall2 (eqv elem_cmp) p q ->
          elem_cmp x y <> equivalent -> c = elem_cmp x y) /\
      (forall q t,
          ys = q ++ t -> Forall2 (eqv elem_cmp) xs q ->
          c = if bool_decide (t = []) then equivalent else less) /\
      (forall p r,
          xs = p ++ r -> Forall2 (eqv elem_cmp) p ys -> r <> [] -> c = greater)).
Proof.
  intros HX HY Hf.
  pose proof HX as (L & HL & Hh & _ & _ & Hc & _).
  pose proof HY as (R & HR & Hh' & _ & _ & Hc' & _).
  split.
  - exists (equal_spec elem_eq xs ys). split; [|apply equal_spec_Forall2].
    unfold operator_eq.
    rewrite (bind_run _ _ _ _ _ (get_head_Repr _ _ _ HX)).
    rewrite (bind_run _ _ _ _ _ (get_head_Repr _ _ _ HY)).
    rewrite !head_hd_ptr.
    by rewrite (std_equal_chain _ xs ys None None fuel Hc Hc' Hf).
  - exists (lex_spec elem_cmp xs ys). split_and!.
    + unfold operator_cmp.
      rewrite (bind_run _ _ _ _ _ (get_head_Repr _ _ _ HX)).
      rewrite (bind_run _ _ _ _ _ (get_head_Repr _ _ _ HY)).
      rewrite !head_hd_ptr.
      by rewrite (std_lex_chain _ xs ys None None fuel Hc Hc' Hf).
    + intros p x r q y t -> -> HF Hne. by apply lex_spec_differ.
    + intros q t -> HF. by apply lex_spec_prefix_l.
    + intros p r -> HF Hr. by apply lex_spec_prefix_r.
Qed.
End Compare.

Lemma comparison_correct_witness :
  (exists b, operator_eq Nat.eqb 3 100 101 st_two = Some (b, st_two) /\
             b = false) /\
  (exists c, operator_cmp nat_cmp 3 100 101 st_two = Some (c, st_two) /\
             c = less).
Proof.
  destruct (comparison_correct Nat.eqb nat_cmp st_two 100 101
              [1%nat; 2%nat; 3%nat] [4%nat; 5%nat] 3)
    as [(b & Eb & Hb) (c & Ec & Hc & _)].
  - concrete_Repr.
  - concrete_Repr.
  - simpl. lia.
  - split.
    + exists b. split; [exact Eb|].
      destruct b; [|reflexivity].
      destruct (proj1 Hb eq_refl) as [Hlen _]. discriminate Hlen.
    + exists c. split; [exact Ec|].
      apply (Hc [] 1%nat [2%nat; 3%nat] [] 4%nat [5%nat]);
        [reflexivity|reflexivity|constructor|discriminate].
Defined.

(** ** C7: the invariant of the list objects *)

Section Invariant.
Implicit Types (s : state) (rho : gmap nat (list nat)) (X Ls : list nat).

Lemma Repr_list_inv s (l : nat) xs : Repr s l xs -> list_inv s l.
Proof.
  intros (L & HL & Hh & Hl & Hn & Hc & _). exists L. split_and!; [done| |].
  - rewrite Hh, Hl. destruct xs as [|x xs]; [done|].
    by rewrite last_cons_default.
  - intros Hen. exists (length xs), xs. split.
    + rewrite Hh, head_hd_ptr. by eapply walk_next_chain.
    + by destruct (Hn Hen).
Qed.

Lemma wf_list_inv s rho (l : nat) :
  wf s rho -> is_Some (lists s !! l) -> list_inv s l.
Proof.
  intros (D & R & _) [xs Hx]%D. eapply Repr_list_inv. by apply R.
Qed.

(** How [wf] is re-established after an operation that touched the list
    objects [Ls] and elements of [X] only. *)
Lemma wf_step s s' rho rho' X Ls :
  wf s rho ->
  (forall l, l ∉ Ls -> lists s' !! l = lists s !! l) ->
  (forall l zs, l ∉ Ls -> (forall y, y ∈ zs -> y ∉ X) ->
                Repr s l zs -> Repr s' l zs) ->
  (forall l, l ∉ Ls -> rho' !! l = rho !! l) ->
  (forall l, l ∈ Ls ->
             exists xs', rho' !! l = Some xs' /\ Repr s' l xs' /\
                         forall y, y ∈ xs' -> y ∈ X) ->
  (forall l zs, l ∉ Ls -> rho !! l = Some zs -> forall y, y ∈ zs -> y ∉ X) ->
  (forall l1 l2 xs ys, l1 ∈ Ls -> l2 ∈ Ls -> l1 <> l2 ->
                       rho' !! l1 = Some xs -> rho' !! l2 = Some ys ->
                       xs ## ys) ->
  wf s' rho'.
Proof.
  intros (D & R & J) Hls Hpres Hrho Hnew Hoff Hdis. split_and!.
  - intros l. destruct (decide (l ∈ Ls)) as [Hin|Hin].
    + destruct (Hnew l Hin) as (xs' & Hr & (L & HL & _) & _).
      rewrite Hr, HL. split; eauto.
    + rewrite Hls, Hrho by done. apply D.
  - intros l xs Hl. destruct (decide (l ∈ Ls)) as [Hin|Hin].
    + destruct (Hnew l Hin) as (xs' & Hr & HR & _). congruence.
    + rewrite Hrho in Hl by done.
      apply Hpres; [done|by apply (Hoff l)|by apply R].
  - intros l1 l2 xs ys Hne H1 H2.
    destruct (decide (l1 ∈ Ls)) as [Hin1|Hin1];
      destruct (decide (l2 ∈ Ls)) as [Hin2|Hin2].
    + by apply (Hdis l1 l2).
    + destruct (Hnew l1 Hin1) as (xs' & Hr & _ & Hsub).
      rewrite Hrho in H2 by done. rewrite Hr in H1. injection H1 as ->.
      intros y Hy Hy'. by apply (Hoff l2 ys Hin2 H2 y Hy'), Hsub.
    + destruct (Hnew l2 Hin2) as (ys' & Hr & _ & Hsub).
      rewrite Hrho in H1 by done. rewrite Hr in H2. injection H2 as ->.
      intros y Hy Hy'. by apply (Hoff l1 xs Hin1 H1 y Hy), Hsub.
    + rewrite Hrho in H1, H2 by done. by apply (J l1 l2).
Qed.

Lemma frame_pres X Ls s s' :
  frame X Ls s s' ->
  (forall l, l ∉ Ls -> lists s' !! l = lists s !! l) /\
  (forall l zs, l ∉ Ls -> (forall y, y ∈ zs -> y ∉ X) ->
                Repr s l zs -> Repr s' l zs).
Proof.
  intros F. split; [apply F|]. intros l zs Hl Hz. by apply (Repr_frame X Ls).
Qed.

(** One list object touched. *)
Lemma wf_one s s' rho X (l : nat) xs' :
  wf s rho -> is_Some (rho !! l) ->
  (forall l', l' <> l -> lists s' !! l' = lists s !! l') ->
  (forall l' zs, l' <> l -> (forall y, y ∈ zs -> y ∉ X) ->
                 Repr s l' zs -> Repr s' l' zs) ->
  Repr s' l xs' -> (forall y, y ∈ xs' -> y ∈ X) ->
  (forall l' zs, l' <> l -> rho !! l' = Some zs ->
                 forall y, y ∈ zs -> y ∉ X) ->
  wf s' (<[l := xs']> rho).
Proof.
  intros W Hl Hls Hpres HR Hsub Hoff.
  apply (wf_step s s' rho _ X [l] W).
  - intros l' Hl'. apply Hls. intros ->. apply Hl'. left.
  - intros l' zs Hl'. apply Hpres. intros ->. apply Hl'. left.
  - intros l' Hl'. rewrite lookup_insert_ne; [done|].
    intros ->. apply Hl'. left.
  - intros l' ->%list_elem_of_singleton. exists xs'.
    by rewrite lookup_insert_eq.
  - intros l' zs Hl'. apply Hoff. intros ->. apply Hl'. left.
  - intros l1 l2 xs ys ->%list_elem_of_singleton ->%list_elem_of_singleton.
    done.
Qed.

(** Two list objects touched. *)
Lemma wf_two s s' rho X (a b : nat) xa xb :
  wf s rho -> a <> b ->
  (forall l', l' <> a -> l' <> b -> lists s' !! l' = lists s !! l') ->
  (forall l' zs, l' <> a -> l' <> b -> (forall y, y ∈ zs -> y ∉ X) ->
                 Repr s l' zs -> Repr s' l' zs) ->
  Repr s' a xa -> Repr s' b xb ->
  (forall y, y ∈ xa -> y ∈ X) -> (forall y, y ∈ xb -> y ∈ X) ->
  xa ## xb ->
  (forall l' zs, l' <> a -> l' <> b -> rho !! l' = Some zs ->
                 forall y, y ∈ zs -> y ∉ X) ->
  wf s' (<[a := xa]> (<[b := xb]> rho)).
Proof.
  intros W Hab Hls Hpres Ha Hb Hsa Hsb Hdis Hoff.
  assert (Hout : forall l', l' ∉ [a; b] -> l' <> a /\ l' <> b).
  { intros l' Hl'. split; intros ->; apply Hl'; [left|right; left]. }
  apply (wf_step s s' rho _ X [a; b] W).
  - intros l' [? ?]%Hout. by apply Hls.
  - intros l' zs [? ?]%Hout. by apply Hpres.
  - intros l' [? ?]%Hout. by rewrite !lookup_insert_ne.
  - intros l' [->|[->|[]%elem_of_nil]%elem_of_cons]%elem_of_cons.
    + exists xa. by rewrite lookup_insert_eq.
    + exists xb. by rewrite lookup_insert_ne, lookup_insert_eq.
  - intros l' zs [? ?]%Hout. by apply Hoff.
  - intros l1 l2 xs ys
      [->|[->|[]%elem_of_nil]%elem_of_cons]%elem_of_cons
      [->|[->|[]%elem_of_nil]%elem_of_cons]%elem_of_cons Hne;
      rewrite ?lookup_insert_eq, ?(lookup_insert_ne _ a b) by done;
      rewrite ?lookup_insert_eq; try done.
    + by intros [= <-] [= <-].
    + intros [= <-] [= <-]. intros y Hy Hy'. by apply (Hdis y).
Qed.

(** What the other lists hold is off the elements of a given list, and off
    a free element. *)
Lemma wf_off s rho (l : nat) xs (l' : nat) zs y :
  wf s rho -> rho !! l = Some xs -> l' <> l -> rho !! l' = Some zs ->
  y ∈ zs -> y ∉ xs.
Proof.
  intros (_ & _ & J) Hl Hne Hl' Hy Hy'. by apply (J l' l zs xs Hne Hl' Hl y).
Qed.
End Invariant.

Section Cases.
Implicit Types (s : state) (rho : gmap nat (list nat)) (xs ys zs : list nat).

Lemma Repr_same s s' (l : nat) zs :
  nodes s' = nodes s -> lists s' !! l = lists s !! l ->
  Repr s l zs -> Repr s' l zs.
Proof.
  intros Hn Hl (L & HL & HR). exists L. by rewrite Hn, Hl.
Qed.

(** The four plain insertions, each with the sequence it produces. *)
Lemma InsertPrev_any xs cur x :
  at_pos xs cur ->
  exists xs',
    (forall y, y ∈ xs' -> y ∈ x :: xs) /\
    forall s (l : nat),
      Repr s l xs -> nodes s !! x = Some detached -> x ∉ xs -> room s l 1 ->
      exists s', InsertPrev l cur (Some x) s = Some (Some x, s') /\
                 Repr s' l xs' /\ frame (x :: xs) [l] s s'.
Proof.
  intros [->|(c & -> & (k1 & k2 & ->)%list_elem_of_split)].
  - exists [x]. split; [done|]. intros s l HR Hx _ Hroom.
    destruct (Insert_empty_spec s l cur x HR Hx Hroom) as (s' & _ & E & ? & ?).
    by exists s'.
  - exists (k1 ++ x :: c :: k2). split; [sub_list|].
    intros s l. apply InsertPrev_spec.
Qed.

Lemma InsertNext_any xs cur x :
  at_pos xs cur ->
  exists xs',
    (forall y, y ∈ xs' -> y ∈ x :: xs) /\
    forall s (l : nat),
      Repr s l xs -> nodes s !! x = Some detached -> x ∉ xs -> room s l 1 ->
      exists s', InsertNext l cur (Some x) s = Some (Some x, s') /\
                 Repr s' l xs' /\ frame (x :: xs) [l] s s'.
Proof.
  intros [->|(c & -> & (k1 & k2 & ->)%list_elem_of_split)].
  - exists [x]. split; [done|]. intros s l HR Hx _ Hroom.
    destruct (Insert_empty_spec s l cur x HR Hx Hroom) as (s' & E & _ & ? & ?).
    by exists s'.
  - exists (k1 ++ c :: x :: k2). split; [sub_list|].
    intros s l. apply InsertNext_spec.
Qed.

(** A plain insertion keeps the data model. *)
Lemma wf_insert s rho (l : nat) xs xs' x (ins : M ptr) :
  wf s rho -> rho !! l = Some xs -> free s rho x -> room s l 1 ->
  (forall y, y ∈ xs' -> y ∈ x :: xs) ->
  (forall s1,
      Repr s1 l xs -> nodes s1 !! x = Some detached -> x ∉ xs -> room s1 l 1 ->
      exists s', ins s1 = Some (Some x, s') /\
                 Repr s' l xs' /\ frame (x :: xs) [l] s1 s') ->
  exists s', (ins ;; ret tt) s = Some (tt, s') /\ wf s' (<[l := xs']> rho).
Proof.
  intros W Hl [Hx Hfree] Hroom Hsub Hins.
  pose proof W as (_ & R & _).
  destruct (Hins s (R l xs Hl) Hx (Hfree l xs Hl) Hroom) as (s' & E & HR & F).
  exists s'. split; [by rewrite (bind_run _ _ _ _ _ E)|].
  destruct (frame_pres _ _ _ _ F) as [Hls Hpres].
  apply (wf_one s s' rho (x :: xs)); try done.
  - intros l' Hl'. apply Hls. by intros ->%list_elem_of_singleton.
  - intros l' zs Hl'. apply Hpres. by intros ->%list_elem_of_singleton.
  - intros l' zs Hl' Hz y Hy [->|Hy']%elem_of_cons.
    + by apply (Hfree l' zs).
    + by apply (wf_off s rho l xs l' zs y).
Qed.

(** A splice between two different lists keeps the data model. *)
Lemma wf_splice s rho (l other : nat) xs xs' l1 x l2 (ins : M ptr) :
  wf s rho -> rho !! l = Some xs -> rho !! other = Some (l1 ++ x :: l2) ->
  l <> other -> room s l 1 ->
  (forall y, y ∈ xs' -> y ∈ x :: xs) ->
  (forall s1,
      Repr s1 l xs -> nodes s1 !! x = Some detached -> x ∉ xs -> room s1 l 1 ->
      exists s', ins s1 = Some (Some x, s') /\
                 Repr s' l xs' /\ frame (x :: xs) [l] s1 s') ->
  exists s',
    ((Remove other (Some x) ;; ins) ;; ret tt) s = Some (tt, s') /\
    wf s' (<[other := l1 ++ l2]> (<[l := xs']> rho)).
Proof.
  intros W Hl Ho Hne Hroom Hsub Hins.
  pose proof W as (_ & R & J).
  assert (Hdisj : (l1 ++ x :: l2) ## xs) by (apply (J other l); done).
  pose proof (R other _ Ho) as HO. pose proof HO as (_ & _ & _ & _ & _ & _ & Hd).
  destruct (from_spec s l other l1 x l2 xs xs' ins HO (R l xs Hl)
              ltac:(done) Hdisj Hroom Hins)
    as (s' & E & HO' & HL' & F).
  exists s'. split; [by rewrite (bind_run _ _ _ _ _ E)|].
  destruct (frame_pres _ _ _ _ F) as [Hls Hpres].
  apply (wf_two s s' rho ((l1 ++ x :: l2) ++ x :: xs)); try done.
  - intros l' H1 H2. apply Hls.
    intros [->|[->|[]%elem_of_nil]%elem_of_cons]%elem_of_cons; done.
  - intros l' zs H1 H2. apply Hpres.
    intros [->|[->|[]%elem_of_nil]%elem_of_cons]%elem_of_cons; done.
  - sub_list.
  - intros y Hy. apply elem_of_app. right. by apply Hsub.
  - intros y Hy [->|Hy']%Hsub%elem_of_cons.
    + by apply (NoDup_mid_notin _ _ _ Hd).
    + apply (Hdisj y); [|done].
      apply elem_of_app in Hy as [?|?]; apply elem_of_app;
        [by left|right; by right].
  - intros l' zs H1 H2 Hz y Hy [Hy'|[->|Hy']%elem_of_cons]%elem_of_app.
    + by apply (wf_off s rho other (l1 ++ x :: l2) l' zs y).
    + apply (wf_off s rho other (l1 ++ x :: l2) l' zs x); try done.
      apply elem_of_app. right. left.
    + by apply (wf_off s rho l xs l' zs y).
Qed.
End Cases.

Section Preservation.
Implicit Types (s : state) (rho : gmap nat (list nat)) (xs ys zs : list nat).

Lemma wf_remove s rho (l : nat) l1 x l2 :
  wf s rho -> rho !! l = Some (l1 ++ x :: l2) ->
  exists s', Remove l (Some x) s = Some (tt, s') /\
             wf s' (<[l := l1 ++ l2]> rho).
Proof.
  intros W Hl. pose proof W as (_ & R & _).
  destruct (Remove_spec s l l1 x l2 (R l _ Hl)) as (s' & E & HR & _ & F).
  exists s'. split; [done|].
  destruct (frame_pres _ _ _ _ F) as [Hls Hpres].
  apply (wf_one s s' rho (l1 ++ x :: l2)); try done.
  - intros l' Hl'. apply Hls. by intros ->%list_elem_of_singleton.
  - intros l' zs Hl'. apply Hpres. by intros ->%list_elem_of_singleton.
  - sub_list.
  - intros l' zs Hl' Hz y Hy. by apply (wf_off s rho l _ l' zs y).
Qed.

Lemma wf_clear s rho (l : nat) :
  wf s rho -> is_Some (rho !! l) ->
  exists s', Clear l s = Some (tt, s') /\ wf s' (<[l := []]> rho).
Proof.
  intros W [xs Hl]. pose proof W as (_ & R & _).
  destruct (R l xs Hl) as (L & HL & _).
  destruct (Clear_spec s l L HL) as (s' & E & _ & _ & HR & F).
  exists s'. split; [done|].
  destruct (frame_pres _ _ _ _ F) as [Hls Hpres].
  apply (wf_one s s' rho []); try done.
  - intros l' Hl'. apply Hls. by intros ->%list_elem_of_singleton.
  - intros l' zs Hl'. apply Hpres. by intros ->%list_elem_of_singleton.
  - intros l' zs _ _ y _ []%elem_of_nil.
Qed.

(** Handing the elements of [other] over to [this], as the two moves do. *)
Lemma wf_handover s s' rho (this other : nat) xs :
  wf s rho -> rho !! other = Some xs -> this <> other ->
  nodes s' = nodes s ->
  Repr s' this xs -> Repr s' other [] ->
  (forall l, l <> this -> l <> other -> lists s' !! l = lists s !! l) ->
  wf s' (<[this := xs]> (<[other := []]> rho)).
Proof.
  intros W Ho Hne Hn HT HO Hls.
  apply (wf_two s s' rho xs); try done.
  - intros l' zs H1 H2 _. apply Repr_same; [done|by apply Hls].
  - by intros y []%elem_of_nil.
  - by intros y _ []%elem_of_nil.
  - intros l' zs H1 H2 Hz y Hy. by apply (wf_off s rho other xs l' zs y).
Qed.

Lemma take_drop_disjoint xs : NoDup xs -> take 1 xs ## drop 1 xs.
Proof.
  destruct xs as [|x xs]; simpl.
  - by intros _ y []%elem_of_nil.
  - rewrite drop_0. intros [Hx _]%NoDup_cons y ->%list_elem_of_singleton. done.
Qed.

Lemma op_wf s rho (o : op) :
  wf s rho -> pre s rho o ->
  exists fuel s' rho', run_op fuel o s = Some (tt, s') /\ wf s' rho'.
Proof.
  intros W Hpre. pose proof W as (D & R & J).
  destruct o as [l cur x|l cur x|l x|l x|l cur x other|l cur x other
                |l x other|l x other|l x|l|l|l|this other|this other
                |this enable other|this rhs|tmp lhs rhs]; simpl in Hpre.
  - destruct Hpre as (xs & Hl & Hpos & Hfree & Hroom).
    destruct (InsertPrev_any xs cur x Hpos) as (xs' & Hsub & Hins).
    destruct (wf_insert s rho l xs xs' x _ W Hl Hfree Hroom Hsub
                (fun s1 => Hins s1 l))
      as (s' & E & W').
    by exists 0%nat, s', (<[l := xs']> rho).
  - destruct Hpre as (xs & Hl & Hpos & Hfree & Hroom).
    destruct (InsertNext_any xs cur x Hpos) as (xs' & Hsub & Hins).
    destruct (wf_insert s rho l xs xs' x _ W Hl Hfree Hroom Hsub
                (fun s1 => Hins s1 l))
      as (s' & E & W').
    by exists 0%nat, s', (<[l := xs']> rho).
  - destruct Hpre as (xs & Hl & Hfree & Hroom).
    destruct (wf_insert s rho l xs (x :: xs) x (InsertHead l (Some x))
                W Hl Hfree Hroom) as (s' & E & W').
    + done.
    + intros s1. apply InsertHead_spec.
    + by exists 0%nat, s', (<[l := x :: xs]> rho).
  - destruct Hpre as (xs & Hl & Hfree & Hroom).
    destruct (wf_insert s rho l xs (xs ++ [x]) x (InsertLast l (Some x))
                W Hl Hfree Hroom) as (s' & E & W').
    + sub_list.
    + intros s1. apply InsertLast_spec.
    + by exists 0%nat, s', (<[l := xs ++ [x]]> rho).
  - destruct Hpre as (xs & ys & Hl & Ho & Hne &
                      (l1 & l2 & ->)%list_elem_of_split & Hpos & Hroom).
    destruct (InsertPrev_any xs cur x Hpos) as (xs' & Hsub & Hins).
    destruct (wf_splice s rho l other xs xs' l1 x l2 _ W Hl Ho Hne Hroom
                Hsub (fun s1 => Hins s1 l)) as (s' & E & W').
    by exists 0%nat, s', (<[other := l1 ++ l2]> (<[l := xs']> rho)).
  - destruct Hpre as (xs & ys & Hl & Ho & Hne &
                      (l1 & l2 & ->)%list_elem_of_split & Hpos & Hroom).
    destruct (InsertNext_any xs cur x Hpos) as (xs' & Hsub & Hins).
    destruct (wf_splice s rho l other xs xs' l1 x l2 _ W Hl Ho Hne Hroom
                Hsub (fun s1 => Hins s1 l)) as (s' & E & W').
    by exists 0%nat, s', (<[other := l1 ++ l2]> (<[l := xs']> rho)).
  - destruct Hpre as (xs & ys & Hl & Ho & Hne &
                      (l1 & l2 & ->)%list_elem_of_split & Hroom).
    destruct (wf_splice s rho l other xs (x :: xs) l1 x l2
                (InsertHead l (Some x)) W Hl Ho Hne Hroom) as (s' & E & W').
    + done.
    + intros s1. apply InsertHead_spec.
    + by exists 0%nat, s', (<[other := l1 ++ l2]> (<[l := x :: xs]> rho)).
  - destruct Hpre as (xs & ys & Hl & Ho & Hne &
                      (l1 & l2 & ->)%list_elem_of_split & Hroom).
    destruct (wf_splice s rho l other xs (xs ++ [x]) l1 x l2
                (InsertLast l (Some x)) W Hl Ho Hne Hroom) as (s' & E & W').
    + sub_list.
    + intros s1. apply InsertLast_spec.
    + by exists 0%nat, s', (<[other := l1 ++ l2]> (<[l := xs ++ [x]]> rho)).
  - destruct Hpre as (xs & Hl & (l1 & l2 & ->)%list_elem_of_split).
    destruct (wf_remove s rho l l1 x l2 W Hl) as (s' & E & W').
    by exists 0%nat, s', (<[l := l1 ++ l2]> rho).
  - destruct Hpre as (xs & Hl & Hne). destruct xs as [|x xs]; [done|].
    destruct (wf_remove s rho l [] x xs W Hl) as (s' & E & W').
    exists 0%nat, s', (<[l := [] ++ xs]> rho). split; [|done].
    simpl. unfold RemoveHead.
    by rewrite (bind_run _ _ _ _ _ (get_head_Repr _ _ _ (R l _ Hl))).
  - destruct Hpre as (xs & Hl & Hne).
    destruct xs as [|x xs _] using rev_ind; [done|].
    destruct (wf_remove s rho l xs x [] W Hl) as (s' & E & W').
    exists 0%nat, s', (<[l := xs ++ []]> rho). split; [|done].
    simpl. unfold RemoveLast.
    rewrite (bind_run _ _ _ _ _ (GetLast_Repr _ _ _ (R l _ Hl))).
    by rewrite last_snoc.
  - destruct (wf_clear s rho l W Hpre) as (s' & E & W').
    by exists 0%nat, s', (<[l := []]> rho).
  - destruct Hpre as (Ht & [xs Ho]).
    assert (Hne : this <> other) by congruence.
    destruct (move_ctor_spec s this other xs (R other xs Ho) Hne)
      as (s' & E & Hn & HT & HO & Hls).
    exists 0%nat, s', (<[this := xs]> (<[other := []]> rho)).
    split; [done|]. by apply (wf_handover s s' rho this other xs).
  - destruct Hpre as (T & O & HT & HO & Hen).
    destruct (decide (this = other)) as [->|Hne].
    + exists 0%nat, s, rho. split; [apply move_assign_self|done].
    + destruct (proj1 (D other) (ex_intro _ O HO)) as [xs Ho].
      destruct (move_assign_spec s this other xs T O (R other xs Ho) HT HO
                  Hen Hne) as (s' & E & Hn & HT' & HO' & Hls).
      exists 0%nat, s', (<[this := xs]> (<[other := []]> rho)).
      split; [done|]. by apply (wf_handover s s' rho this other xs).
  - destruct Hpre as (Ht & [xs Ho]).
    assert (Hne : this <> other) by congruence.
    pose proof (R other xs Ho) as HO. pose proof HO as (_ & _ & _ & _ & _ & _ & Hd).
    destruct (convert_ctor_spec s this other enable xs 1 HO Hne ltac:(lia))
      as (s' & E & HT' & HO' & Hpres & Hls).
    exists 1%nat, s', (<[this := take 1 xs]> (<[other := drop 1 xs]> rho)).
    split; [done|].
    apply (wf_two s s' rho xs); try done.
    + apply subseteq_take.
    + apply subseteq_drop.
    + by apply take_drop_disjoint.
    + intros l' zs H1 H2 Hz y Hy. by apply (wf_off s rho other xs l' zs y).
  - destruct Hpre as (xs & ys & Ht & Hr & Hne & Hfit).
    assert (Hdisj : xs ## ys) by (apply (J rhs this); done).
    destruct (append_spec s this rhs xs ys (length xs) (R rhs xs Hr)
                (R this ys Ht) ltac:(done) Hdisj Hfit ltac:(lia))
      as (s' & E & HR' & HT' & F).
    exists (length xs), s', (<[rhs := []]> (<[this := ys ++ xs]> rho)).
    split; [done|].
    destruct (frame_pres _ _ _ _ F) as [Hls Hpres].
    apply (wf_two s s' rho (xs ++ ys)); try done.
    + intros l' H1 H2. apply Hls.
      intros [->|[->|[]%elem_of_nil]%elem_of_cons]%elem_of_cons; done.
    + intros l' zs H1 H2. apply Hpres.
      intros [->|[->|[]%elem_of_nil]%elem_of_cons]%elem_of_cons; done.
    + by intros y []%elem_of_nil.
    + sub_list.
    + by intros y []%elem_of_nil.
    + intros l' zs H1 H2 Hz y Hy [Hy'|Hy']%elem_of_app.
      * by apply (wf_off s rho rhs xs l' zs y).
      * by apply (wf_off s rho this ys l' zs y).
  - destruct Hpre as (xs & ys & L & R0 & Ht & Hl & Hr & Hne & HL & HR & Hsize).
    assert (Hdisj : xs ## ys) by (apply (J lhs rhs); done).
    assert (Ht1 : tmp <> lhs) by congruence.
    assert (Ht2 : tmp <> rhs) by congruence.
    destruct (concat_spec s tmp lhs rhs xs ys L R0
                (Nat.max (length xs) (length ys)) (R lhs xs Hl) (R rhs ys Hr)
                HL HR Hne Ht1 Ht2 Hdisj Hsize ltac:(lia) ltac:(lia))
      as (s' & E & HT' & HL' & HR' & _ & Hpres & Hls).
    exists (Nat.max (length xs) (length ys)), s',
      (<[tmp := xs ++ ys]> (<[lhs := []]> (<[rhs := []]> rho))).
    split; [done|].
    assert (Hout : forall l', l' ∉ [tmp; lhs; rhs] ->
                              l' <> tmp /\ l' <> lhs /\ l' <> rhs).
    { intros l' Hl'. split_and!; intros ->; apply Hl';
        [left|right; left|right; right; left]. }
    apply (wf_step s s' rho _ (xs ++ ys) [tmp; lhs; rhs] W).
    + intros l' (? & ? & ?)%Hout. by apply Hls.
    + intros l' zs (? & ? & ?)%Hout Hz. by apply Hpres.
    + intros l' (? & ? & ?)%Hout. by rewrite !lookup_insert_ne.
    + intros l'
        [->|[->|[->|[]%elem_of_nil]%elem_of_cons]%elem_of_cons]%elem_of_cons.
      * exists (xs ++ ys). by rewrite lookup_insert_eq.
      * exists []. rewrite lookup_insert_ne, lookup_insert_eq by done.
        split_and!; [done|done|by intros y []%elem_of_nil].
      * exists []. rewrite !lookup_insert_ne, lookup_insert_eq by done.
        split_and!; [done|done|by intros y []%elem_of_nil].
    + intros l' zs (? & ? & ?)%Hout Hz y Hy [Hy'|Hy']%elem_of_app.
      * by apply (wf_off s rho lhs xs l' zs y).
      * by apply (wf_off s rho rhs ys l' zs y).
    + intros a b xa xb Ha Hb Hab Hxa Hxb.
      assert (Hcase : forall c zc, c ∈ [tmp; lhs; rhs] ->
                <[tmp := xs ++ ys]> (<[lhs := []]> (<[rhs := []]> rho)) !! c
                  = Some zc -> c = tmp \/ zc = []).
      { intros c zc
          [->|[->|[->|[]%elem_of_nil]%elem_of_cons]%elem_of_cons]%elem_of_cons.
        - by left.
        - rewrite lookup_insert_ne, lookup_insert_eq by done.
          intros [= <-]. by right.
        - rewrite !lookup_insert_ne, lookup_insert_eq by done.
          intros [= <-]. by right. }
      destruct (Hcase a xa Ha Hxa) as [->| ->];
        destruct (Hcase b xb Hb Hxb) as [->| ->]; try done.
      * by intros y _ []%elem_of_nil.
      * by intros y []%elem_of_nil.
      * by intros y []%elem_of_nil.
Qed.
End Preservation.

(** C7, as stated, fails.  The specification puts no precondition on the
    element handed to a plain insertion (it is detached "from wherever it
    currently is ... including this one").  List [100] holds [1; 2; 3] and
    satisfies the invariant; after [InsertHead(3)] its counter is [4] while
    a walk from its head meets three elements. *)
Lemma invariant_counterexample :
  list_inv st_two 100 /\
  exists s',
    InsertHead 100 (Some 3%nat) st_two = Some (Some 3%nat, s') /\
    GetLength 100 s' = Some (4, s') /\
    forward 3 s' 100 = Some [3%nat; 1%nat; 2%nat] /\
    ~ list_inv s' 100.
Proof.
  split; [apply (Repr_list_inv st_two 100 [1%nat; 2%nat; 3%nat]);
          concrete_Repr|].
  eexists. split; [vm_compute; reflexivity|].
  split_and!; try (vm_compute; reflexivity).
  intros (L & HL & _ & Hlen).
  vm_compute in HL. injection HL as <-.
  destruct (Hlen eq_refl) as (fuel & ys & Hw & Hl). cbn in Hl.
  destruct fuel as [|[|[|[|fuel]]]]; vm_compute in Hw; try discriminate Hw.
  all: injection Hw as <-; discriminate Hl.
Qed.

(** C7, amended.  From a store in which every list object holds a
    sequence of its own ([wf]), each public operation called within its
    precondition ([pre]: a plain insertion is given a detached element, a
    splice an element of the other list, a removal an element of the
    list) returns, and afterwards the store is again of that kind; every
    list object then has head null exactly when last is, and a counter,
    when it tracks its length, equal to the number of elements reachable
    from head along [next]. *)
Theorem operations_preserve_invariant (s : state)
    (rho : gmap nat (list nat)) (o : op) :
  wf s rho -> pre s rho o ->
  exists fuel s',
    run_op fuel o s = Some (tt, s') /\
    (exists rho', wf s' rho') /\
    (forall l, is_Some (lists s' !! l) -> list_inv s' l).
Proof.
  intros W Hpre.
  destruct (op_wf s rho o W Hpre) as (fuel & s' & rho' & E & W').
  exists fuel, s'. split_and!; [done|by exists rho'|].
  intros l. by apply (wf_list_inv s' rho').
Qed.

Lemma operations_preserve_invariant_witness :
  wf st_two rho_two /\
  exists fuel s',
    run_op fuel (OInsertNext_from 101 (Some 4%nat) 2 100) st_two
      = Some (tt, s') /\
    (forall l, is_Some (lists s' !! l) -> list_inv s' l).
Proof.
  assert (Hinv : forall l xs, rho_two !! l = Some xs ->
            (l = 100%nat /\ xs = [1%nat; 2%nat; 3%nat]) \/
            (l = 101%nat /\ xs = [4%nat; 5%nat])).
  { intros l xs. unfold rho_two.
    rewrite lookup_insert_Some, lookup_singleton_Some. intuition. }
  assert (W : wf st_two rho_two).
  { split_and!.
    - intros l. unfold st_two, rho_two. cbn.
      destruct (decide (l = 100%nat)) as [->|H0];
        [split; intros _; eexists; vm_compute; reflexivity|].
      destruct (decide (l = 101%nat)) as [->|H1];
        [split; intros _; eexists; vm_compute; reflexivity|].
      rewrite !lookup_insert_ne by congruence.
      rewrite lookup_empty, lookup_singleton_ne by congruence.
      split; intros [? [=]].
    - intros l xs [[-> ->]|[-> ->]]%Hinv; concrete_Repr.
    - intros l1 l2 xs ys Hne [[-> ->]|[-> ->]]%Hinv [[-> ->]|[-> ->]]%Hinv;
        try done; concrete_disjoint. }
  split; [exact W|].
  destruct (operations_preserve_invariant st_two rho_two
              (OInsertNext_from 101 (Some 4%nat) 2 100) W)
    as (fuel & s' & E & _ & Hl).
  - exists [4%nat; 5%nat], [1%nat; 2%nat; 3%nat]. split_and!.
    + vm_compute. reflexivity.
    + vm_compute. reflexivity.
    + discriminate.
    + by_decide.
    + right. exists 4%nat. split; [reflexivity|by_decide].
    + intros L [= <-] _. vm_compute. reflexivity.
  - exists fuel, s'. split; [exact E|exact Hl].
Defined.

(** * Further properties of the code *)

(** ** Where the insertions put the element *)

(** [InsertNext(c, x)] with [x] detached: the list is traversed with [x]
    right after [c], forwards and backwards; its length is one more; its
    head is the same; its last element is [x] exactly when [c] was the
    last one. *)
Theorem InsertNext_places_after (s : state) (l : nat) (k1 : list nat)
    (c : nat) (k2 : list nat) (x : nat) :
  Repr s l (k1 ++ c :: k2) ->
  nodes s !! x = Some detached -> x ∉ k1 ++ c :: k2 -> room s l 1 ->
  exists s',
    InsertNext l (Some c) (Some x) s = Some (Some x, s') /\
    forward (S (length (k1 ++ c :: k2))) s' l = Some (k1 ++ c :: x :: k2) /\
    backward (S (length (k1 ++ c :: k2))) s' l
      = Some (reverse (k1 ++ c :: x :: k2)) /\
    (forall n, GetLength l s = Some (n, s) ->
               GetLength l s' = Some (n + 1, s')) /\
    option_map fst (GetHead l s') = option_map fst (GetHead l s) /\
    GetLast l s' = Some (Some (if bool_decide (k2 = []) then x
                               else default c (last k2)), s').
Proof.
  intros HR Hx Hnin Hroom.
  destruct (InsertNext_spec s l k1 c k2 x HR Hx Hnin Hroom)
    as (s' & E & HR' & F).
  assert (Hlen : length (k1 ++ c :: x :: k2) = S (length (k1 ++ c :: k2)))
    by (rewrite !length_app; simpl; lia).
  exists s'. split_and!.
  - done.
  - apply Repr_forward; [done|lia].
  - apply Repr_backward; [done|lia].
  - intros n HG. rewrite (GetLength_change _ _ _ _ _ _ _ _ F HR HR' HG).
    repeat f_equal. lia.
  - rewrite (GetHead_Repr _ _ _ HR), (GetHead_Repr _ _ _ HR'). simpl.
    by destruct k1.
  - rewrite (GetLast_Repr _ _ _ HR'), last_app_cons, last_cons_default.
    simpl. destruct k2 as [|b k2]; [done|].
    rewrite bool_decide_eq_false_2 by done. by rewrite last_cons_default.
Qed.

Lemma InsertNext_places_after_witness :
  exists s',
    InsertNext 100 (Some 2%nat) (Some 6%nat) st_two = Some (Some 6%nat, s') /\
    forward 4 s' 100 = Some [1%nat; 2%nat; 6%nat; 3%nat] /\
    GetLength 100 s' = Some (4, s').
Proof.
  destruct (InsertNext_places_after st_two 100 [1%nat] 2%nat [3%nat] 6%nat)
    as (s' & E & Hf & _ & Hg & _).
  - concrete_Repr.
  - vm_compute. reflexivity.
  - by_decide.
  - intros L [= <-] _. vm_compute. reflexivity.
  - exists s'. split_and!; [exact E | exact Hf | by apply (Hg 3)].
Defined.

(** [InsertPrev(c, x)] with [x] detached: the list is traversed with [x]
    right before [c]; its length is one more; its last element is the
    same; its head is [x] exactly when [c] was the head. *)
Theorem InsertPrev_places_before (s : state) (l : nat) (k1 : list nat)
    (c : nat) (k2 : list nat) (x : nat) :
  Repr s l (k1 ++ c :: k2) ->
  nodes s !! x = Some detached -> x ∉ k1 ++ c :: k2 -> room s l 1 ->
  exists s',
    InsertPrev l (Some c) (Some x) s = Some (Some x, s') /\
    forward (S (length (k1 ++ c :: k2))) s' l = Some (k1 ++ x :: c :: k2) /\
    backward (S (length (k1 ++ c :: k2))) s' l
      = Some (reverse (k1 ++ x :: c :: k2)) /\
    (forall n, GetLength l s = Some (n, s) ->
               GetLength l s' = Some (n + 1, s')) /\
    GetHead l s' = Some (Some (default x (head k1)), s') /\
    option_map fst (GetLast l s') = option_map fst (GetLast l s).
Proof.
  intros HR Hx Hnin Hroom.
  destruct (InsertPrev_spec s l k1 c k2 x HR Hx Hnin Hroom)
    as (s' & E & HR' & F).
  assert (Hlen : length (k1 ++ x :: c :: k2) = S (length (k1 ++ c :: k2)))
    by (rewrite !length_app; simpl; lia).
  exists s'. split_and!.
  - done.
  - apply Repr_forward; [done|lia].
  - apply Repr_backward; [done|lia].
  - intros n HG. rewrite (GetLength_change _ _ _ _ _ _ _ _ F HR HR' HG).
    repeat f_equal. lia.
  - by rewrite (GetHead_Repr _ _ _ HR'), head_app_cons.
  - rewrite (GetLast_Repr _ _ _ HR), (GetLast_Repr _ _ _ HR'). simpl.
    by rewrite !last_app_cons, !last_cons_default.
Qed.

Lemma InsertPrev_places_before_witness :
  exists s',
    InsertPrev 100 (Some 1%nat) (Some 6%nat) st_two = Some (Some 6%nat, s') /\
    forward 4 s' 100 = Some [6%nat; 1%nat; 2%nat; 3%nat] /\
    GetHead 100 s' = Some (Some 6%nat, s').
Proof.
  destruct (InsertPrev_places_before st_two 100 [] 1%nat [2%nat; 3%nat] 6%nat)
    as (s' & E & Hf & _ & _ & Hh & _).
  - concrete_Repr.
  - vm_compute. reflexivity.
  - by_decide.
  - intros L [= <-] _. vm_compute. reflexivity.
  - exists s'. split_and!; [exact E | exact Hf | exact Hh].
Defined.

(** [InsertHead(x)] and [InsertLast(x)] with [x] detached, on any list,
    empty or not: [x] becomes the first, respectively the last, element and
    the rest of the traversal is as before, from [begin()] and from
    [rbegin()] alike. *)
Theorem InsertHead_InsertLast_ends (s : state) (l : nat) (xs : list nat)
    (x : nat) :
  Repr s l xs ->
  nodes s !! x = Some detached -> x ∉ xs -> room s l 1 ->
  (exists s',
      InsertHead l (Some x) s = Some (Some x, s') /\
      forward (S (length xs)) s' l = Some (x :: xs) /\
      backward (S (length xs)) s' l = Some (reverse xs ++ [x]) /\
      GetHead l s' = Some (Some x, s') /\
      (forall n, GetLength l s = Some (n, s) ->
                 GetLength l s' = Some (n + 1, s'))) /\
  (exists s',
      InsertLast l (Some x) s = Some (Some x, s') /\
      forward (S (length xs)) s' l = Some (xs ++ [x]) /\
      backward (S (length xs)) s' l = Some (x :: reverse xs) /\
      GetLast l s' = Some (Some x, s') /\
      (forall n, GetLength l s = Some (n, s) ->
                 GetLength l s' = Some (n + 1, s'))).
Proof.
  intros HR Hx Hnin Hroom. split.
  - destruct (InsertHead_spec s l xs x HR Hx Hnin Hroom) as (s' & E & HR' & F).
    exists s'. split_and!.
    + done.
    + apply Repr_forward; [done|simpl; lia].
    + rewrite <- reverse_cons. apply Repr_backward; [done|simpl; lia].
    + by rewrite (GetHead_Repr _ _ _ HR').
    + intros n HG. rewrite (GetLength_change _ _ _ _ _ _ _ _ F HR HR' HG).
      repeat f_equal. simpl. lia.
  - destruct (InsertLast_spec s l xs x HR Hx Hnin Hroom) as (s' & E & HR' & F).
    exists s'. split_and!.
    + done.
    + apply Repr_forward; [done|rewrite length_app; simpl; lia].
    + rewrite <- reverse_snoc.
      apply Repr_backward; [done|rewrite length_app; simpl; lia].
    + by rewrite (GetLast_Repr _ _ _ HR'), last_snoc.
    + intros n HG. rewrite (GetLength_change _ _ _ _ _ _ _ _ F HR HR' HG).
      repeat f_equal. rewrite length_app. simpl. lia.
Qed.

Lemma InsertHead_InsertLast_ends_witness :
  (exists s',
      InsertHead 100 (Some 6%nat) st_two = Some (Some 6%nat, s') /\
      forward 4 s' 100 = Some [6%nat; 1%nat; 2%nat; 3%nat] /\
      backward 4 s' 100 = Some [3%nat; 2%nat; 1%nat; 6%nat]) /\
  (exists s',
      InsertLast 100 (Some 6%nat) st_two = Some (Some 6%nat, s') /\
      forward 4 s' 100 = Some [1%nat; 2%nat; 3%nat; 6%nat] /\
      backward 4 s' 100 = Some [6%nat; 3%nat; 2%nat; 1%nat]).
Proof.
  destruct (InsertHead_InsertLast_ends st_two 100 [1%nat; 2%nat; 3%nat] 6%nat)
    as [(s1 & E1 & Hf1 & Hb1 & _) (s2 & E2 & Hf2 & Hb2 & _)].
  - concrete_Repr.
  - vm_compute. reflexivity.
  - by_decide.
  - intros L [= <-] _. vm_compute. reflexivity.
  - split; [exists s1|exists s2]; split_and!; assumption.
Defined.

Lemma Insert_empty_any_cur (s : state) (l : nat) (x : nat) :
  Repr s l [] -> nodes s !! x = Some detached ->
  exists s', forall cur,
    InsertPrev l cur (Some x) s = Some (Some x, s') /\
    InsertNext l cur (Some x) s = Some (Some x, s').
Proof.
  destruct s as [h ls]. intros (L & HL & Hh & Hl & _) Hx. cbn in HL, Hx.
  pose proof (Detach_detached h x Hx) as HD.
  destruct L as [en hd la len]. cbn in Hh, Hl. subst hd la.
  destruct en; eexists; intros cur; split; exec_list; reflexivity.
Qed.

(** On an empty list [InsertPrev] and [InsertNext] do not look at
    [curNode], which may be null or any address: both make [x] the only
    element, head and last at once, and end in the same store whatever
    [curNode] is. *)
Theorem Insert_into_empty_ignores_curNode (s : state) (l : nat) (x : nat) :
  Repr s l [] -> nodes s !! x = Some detached -> room s l 1 ->
  exists s',
    (forall curNode,
        InsertPrev l curNode (Some x) s = Some (Some x, s') /\
        InsertNext l curNode (Some x) s = Some (Some x, s')) /\
    forward 1 s' l = Some [x] /\
    GetHead l s' = Some (Some x, s') /\ GetLast l s' = Some (Some x, s') /\
    IsEmpty l s' = Some (false, s').
Proof.
  intros HR Hx Hroom.
  destruct (Insert_empty_any_cur s l x HR Hx) as (s' & Hany).
  destruct (Insert_empty_spec s l None x HR Hx Hroom)
    as (s1 & E1 & _ & HR1 & _).
  destruct (Hany None) as [_ E]. rewrite E in E1. injection E1 as <-.
  exists s'. split_and!.
  - done.
  - by apply Repr_forward.
  - by rewrite (GetHead_Repr _ _ _ HR1).
  - by rewrite (GetLast_Repr _ _ _ HR1).
  - by rewrite (IsEmpty_Repr _ _ _ HR1).
Qed.

Lemma Insert_into_empty_ignores_curNode_witness :
  exists s',
    InsertPrev 7 None (Some 1%nat)
      (mkState (fresh_nodes [1%nat]) {[ 7%nat := mkList true None None 0 ]})
      = Some (Some 1%nat, s') /\
    InsertNext 7 (Some 9%nat) (Some 1%nat)
      (mkState (fresh_nodes [1%nat]) {[ 7%nat := mkList true None None 0 ]})
      = Some (Some 1%nat, s') /\
    forward 1 s' 7 = Some [1%nat].
Proof.
  destruct (Insert_into_empty_ignores_curNode
              (mkState (fresh_nodes [1%nat])
                 {[ 7%nat := mkList true None None 0 ]}) 7 1%nat)
    as (s' & Hany & Hf & _).
  - exists (mkList true None None 0).
    split; [vm_compute; reflexivity|].
    split; [reflexivity|]. split; [reflexivity|].
    split; [intros _; split; vm_compute; reflexivity|].
    split; [exact I|apply NoDup_nil_2].
  - vm_compute. reflexivity.
  - intros L [= <-] _. vm_compute. reflexivity.
  - exists s'. split_and!;
      [exact (proj1 (Hany None)) | exact (proj2 (Hany (Some 9%nat)))
      | exact Hf].
Defined.

(** ** The other splices *)

(** The counters of the two lists of a splice. *)
Lemma splice_lengths X (s s' : state) (l other : nat) l1 (x : nat) l2 ks ks' :
  frame X [other; l] s s' ->
  Repr s other (l1 ++ x :: l2) -> Repr s' other (l1 ++ l2) ->
  Repr s l ks -> Repr s' l ks' -> length ks' = S (length ks) ->
  (forall n, GetLength other s = Some (n, s) ->
             GetLength other s' = Some (n - 1, s')) /\
  (forall n, GetLength l s = Some (n, s) ->
             GetLength l s' = Some (n + 1, s')).
Proof.
  intros F HO HO' HL HL' Hlen. split; intros n HG.
  - rewrite (GetLength_change _ _ _ _ _ _ _ _ F HO HO' HG).
    repeat f_equal. rewrite !length_app. simpl. lia.
  - rewrite (GetLength_change _ _ _ _ _ _ _ _ F HL HL' HG).
    repeat f_equal. lia.
Qed.

(** [InsertPrev(c, x, other)], [InsertHead(x, other)] and
    [InsertLast(x, other)], with [x] held by [other] and the target a
    different list: [other] is traversed without [x], from [begin()] and
    from [rbegin()] alike, and is one shorter; the target is one longer and
    has [x] right before [c], first, or last, in both directions. *)
Theorem splices_place_the_element (s : state) (l other : nat)
    (l1 : list nat) (x : nat) (l2 ks : list nat) :
  Repr s other (l1 ++ x :: l2) -> Repr s l ks -> other <> l ->
  (l1 ++ x :: l2) ## ks -> room s l 1 ->
  (forall k1 c k2, ks = k1 ++ c :: k2 ->
     exists s',
       InsertPrev_from l (Some c) (Some x) other s = Some (Some x, s') /\
       forward (S (length ks)) s' l = Some (k1 ++ x :: c :: k2) /\
       backward (S (length ks)) s' l = Some (reverse (k1 ++ x :: c :: k2)) /\
       forward (length (l1 ++ l2)) s' other = Some (l1 ++ l2) /\
       backward (length (l1 ++ l2)) s' other = Some (reverse (l1 ++ l2)) /\
       (forall n, GetLength other s = Some (n, s) ->
                  GetLength other s' = Some (n - 1, s')) /\
       (forall n, GetLength l s = Some (n, s) ->
                  GetLength l s' = Some (n + 1, s'))) /\
  (exists s',
      InsertHead_from l (Some x) other s = Some (Some x, s') /\
      forward (S (length ks)) s' l = Some (x :: ks) /\
      backward (S (length ks)) s' l = Some (reverse (x :: ks)) /\
      forward (length (l1 ++ l2)) s' other = Some (l1 ++ l2) /\
      backward (length (l1 ++ l2)) s' other = Some (reverse (l1 ++ l2)) /\
      (forall n, GetLength other s = Some (n, s) ->
                 GetLength other s' = Some (n - 1, s')) /\
      (forall n, GetLength l s = Some (n, s) ->
                 GetLength l s' = Some (n + 1, s'))) /\
  (exists s',
      InsertLast_from l (Some x) other s = Some (Some x, s') /\
      forward (S (length ks)) s' l = Some (ks ++ [x]) /\
      backward (S (length ks)) s' l = Some (reverse (ks ++ [x])) /\
      forward (length (l1 ++ l2)) s' other = Some (l1 ++ l2) /\
      backward (length (l1 ++ l2)) s' other = Some (reverse (l1 ++ l2)) /\
      (forall n, GetLength other s = Some (n, s) ->
                 GetLength other s' = Some (n - 1, s')) /\
      (forall n, GetLength l s = Some (n, s) ->
                 GetLength l s' = Some (n + 1, s'))).
Proof.
  intros HO HL Hne Hdisj Hroom. split_and!.
  - intros k1 c k2 ->.
    destruct (InsertPrev_from_spec s l other l1 x l2 k1 c k2 HO HL Hne Hdisj
                Hroom) as (s' & E & HO' & HL' & F).
    assert (Hlen : length (k1 ++ x :: c :: k2) = S (length (k1 ++ c :: k2)))
      by (rewrite !length_app; simpl; lia).
    destruct (splice_lengths _ _ _ _ _ _ _ _ _ _ F HO HO' HL HL' Hlen).
    exists s'. split_and!; try done;
      first [apply Repr_forward | apply Repr_backward]; (done || lia).
  - destruct (InsertHead_from_spec s l other l1 x l2 ks HO HL Hne Hdisj Hroom)
      as (s' & E & HO' & HL' & F).
    destruct (splice_lengths _ _ _ _ _ _ _ _ _ _ F HO HO' HL HL' eq_refl).
    exists s'. split_and!; try done;
      first [apply Repr_forward | apply Repr_backward]; done.
  - destruct (InsertLast_from_spec s l other l1 x l2 ks HO HL Hne Hdisj Hroom)
      as (s' & E & HO' & HL' & F).
    assert (Hlen : length (ks ++ [x]) = S (length ks))
      by (rewrite length_app; simpl; lia).
    destruct (splice_lengths _ _ _ _ _ _ _ _ _ _ F HO HO' HL HL' Hlen).
    exists s'. split_and!; try done;
      first [apply Repr_forward | apply Repr_backward]; (done || lia).
Qed.

Lemma splices_place_the_element_witness :
  (exists s',
      InsertPrev_from 101 (Some 5%nat) (Some 2%nat) 100 st_two
        = Some (Some 2%nat, s') /\
      forward 3 s' 101 = Some [4%nat; 2%nat; 5%nat] /\
      backward 3 s' 101 = Some [5%nat; 2%nat; 4%nat] /\
      forward 2 s' 100 = Some [1%nat; 3%nat] /\
      backward 2 s' 100 = Some [3%nat; 1%nat]) /\
  (exists s',
      InsertLast_from 101 (Some 2%nat) 100 st_two = Some (Some 2%nat, s') /\
      forward 3 s' 101 = Some [4%nat; 5%nat; 2%nat]).
Proof.
  destruct (splices_place_the_element st_two 101 100 [1%nat] 2%nat [3%nat]
              [4%nat; 5%nat]) as (Hp & _ & (s2 & E2 & Hf2 & _)).
  - concrete_Repr.
  - concrete_Repr.
  - discriminate.
  - concrete_disjoint.
  - intros L [= <-] _. vm_compute. reflexivity.
  - split.
    + destruct (Hp [4%nat] 5%nat [] eq_refl)
        as (s1 & E1 & Hf1 & Hb1 & Ho1 & Hob1 & _).
      exists s1. split_and!; assumption.
    + exists s2. split; assumption.
Defined.

(** ** Splicing within one list *)




(** ** Removal at the ends, and from an empty list *)

(** [RemoveHead()] and [RemoveLast()] on a list that is not empty take
    out the first, respectively the last, element and leave it detached;
    the rest is traversed as before, from [begin()] and from [rbegin()]
    alike, and the length is one less. *)
Theorem RemoveHead_RemoveLast_ends (s : state) (l : nat) (xs : list nat) :
  Repr s l xs ->
  (forall x r, xs = x :: r ->
     exists s',
       RemoveHead l s = Some (tt, s') /\
       forward (length r) s' l = Some r /\
       backward (length r) s' l = Some (reverse r) /\
       nodes s' !! x = Some detached /\
       (forall n, GetLength l s = Some (n, s) ->
                  GetLength l s' = Some (n - 1, s'))) /\
  (forall r x, xs = r ++ [x] ->
     exists s',
       RemoveLast l s = Some (tt, s') /\
       forward (length r) s' l = Some r /\
       backward (length r) s' l = Some (reverse r) /\
       nodes s' !! x = Some detached /\
       (forall n, GetLength l s = Some (n, s) ->
                  GetLength l s' = Some (n - 1, s'))).
Proof.
  intros HR. split.
  - intros x r ->.
    destruct (Remove_spec s l [] x r HR) as (s' & E & HR' & Hx & F).
    simpl in HR'. exists s'. split_and!.
    + unfold RemoveHead.
      by rewrite (bind_run _ _ _ _ _ (get_head_Repr _ _ _ HR)).
    + by apply Repr_forward.
    + by apply Repr_backward.
    + done.
    + intros n HG. rewrite (GetLength_change _ _ _ _ _ _ _ _ F HR HR' HG).
      repeat f_equal. simpl. lia.
  - intros r x ->.
    destruct (Remove_spec s l r x [] HR) as (s' & E & HR' & Hx & F).
    rewrite app_nil_r in HR'. exists s'. split_and!.
    + unfold RemoveLast.
      rewrite (bind_run _ _ _ _ _ (GetLast_Repr _ _ _ HR)).
      by rewrite last_snoc.
    + by apply Repr_forward.
    + by apply Repr_backward.
    + done.
    + intros n HG. rewrite (GetLength_change _ _ _ _ _ _ _ _ F HR HR' HG).
      repeat f_equal. rewrite length_app. simpl. lia.
Qed.

Lemma RemoveHead_RemoveLast_ends_witness :
  (exists s', RemoveHead 100 st_two = Some (tt, s') /\
              forward 2 s' 100 = Some [2%nat; 3%nat] /\
              backward 2 s' 100 = Some [3%nat; 2%nat]) /\
  (exists s', RemoveLast 100 st_two = Some (tt, s') /\
              forward 2 s' 100 = Some [1%nat; 2%nat] /\
              backward 2 s' 100 = Some [2%nat; 1%nat]).
Proof.
  destruct (RemoveHead_RemoveLast_ends st_two 100 [1%nat; 2%nat; 3%nat])
    as [Hh Hl]; [concrete_Repr|].
  split.
  - destruct (Hh 1%nat [2%nat; 3%nat] eq_refl) as (s' & E & Hf & Hb & _).
    exists s'. by split_and!.
  - destruct (Hl [1%nat; 2%nat] 3%nat eq_refl) as (s' & E & Hf & Hb & _).
    exists s'. by split_and!.
Defined.

(** The removals have no guard for the empty list: [RemoveHead()],
    [RemoveLast()] and [Remove(nullptr)] on an empty list step the null
    head cursor, which is undefined behaviour (a failure of the model). *)
Theorem removal_from_empty_list_is_undefined (s : state) (l : nat) :
  Repr s l [] ->
  RemoveHead l s = None /\ RemoveLast l s = None /\ Remove l None s = None.
Proof.
  destruct s as [h ls]. intros (L & HL & Hh & Hl & _). cbn in HL.
  destruct L as [en hd la len]. cbn in Hh, Hl. subst hd la.
  split_and!; exec_list; reflexivity.
Qed.

Lemma removal_from_empty_list_is_undefined_witness :
  RemoveHead 7 (mkState ∅ {[ 7%nat := mkList true None None 0 ]}) = None /\
  RemoveLast 7 (mkState ∅ {[ 7%nat := mkList true None None 0 ]}) = None.
Proof.
  destruct (removal_from_empty_list_is_undefined
              (mkState ∅ {[ 7%nat := mkList true None None 0 ]}) 7)
    as (Hh & Hl & _).
  - exists (mkList true None None 0).
    split; [vm_compute; reflexivity|].
    split; [reflexivity|]. split; [reflexivity|].
    split; [intros _; split; vm_compute; reflexivity|].
    split; [exact I|apply NoDup_nil_2].
  - split; assumption.
Defined.

(** [Remove] does not check that the list holds the element.  Called on
    an empty length-tracking list with a detached element it returns; the
    list is still empty but its counter has wrapped to [SIZE_MAX]. *)
Theorem Remove_of_foreign_element_wraps_length (s : state) (l : nat)
    (L : IntrusiveList) (x : nat) :
  Repr s l [] -> lists s !! l = Some L -> HasLength L = true ->
  nodes s !! x = Some detached ->
  exists s',
    Remove l (Some x) s = Some (tt, s') /\
    IsEmpty l s' = Some (true, s') /\
    GetLength l s' = Some (size_max - 1, s') /\
    nodes s' = nodes s.
Proof.
  destruct s as [h ls]. intros (L' & HL' & Hh & Hl & Hn & _) HL Hen Hx.
  cbn in HL, HL', Hx. rewrite HL in HL'. injection HL' as <-.
  pose proof (Detach_detached h x Hx) as HD.
  destruct L as [en hd la len]. cbn in Hh, Hl, Hen. subst hd la en.
  destruct (Hn eq_refl) as [Hlen _]. cbn in Hlen. subst len.
  eexists. split; [exec_list; reflexivity|].
  split_and!; [exec_list; reflexivity|exec_list; reflexivity|done].
Qed.

Lemma Remove_of_foreign_element_wraps_length_witness :
  exists s',
    Remove 7 (Some 1%nat)
      (mkState (fresh_nodes [1%nat]) {[ 7%nat := mkList true None None 0 ]})
      = Some (tt, s') /\
    GetLength 7 s' = Some (18446744073709551615, s').
Proof.
  destruct (Remove_of_foreign_element_wraps_length
              (mkState (fresh_nodes [1%nat])
                 {[ 7%nat := mkList true None None 0 ]}) 7
              (mkList true None None 0) 1%nat)
    as (s' & E & _ & Hg & _).
  - exists (mkList true None None 0).
    split; [vm_compute; reflexivity|].
    split; [reflexivity|]. split; [reflexivity|].
    split; [intros _; split; vm_compute; reflexivity|].
    split; [exact I|apply NoDup_nil_2].
  - vm_compute. reflexivity.
  - reflexivity.
  - vm_compute. reflexivity.
  - exists s'. split; [exact E|exact Hg].
Defined.

(** ** Round trips *)

Lemma chain_determines (h h' : gmap nat IntrusiveNode) (xs : list nat) :
  forall pv nx, chain h pv xs nx -> chain h' pv xs nx ->
                forall y, y ∈ xs -> h' !! y = h !! y.
Proof.
  induction xs as [|x xs IH]; intros pv nx H1 H2 y Hy.
  - by apply elem_of_nil in Hy.
  - simpl in H1, H2. destruct H1 as [Hx H1], H2 as [Hx' H2].
    apply elem_of_cons in Hy as [->|Hy]; [congruence|].
    by apply (IH (Some x) nx).
Qed.



(** [Detach] is idempotent: on an element of a well-linked sequence, a
    second [Detach] changes nothing. *)
Theorem Detach_twice (h : gmap nat IntrusiveNode)
    (ls : gmap nat IntrusiveList) (l1 : list nat) (x : nat) (l2 : list nat) :
  chain h None (l1 ++ x :: l2) None -> NoDup (l1 ++ x :: l2) ->
  exists s',
    Detach (Some x) (mkState h ls) = Some (tt, s') /\
    (Detach (Some x) ;; Detach (Some x)) (mkState h ls) = Some (tt, s') /\
    nodes s' !! x = Some detached.
Proof.
  intros Hc Hd.
  destruct (Detach_chain h l1 x l2 Hc Hd) as (h' & HD & _ & Hx & _).
  exists (mkState h' ls). split_and!; [done| |done].
  rewrite (bind_run _ _ _ _ _ (HD ls)). by apply Detach_detached.
Qed.

Lemma Detach_twice_witness :
  exists s',
    Detach (Some 2%nat) st_two = Some (tt, s') /\
    (Detach (Some 2%nat) ;; Detach (Some 2%nat)) st_two = Some (tt, s').
Proof.
  destruct (Detach_twice st_nodes (lists st_two) [1%nat] 2%nat [3%nat])
    as (s' & E1 & E2 & _).
  - simpl. split_and!; first [exact I | vm_compute; reflexivity].
  - by_decide.
  - exists s'. split; [exact E1|exact E2].
Defined.

(** ** Moving a whole list *)

Lemma move_ctor_objects (s : state) (this other : nat) (O : IntrusiveList) :
  lists s !! other = Some O -> this <> other ->
  exists s',
    move_ctor this other s = Some (tt, s') /\
    lists s' !! this
      = Some (mkList (HasLength O) (l_head O) (l_last O) (l_length O)) /\
    lists s' !! other
      = Some (mkList (HasLength O) None None
                (if HasLength O then 0 else l_length O)).
Proof.
  destruct s as [h ls]. cbn. intros HO Hne. destruct O as [[] hd la len].
  all: eexists; split; [exec_list; reflexivity|].
  all: cbn [lists]; split; by lookups.
Qed.

(** The move constructor: the new list object is traversed as the source
    was, forwards and backwards, and has the source's switch and length;
    the source is left empty, with length zero; no element object is
    written. *)
Theorem move_ctor_transfers (s : state) (this other : nat) (xs : list nat)
    (O : IntrusiveList) :
  Repr s other xs -> lists s !! other = Some O -> this <> other ->
  exists s' T,
    move_ctor this other s = Some (tt, s') /\
    nodes s' = nodes s /\
    forward (length xs) s' this = Some xs /\
    backward (length xs) s' this = Some (reverse xs) /\
    IsEmpty other s' = Some (true, s') /\
    forward 0 s' other = Some [] /\
    lists s' !! this = Some T /\ HasLength T = HasLength O /\
    (HasLength O = true ->
     GetLength this s' = Some (Z.of_nat (length xs), s') /\
     GetLength other s' = Some (0, s')).
Proof.
  intros HR HO Hne.
  destruct (move_ctor_spec s this other xs HR Hne)
    as (s' & E & Hn & HT & HO' & _).
  destruct (move_ctor_objects s this other O HO Hne) as (s1 & E1 & HL & HL').
  rewrite E in E1. injection E1 as <-.
  exists s', (mkList (HasLength O) (l_head O) (l_last O) (l_length O)).
  split_and!; try done.
  - by apply Repr_forward.
  - by apply Repr_backward.
  - by rewrite (IsEmpty_Repr _ _ _ HO').
  - by apply (Repr_forward s' other []).
  - intros Hen. split.
    + by apply (GetLength_Repr _ _ _ _ HT HL).
    + by apply (GetLength_Repr _ _ _ _ HO' HL').
Qed.

Lemma move_ctor_transfers_witness :
  exists s',
    move_ctor 102 100 st_two = Some (tt, s') /\
    forward 3 s' 102 = Some [1%nat; 2%nat; 3%nat] /\
    GetLength 102 s' = Some (3, s') /\
    GetLength 100 s' = Some (0, s').
Proof.
  destruct (move_ctor_transfers st_two 102 100 [1%nat; 2%nat; 3%nat]
              (mkList true (Some 1%nat) (Some 3%nat) 3))
    as (s' & T & E & _ & Hf & _ & _ & _ & _ & _ & Hlen).
  - concrete_Repr.
  - vm_compute; reflexivity.
  - discriminate.
  - destruct (Hlen eq_refl) as [H1 H2].
    exists s'. split_and!; assumption.
Defined.

Lemma move_assign_objects (s : state) (this other : nat)
    (T O : IntrusiveList) :
  lists s !! this = Some T -> lists s !! other = Some O -> this <> other ->
  exists s' T' O',
    move_assign this other s = Some (tt, s') /\
    lists s' !! this = Some T' /\ HasLength T' = HasLength T /\
    lists s' !! other = Some O' /\ HasLength O' = HasLength O.
Proof.
  destruct s as [h ls]. cbn. intros HT HO Hne.
  unfold move_assign. rewrite bool_decide_eq_false_2 by done.
  destruct T as [[] thd tla tlen], O as [[] hd la len].
  all: eexists _, _, _; split; [exec_list; reflexivity|].
  all: cbn [lists]; split_and!; try by lookups.
  all: done.
Qed.

(** Move assignment.  Onto itself it does nothing.  From another list the
    target is afterwards traversed as the source was and has its length,
    and the source is empty with length zero.  No element object is
    written: the elements the target held before stay linked to each other,
    reachable from no list. *)
Theorem move_assign_transfers (s : state) (this other : nat)
    (xs ys : list nat) (T O : IntrusiveList) :
  Repr s other xs -> Repr s this ys ->
  lists s !! this = Some T -> lists s !! other = Some O ->
  HasLength T = HasLength O -> this <> other ->
  move_assign other other s = Some (tt, s) /\
  exists s',
    move_assign this other s = Some (tt, s') /\
    nodes s' = nodes s /\
    forward (length xs) s' this = Some xs /\
    backward (length xs) s' this = Some (reverse xs) /\
    IsEmpty other s' = Some (true, s') /\
    walk_next (length ys) (nodes s') (head ys) = Some ys /\
    (HasLength O = true ->
     GetLength this s' = Some (Z.of_nat (length xs), s') /\
     GetLength other s' = Some (0, s')).
Proof.
  intros HR HY HT HO Hen Hne. split; [apply move_assign_self|].
  destruct (move_assign_spec s this other xs T O HR HT HO Hen Hne)
    as (s' & E & Hn & HT' & HO' & _).
  destruct (move_assign_objects s this other T O HT HO Hne)
    as (s1 & T' & O' & E1 & HL & HeT & HL' & HeO).
  rewrite E in E1. injection E1 as <-.
  exists s'. split_and!; try done.
  - by apply Repr_forward.
  - by apply Repr_backward.
  - by rewrite (IsEmpty_Repr _ _ _ HO').
  - rewrite Hn, head_hd_ptr.
    destruct HY as (_ & _ & _ & _ & _ & Hc & _).
    by apply (walk_next_chain _ None).
  - intros Hen'. split.
    + apply (GetLength_Repr _ _ _ _ HT' HL). congruence.
    + apply (GetLength_Repr _ _ _ _ HO' HL'). congruence.
Qed.

Lemma move_assign_transfers_witness :
  exists s',
    move_assign 101 100 st_two = Some (tt, s') /\
    forward 3 s' 101 = Some [1%nat; 2%nat; 3%nat] /\
    walk_next 2 (nodes s') (Some 4%nat) = Some [4%nat; 5%nat] /\
    GetLength 101 s' = Some (3, s') /\
    GetLength 100 s' = Some (0, s').
Proof.
  destruct (move_assign_transfers st_two 101 100 [1%nat; 2%nat; 3%nat]
              [4%nat; 5%nat]
              (mkList true (Some 4%nat) (Some 5%nat) 2)
              (mkList true (Some 1%nat) (Some 3%nat) 3))
    as (_ & s' & E & _ & Hf & _ & _ & Hw & Hlen).
  - concrete_Repr.
  - concrete_Repr.
  - vm_compute; reflexivity.
  - vm_compute; reflexivity.
  - reflexivity.
  - discriminate.
  - destruct (Hlen eq_refl) as [H1 H2].
    exists s'. split_and!; assumption.
Defined.

(** ** [operator+=] *)

(** [this += rhs] for two different well-formed lists: every element of
    [rhs] is moved behind the elements of [this], in order; [rhs] is left
    empty; a tracked length of [this] grows by the number of elements moved
    and a tracked length of [rhs] becomes zero. *)
Theorem append_moves_all (s : state) (this rhs : nat) (xs ys : list nat)
    (fuel : nat) :
  Repr s rhs xs -> Repr s this ys -> rhs <> this -> xs ## ys ->
  fits s this (length ys + length xs) -> (length xs <= fuel)%nat ->
  exists s',
    append fuel this rhs s = Some (tt, s') /\
    forward (length (ys ++ xs)) s' this = Some (ys ++ xs) /\
    backward (length (ys ++ xs)) s' this = Some (reverse xs ++ reverse ys) /\
    IsEmpty rhs s' = Some (true, s') /\
    forward 0 s' rhs = Some [] /\
    (forall n, GetLength this s = Some (n, s) ->
       GetLength this s' = Some (n + Z.of_nat (length xs), s')) /\
    (forall n, GetLength rhs s = Some (n, s) ->
       GetLength rhs s' = Some (0, s')).
Proof.
  intros HR HT Hne Hdisj Hfit Hfuel.
  destruct (append_spec s this rhs xs ys fuel HR HT Hne Hdisj Hfit Hfuel)
    as (s' & E & HR' & HT' & F).
  exists s'. split_and!; try done.
  - by apply Repr_forward.
  - rewrite <- reverse_app. by apply Repr_backward.
  - by rewrite (IsEmpty_Repr _ _ _ HR').
  - by apply (Repr_forward s' rhs []).
  - intros n HG.
    rewrite (GetLength_change _ _ _ _ _ _ _ _ F HT HT' HG).
    rewrite length_app. repeat f_equal. lia.
  - intros n HG.
    rewrite (GetLength_change _ _ _ _ _ _ _ _ F HR HR' HG).
    pose proof HG as (_ & L & HL & Hen & Hlen)%GetLength_inv.
    destruct HR as (L0 & HL0 & _ & _ & Hc & _). rewrite HL in HL0.
    injection HL0 as <-. destruct (Hc Hen) as [Hl _].
    simpl. repeat f_equal. lia.
Qed.

Lemma append_moves_all_witness :
  exists s',
    append 2 100 101 st_two = Some (tt, s') /\
    forward 5 s' 100 = Some [1%nat; 2%nat; 3%nat; 4%nat; 5%nat] /\
    GetLength 100 s' = Some (5, s') /\
    GetLength 101 s' = Some (0, s').
Proof.
  destruct (append_moves_all st_two 100 101 [4%nat; 5%nat]
              [1%nat; 2%nat; 3%nat] 2)
    as (s' & E & Hf & _ & _ & _ & H1 & H2).
  - concrete_Repr.
  - concrete_Repr.
  - discriminate.
  - concrete_disjoint.
  - intros L _ _. vm_compute. reflexivity.
  - simpl. lia.
  - exists s'. split_and!; [assumption|assumption| |].
    + apply (H1 3). vm_compute. reflexivity.
    + apply (H2 2). vm_compute. reflexivity.
Defined.

(** ** Cursors *)

Lemma iterate_forward_chain (s : state) pv xs fuel :
  chain (nodes s) pv xs None -> (length xs <= fuel)%nat ->
  iterate fuel Forward (hd_ptr xs None) s = Some (xs, s).
Proof.
  revert pv fuel. induction xs as [|x r IH]; intros pv fuel; simpl.
  - by destruct fuel.
  - intros [Hx Hr] Hf. destruct fuel as [|fuel]; [lia|]. simpl.
    unfold get_next, load, bind, ret. rewrite Hx. simpl.
    fold (hd_ptr r None). rewrite (IH (Some x)); [done | done | lia].
Qed.

Lemma iterate_reverse_chain (s : state) xs nx fuel :
  chain (nodes s) None xs nx -> (length xs <= fuel)%nat ->
  iterate fuel Reverse (last_ptr None xs) s = Some (reverse xs, s).
Proof.
  revert nx fuel. induction xs as [|a r IH] using rev_ind; intros nx fuel.
  - by destruct fuel.
  - rewrite chain_snoc, last_ptr_snoc, length_app. simpl.
    intros [Hr Ha] Hf. destruct fuel as [|fuel]; [lia|]. simpl.
    unfold get_prev, load, bind, ret. rewrite Ha. simpl.
    rewrite (IH (Some a)); [|done|lia].
    by rewrite reverse_snoc.
Qed.

(** A loop from [begin()] to [end()] visits the elements of a well-formed
    list in order, and a loop from [rbegin()] to [rend()] visits the same
    elements in the opposite order; neither writes anything. *)
Theorem traverse_both_directions (s : state) (l : nat) (xs : list nat)
    (fuel : nat) :
  Repr s l xs -> (length xs <= fuel)%nat ->
  traverse fuel Forward l s = Some (xs, s) /\
  traverse fuel Reverse l s = Some (reverse xs, s).
Proof.
  intros HR Hf. unfold traverse, begin_. split.
  - rewrite (bind_run _ _ _ _ _ (get_head_Repr _ _ _ HR)), head_hd_ptr.
    destruct HR as (_ & _ & _ & _ & _ & Hc & _).
    by apply (iterate_forward_chain s None).
  - fold (GetLast l).
    rewrite (bind_run _ _ _ _ _ (GetLast_Repr _ _ _ HR)), last_last_ptr.
    destruct HR as (_ & _ & _ & _ & _ & Hc & _).
    by apply (iterate_reverse_chain s xs None).
Qed.

Lemma traverse_both_directions_witness :
  traverse 3 Forward 100 st_two = Some ([1%nat; 2%nat; 3%nat], st_two) /\
  traverse 3 Reverse 100 st_two = Some ([3%nat; 2%nat; 1%nat], st_two).
Proof.
  apply (traverse_both_directions st_two 100 [1%nat; 2%nat; 3%nat] 3).
  - concrete_Repr.
  - simpl. lia.
Defined.

(** Between two neighbours [x], [y] of a well-formed list the four steps
    are inverse to each other: [++] of a forward cursor at [x] and [--] of
    a reverse cursor at [x] give [y]; [--] of a forward cursor at [y] and
    [++] of a reverse cursor at [y] give [x]. *)
Theorem cursor_steps_between_neighbours (s : state) (l : nat)
    (l1 : list nat) (x y : nat) (l2 : list nat) :
  Repr s l (l1 ++ x :: y :: l2) ->
  Increment Forward (Some x) s = Some (Some y, s) /\
  Decrement Forward (Some y) s = Some (Some x, s) /\
  Increment Reverse (Some y) s = Some (Some x, s) /\
  Decrement Reverse (Some x) s = Some (Some y, s) /\
  (n <- Increment Forward (Some x) ;; Decrement Forward n) s
    = Some (Some x, s) /\
  (n <- Decrement Forward (Some y) ;; Increment Forward n) s
    = Some (Some y, s).
Proof.
  intros (_ & _ & _ & _ & _ & Hc & _).
  pose proof (chain_mid _ _ _ _ _ _ Hc) as Hx.
  change (l1 ++ x :: y :: l2) with (l1 ++ [x] ++ y :: l2) in Hc.
  rewrite app_assoc in Hc.
  pose proof (chain_mid _ _ _ _ _ _ Hc) as Hy.
  rewrite last_ptr_snoc in Hy. simpl in Hx.
  unfold Increment, Decrement, get_next, get_prev, load, bind, ret.
  by rewrite ?Hx, ?Hy; cbn; rewrite ?Hx, ?Hy.
Qed.

Lemma cursor_steps_between_neighbours_witness :
  Increment Forward (Some 2%nat) st_two = Some (Some 3%nat, st_two) /\
  Decrement Forward (Some 3%nat) st_two = Some (Some 2%nat, st_two).
Proof.
  destruct (cursor_steps_between_neighbours st_two 100 [1%nat] 2%nat 3%nat [])
    as (H1 & H2 & _).
  - concrete_Repr.
  - split; assumption.
Defined.

(** At the ends of a well-formed list: [++] at the last element gives the
    null cursor, which is [end()]; so does [--] at the first element, and
    so do the two steps of a reverse cursor the other way round.  A null
    cursor cannot be stepped: [--end()] and [++end()] dereference null. *)
Theorem cursor_steps_at_the_ends (s : state) (l : nat) (xs : list nat)
    (a z : nat) :
  Repr s l xs -> head xs = Some a -> last xs = Some z ->
  Increment Forward (Some z) s = end_ Forward l s /\
  Decrement Forward (Some a) s = end_ Forward l s /\
  Increment Reverse (Some a) s = end_ Reverse l s /\
  Decrement Reverse (Some z) s = end_ Reverse l s /\
  (forall d, (e <- end_ d l ;; Decrement d e) s = None) /\
  (forall d, (e <- end_ d l ;; Increment d e) s = None) /\
  (n <- Increment Forward (Some z) ;; Decrement Forward n) s = None.
Proof.
  intros (_ & _ & _ & _ & _ & Hc & _) Ha Hz.
  destruct xs as [|a' r]; [done|]. injection Ha as ->.
  pose proof Hc as [Hca _].
  destruct (r) as [|b r' _] using rev_ind.
  - injection Hz as ->.
    unfold Increment, Decrement, end_, get_next, get_prev, load, bind, ret.
    simpl in Hca. rewrite Hca. cbn.
    split_and!; try done; by intros [].
  - rewrite app_comm_cons, last_snoc in Hz. injection Hz as ->.
    rewrite app_comm_cons in Hc. apply chain_snoc in Hc as [_ Hcz].
    unfold Increment, Decrement, end_, get_next, get_prev, load, bind, ret.
    rewrite Hca, Hcz. cbn.
    split_and!; try done; by intros [].
Qed.

Lemma cursor_steps_at_the_ends_witness :
  Increment Forward (Some 3%nat) st_two = Some (None, st_two) /\
  Decrement Forward (Some 1%nat) st_two = Some (None, st_two) /\
  (e <- end_ Forward 100 ;; Decrement Forward e) st_two = None.
Proof.
  destruct (cursor_steps_at_the_ends st_two 100 [1%nat; 2%nat; 3%nat]
              1%nat 3%nat) as (H1 & H2 & _ & _ & H5 & _).
  - concrete_Repr.
  - reflexivity.
  - reflexivity.
  - split_and!; [exact H1|exact H2|exact (H5 Forward)].
Defined.

(** ** [Clear] and the elements it leaves behind *)

(** [InsertLast] of the first element of a loose segment: a run of
    elements linked to each other that no list holds. *)
Lemma InsertLast_loose h ls (l : nat) ys x rest :
  Repr (mkState h ls) l ys -> chain h None (x :: rest) None ->
  NoDup (ys ++ x :: rest) -> room (mkState h ls) l 1 ->
  exists s',
    InsertLast l (Some x) (mkState h ls) = Some (Some x, s') /\
    Repr s' l (ys ++ [x]) /\
    chain (nodes s') None rest None /\
    frame ((x :: rest) ++ x :: ys) [l] (mkState h ls) s'.
Proof.
  intros HR Hc Hd Hroom.
  pose proof Hd as (Hdy & Hdisj & Hdx)%NoDup_app.
  pose proof Hdx as [Hxr Hdr]%NoDup_cons.
  destruct (Detach_chain h [] x rest Hc Hdx)
    as (h1 & HD & Hc1 & Hx1 & Hf1 & Hs1).
  simpl in Hc1, Hf1.
  assert (F1 : frame (x :: rest) [] (mkState h ls) (mkState h1 ls))
    by (by apply frame_nodes).
  assert (HR1 : Repr (mkState h1 ls) l ys).
  { apply (Repr_frame _ _ _ _ _ _ F1); [apply not_elem_of_nil| |done].
    intros y Hy. by apply Hdisj. }
  assert (Hroom1 : room (mkState h1 ls) l 1).
  { apply (room_frame _ _ _ _ _ _ F1); [apply not_elem_of_nil|done]. }
  assert (Hxy : x ∉ ys).
  { intros Hin. apply (Hdisj x Hin). left. }
  destruct HR as (L & HL & _ & Hl & _).
  rewrite (InsertLast_unfold _ _ _ _ HL), Hl.
  assert (exists s',
    InsertNext l (last ys) (Some x) (mkState h ls) = Some (Some x, s') /\
    Repr s' l (ys ++ [x]) /\
    frame (x :: ys) [l] (mkState h1 ls) s') as (s' & E & HR' & F2).
  { destruct ys as [|c k1 _] using rev_ind.
    - destruct (Insert_empty h h1 ls l (last []) x HD HR1 Hx1 Hroom1)
        as (s' & E & _ & ? & ?). by exists s'.
    - rewrite last_snoc.
      destruct (InsertNext_linked h h1 ls l k1 c [] x detached HD HR1 Hx1
                  Hxy Hroom1) as (s' & E & ? & ?).
      exists s'. split_and!; try done.
      by rewrite <- app_assoc. }
  exists s'. split_and!; try done.
  - eapply chain_frame; [|exact Hc1].
    intros y Hy. apply F2. intros [->|Hin]%elem_of_cons; [done|].
    apply (Hdisj y Hin). by right.
  - apply (frame_trans _ _ [] [l] _ _ _ F1 F2).
Qed.

Lemma InsertLast_all_loose (l : nat) (xs : list nat) : forall ys s,
  Repr s l ys -> chain (nodes s) None xs None -> NoDup (ys ++ xs) ->
  fits s l (length ys + length xs) ->
  exists s',
    InsertLast_all l xs s = Some (tt, s') /\ Repr s' l (ys ++ xs) /\
    (forall y, y ∉ ys ++ xs -> nodes s' !! y = nodes s !! y) /\
    (forall L, lists s !! l = Some L ->
       exists L', lists s' !! l = Some L' /\ HasLength L' = HasLength L).
Proof.
  induction xs as [|x xs IH]; intros ys s HR Hc Hd Hfit.
  - exists s. rewrite app_nil_r. split_and!; try done. eauto.
  - assert (Hroom : room s l 1).
    { eapply room_of_fits; [done|]. eapply fits_le; [|done]. simpl. lia. }
    destruct s as [h ls].
    destruct (InsertLast_loose h ls l ys x xs HR Hc Hd Hroom)
      as (s1 & E1 & HR1 & Hc1 & F1).
    destruct (IH (ys ++ [x]) s1 HR1 Hc1) as (s2 & E2 & HR2 & Hn2 & Hl2).
    { by rewrite <- app_assoc. }
    { apply (fits_frame _ _ _ _ _ _ F1). rewrite length_app. simpl.
      eapply fits_le; [|done]. simpl. lia. }
    exists s2. split_and!.
    + simpl. by rewrite (bind_run _ _ _ _ _ E1).
    + by rewrite <- app_assoc in HR2.
    + intros y Hy. rewrite Hn2 by (by rewrite <- app_assoc).
      apply F1. intros Hin. apply Hy.
      apply elem_of_app in Hin as [Hin|Hin].
      * apply elem_of_app. by right.
      * apply elem_of_cons in Hin as [->|Hin]; apply elem_of_app;
          [right; left | by left].
    + intros L HL.
      destruct (Repr_flag_frame _ _ _ _ _ ys _ _ F1 HL HR1) as (L1 & HL1 & He1).
      destruct (Hl2 L1 HL1) as (L2 & HL2 & He2).
      exists L2. split; [done|congruence].
Qed.

(** [Clear] leaves the elements linked to each other.  Inserting them
    again with [InsertLast], in their old order, is nevertheless sound,
    because an insertion first detaches the element it is given: the list
    is traversed as before [Clear], a tracked length is what it was, and
    every element object ends exactly as it began. *)
Theorem Clear_then_reinsert (s : state) (l : nat) (xs : list nat)
    (L : IntrusiveList) :
  Repr s l xs -> lists s !! l = Some L ->
  exists s',
    (Clear l ;; InsertLast_all l xs) s = Some (tt, s') /\
    forward (length xs) s' l = Some xs /\
    backward (length xs) s' l = Some (reverse xs) /\
    (HasLength L = true ->
     GetLength l s' = Some (Z.of_nat (length xs), s')) /\
    nodes s' = nodes s.
Proof.
  intros HR HL.
  destruct (Clear_spec s l L HL) as (s1 & E1 & Hn1 & HL1 & HR1 & F1).
  pose proof HR as (L0 & HL0 & _ & _ & Hcnt & Hc & Hd).
  rewrite HL in HL0. injection HL0 as <-.
  destruct (InsertLast_all_loose l xs [] s1 HR1) as (s2 & E2 & HR2 & Hn2 & Hl2).
  { by rewrite Hn1. }
  { done. }
  { intros L' HL' Hen. rewrite HL1 in HL'. injection HL' as <-.
    cbn in Hen. simpl. by apply Hcnt. }
  simpl in HR2, Hn2.
  exists s2. split_and!.
  - by rewrite (bind_run _ _ _ _ _ E1).
  - by apply Repr_forward.
  - by apply Repr_backward.
  - intros Hen. destruct (Hl2 _ HL1) as (L2 & HL2 & He2).
    apply (GetLength_Repr _ _ _ _ HR2 HL2). by rewrite He2.
  - apply map_eq. intros y.
    destruct (decide (y ∈ xs)) as [Hin|Hnin].
    + destruct HR2 as (_ & _ & _ & _ & _ & Hc2 & _).
      by apply (chain_determines _ _ xs None None).
    + by rewrite Hn2, Hn1.
Qed.

Lemma Clear_then_reinsert_witness :
  exists s',
    (Clear 100 ;; InsertLast_all 100 [1%nat; 2%nat; 3%nat]) st_two
      = Some (tt, s') /\
    forward 3 s' 100 = Some [1%nat; 2%nat; 3%nat] /\
    GetLength 100 s' = Some (3, s') /\
    nodes s' = nodes st_two.
Proof.
  destruct (Clear_then_reinsert st_two 100 [1%nat; 2%nat; 3%nat]
              (mkList true (Some 1%nat) (Some 3%nat) 3))
    as (s' & E & Hf & _ & Hlen & Hn).
  - concrete_Repr.
  - vm_compute; reflexivity.
  - exists s'. split_and!; [assumption|assumption|exact (Hlen eq_refl)|assumption].
Defined.

(** ** Null arguments *)

Lemma Detach_lists (p : ptr) (s s1 : state) (u : unit) :
  Detach p s = Some (u, s1) -> lists s1 = lists s.
Proof.
  destruct p as [x|]; [|done]. destruct s as [h ls].
  unfold Detach, get_prev, get_next, set_prev, set_next, load, store, when,
    bind, ret. cbn.
  repeat (case_match; try done); cbn in *; simplify_eq; cbn in *.
  all: intros ?; by simplify_eq.
Qed.

(** No operation checks its cursors for null.  On a list that holds
    something, the four insertions with a null [newNode], [Remove] of a
    null cursor, and an insertion of an element next to a null [curNode]
    are all undefined: each dereferences the null cursor. *)
Theorem null_arguments_are_undefined (s : state) (l : nat) (xs : list nat)
    (x : nat) :
  Repr s l xs -> xs <> [] ->
  (forall cur, InsertPrev l cur None s = None /\
               InsertNext l cur None s = None) /\
  InsertHead l None s = None /\
  InsertLast l None s = None /\
  Remove l None s = None /\
  InsertNext l None (Some x) s = None /\
  InsertPrev l None (Some x) s = None.
Proof.
  intros HR Hne.
  assert (Hemp : forall s1, lists s1 = lists s ->
            IsEmpty l s1 = Some (false, s1)).
  { intros s1 Hs1. destruct HR as (L & HL & Hh & Hl & _).
    destruct s1 as [h1 ls1]. cbn in Hs1. subst ls1.
    unfold IsEmpty, get_head, get_last, get_list, bind, ret. cbn.
    rewrite HL. cbn. rewrite HL. cbn. rewrite Hh. destruct xs; [done|]. reflexivity. }
  split_and!.
  - done.
  - unfold InsertHead. by rewrite (bind_run _ _ _ _ _ (get_head_Repr _ _ _ HR)).
  - unfold InsertLast. fold (GetLast l).
    by rewrite (bind_run _ _ _ _ _ (GetLast_Repr _ _ _ HR)).
  - destruct HR as (L & HL & Hh & Hl & _). destruct xs as [|a r]; [done|].
    rewrite last_cons_default in Hl.
    unfold Remove, get_head, get_last, get_list, ptr_eqb, bind, ret.
    cbn. rewrite HL. cbn. by repeat case_match.
  - unfold InsertNext. unfold bind at 1.
    destruct (Detach (Some x) s) as [[u s1]|] eqn:ED; [|done].
    rewrite (bind_run _ _ _ _ _ (Hemp s1 (Detach_lists _ _ _ _ ED))).
    unfold AttachNext, set_prev, get_next, load, store, bind.
    by repeat case_match.
  - unfold InsertPrev. unfold bind at 1.
    destruct (Detach (Some x) s) as [[u s1]|] eqn:ED; [|done].
    by rewrite (bind_run _ _ _ _ _ (Hemp s1 (Detach_lists _ _ _ _ ED))).
Qed.

Lemma null_arguments_are_undefined_witness :
  InsertLast 100 None st_two = None /\
  Remove 100 None st_two = None /\
  InsertNext 100 None (Some 6%nat) st_two = None.
Proof.
  destruct (null_arguments_are_undefined st_two 100 [1%nat; 2%nat; 3%nat]
              6%nat) as (_ & _ & H1 & H2 & H3 & _).
  - concrete_Repr.
  - discriminate.
  - split_and!; assumption.
Defined.

(** ** The observers together *)

(** On a well-formed list the observers agree with each other:
    [IsEmpty()] is true exactly when [GetHead()] is null, when [GetLast()]
    is null, and when a tracked length is zero; [begin()] is at the head and
    [rbegin()] at the last element; a tracked length is the number of
    elements a traversal meets. *)
Theorem observers_agree (s : state) (l : nat) (xs : list nat) :
  Repr s l xs ->
  exists e h t,
    IsEmpty l s = Some (e, s) /\
    GetHead l s = Some (h, s) /\ GetLast l s = Some (t, s) /\
    begin_ Forward l s = Some (h, s) /\ begin_ Reverse l s = Some (t, s) /\
    forward (length xs) s l = Some xs /\
    h = head xs /\ t = last xs /\
    (e = true <-> xs = []) /\ (e = true <-> h = None) /\
    (e = true <-> t = None) /\
    (forall n, GetLength l s = Some (n, s) ->
       n = Z.of_nat (length xs) /\ (e = true <-> n = 0)).
Proof.
  intros HR.
  exists (bool_decide (xs = [])), (head xs), (last xs).
  split_and!; try done.
  - by apply IsEmpty_Repr.
  - by apply GetHead_Repr.
  - by apply GetLast_Repr.
  - by apply get_head_Repr.
  - by apply GetLast_Repr.
  - by apply Repr_forward.
  - apply bool_decide_eq_true.
  - rewrite bool_decide_eq_true. by destruct xs.
  - rewrite bool_decide_eq_true. destruct xs as [|a r]; [done|].
    by rewrite last_cons_default.
  - intros n (_ & L & HL & Hen & Hlen)%GetLength_inv.
    destruct HR as (L0 & HL0 & _ & _ & Hc & _). rewrite HL in HL0.
    injection HL0 as <-. destruct (Hc Hen) as [Hl _].
    split; [congruence|]. rewrite bool_decide_eq_true.
    rewrite <- Hlen, Hl. destruct xs; simpl; split; try done; lia.
Qed.

Lemma observers_agree_witness :
  exists e h t,
    IsEmpty 100 st_two = Some (e, st_two) /\
    GetHead 100 st_two = Some (h, st_two) /\
    GetLast 100 st_two = Some (t, st_two) /\
    h = Some 1%nat /\ t = Some 3%nat /\ (e = true <-> h = None).
Proof.
  destruct (observers_agree st_two 100 [1%nat; 2%nat; 3%nat])
    as (e & h & t & H1 & H2 & H3 & _ & _ & _ & H4 & H5 & _ & H6 & _).
  - concrete_Repr.
  - exists e, h, t. split_and!; assumption.
Defined.

(** ** Other lists *)

Lemma Repr_elsewhere X (s s' : state) (l m : nat) (zs : list nat) :
  frame X [l] s s' -> m <> l -> (forall z, z ∈ zs -> z ∉ X) ->
  Repr s m zs ->
  lists s' !! m = lists s !! m /\
  forward (length zs) s' m = Some zs /\
  backward (length zs) s' m = Some (reverse zs).
Proof.
  intros F Hne Hdisj HR.
  assert (Hm : m ∉ [l]) by (by intros ->%list_elem_of_singleton).
  pose proof (Repr_frame _ _ _ _ _ _ F Hm Hdisj HR) as HR'.
  split_and!.
  - by apply F.
  - by apply Repr_forward.
  - by apply Repr_backward.
Qed.

(** An insertion into one list, or a removal from it, leaves every other
    well-formed list that shares no element with it alone: the other list
    object is unchanged, counter included, and is traversed as before in
    both directions. *)
Theorem other_lists_untouched (s : state) (l m : nat) (k1 : list nat)
    (c : nat) (k2 : list nat) (x : nat) (zs : list nat) :
  Repr s l (k1 ++ c :: k2) -> Repr s m zs -> m <> l ->
  zs ## (k1 ++ c :: k2) -> x ∉ zs ->
  nodes s !! x = Some detached -> (x ∉ k1 ++ c :: k2) -> room s l 1 ->
  (exists s',
      InsertNext l (Some c) (Some x) s = Some (Some x, s') /\
      lists s' !! m = lists s !! m /\
      forward (length zs) s' m = Some zs /\
      backward (length zs) s' m = Some (reverse zs)) /\
  (exists s',
      InsertPrev l (Some c) (Some x) s = Some (Some x, s') /\
      lists s' !! m = lists s !! m /\
      forward (length zs) s' m = Some zs /\
      backward (length zs) s' m = Some (reverse zs)) /\
  (exists s',
      Remove l (Some c) s = Some (tt, s') /\
      lists s' !! m = lists s !! m /\
      forward (length zs) s' m = Some zs /\
      backward (length zs) s' m = Some (reverse zs)).
Proof.
  intros HR HM Hne Hdisj Hxz Hx Hnin Hroom.
  assert (Hout : forall z, z ∈ zs -> z ∉ x :: k1 ++ c :: k2).
  { intros z Hz [->|Hin]%elem_of_cons; [done|]. by apply (Hdisj z). }
  split_and!.
  - destruct (InsertNext_spec s l k1 c k2 x HR Hx Hnin Hroom)
      as (s' & E & _ & F).
    exists s'. split; [done|]. by apply (Repr_elsewhere _ s s' l m zs F).
  - destruct (InsertPrev_spec s l k1 c k2 x HR Hx Hnin Hroom)
      as (s' & E & _ & F).
    exists s'. split; [done|]. by apply (Repr_elsewhere _ s s' l m zs F).
  - destruct (Remove_spec s l k1 c k2 HR) as (s' & E & _ & _ & F).
    exists s'. split; [done|].
    apply (Repr_elsewhere _ s s' l m zs F); [done| |done].
    intros z Hz Hin. by apply (Hdisj z).
Qed.

Lemma other_lists_untouched_witness :
  exists s',
    InsertNext 100 (Some 2%nat) (Some 6%nat) st_two = Some (Some 6%nat, s') /\
    lists s' !! 101%nat = lists st_two !! 101%nat /\
    forward 2 s' 101 = Some [4%nat; 5%nat].
Proof.
  destruct (other_lists_untouched st_two 100 101 [1%nat] 2%nat [3%nat] 6%nat
              [4%nat; 5%nat]) as ((s' & E & Hl & Hf & _) & _).
  - concrete_Repr.
  - concrete_Repr.
  - discriminate.
  - concrete_disjoint.
  - by_decide.
  - vm_compute; reflexivity.
  - by_decide.
  - intros L [= <-] _. vm_compute. reflexivity.
  - exists s'. split_and!; assumption.
Defined.

(** ** The two comparisons together *)

Lemma equal_lex_agree (elem_eq : nat -> nat -> bool)
    (elem_cmp : nat -> nat -> ordering) :
  (forall a b, elem_eq a b = true <-> elem_cmp a b = equivalent) ->
  forall xs ys,
    equal_spec elem_eq xs ys = true <-> lex_spec elem_cmp xs ys = equivalent.
Proof.
  intros H. induction xs as [|x xs IH]; intros [|y ys]; simpl; try done.
  rewrite andb_true_iff, H, IH.
  destruct (elem_cmp x y); intuition discriminate.
Qed.

Lemma equal_spec_refl (elem_eq : nat -> nat -> bool) (xs : list nat) :
  (forall a, a ∈ xs -> elem_eq a a = true) -> equal_spec elem_eq xs xs = true.
Proof.
  induction xs as [|x xs IH]; intros H; [done|]. simpl.
  rewrite H by left. apply IH. intros a Ha. apply H. by right.
Qed.

(** When the elements' [==] holds exactly where their [<=>] gives
    [equivalent], the same is true of the lists: [lhs == rhs] is true
    exactly when [lhs <=> rhs] is [equivalent]; and a list is equal to
    itself as soon as each of its elements is equal to itself. *)
Theorem comparisons_agree (elem_eq : nat -> nat -> bool)
    (elem_cmp : nat -> nat -> ordering) (s : state) (lhs rhs : nat)
    (xs ys : list nat) (fuel : nat) :
  (forall a b, elem_eq a b = true <-> elem_cmp a b = equivalent) ->
  Repr s lhs xs -> Repr s rhs ys -> (length xs <= fuel)%nat ->
  (exists b c,
      operator_eq elem_eq fuel lhs rhs s = Some (b, s) /\
      operator_cmp elem_cmp fuel lhs rhs s = Some (c, s) /\
      (b = true <-> c = equivalent)) /\
  ((forall a, a ∈ xs -> elem_eq a a = true) ->
   operator_eq elem_eq fuel lhs lhs s = Some (true, s)).
Proof.
  intros H HX HY Hf.
  pose proof HX as (L & HL & Hh & _ & _ & Hc & _).
  pose proof HY as (R & HR & Hh' & _ & _ & Hc' & _).
  split.
  - exists (equal_spec elem_eq xs ys), (lex_spec elem_cmp xs ys). split_and!.
    + unfold operator_eq.
      rewrite (bind_run _ _ _ _ _ (get_head_Repr _ _ _ HX)).
      rewrite (bind_run _ _ _ _ _ (get_head_Repr _ _ _ HY)).
      rewrite !head_hd_ptr.
      by rewrite (std_equal_chain elem_eq _ xs ys None None fuel Hc Hc' Hf).
    + unfold operator_cmp.
      rewrite (bind_run _ _ _ _ _ (get_head_Repr _ _ _ HX)).
      rewrite (bind_run _ _ _ _ _ (get_head_Repr _ _ _ HY)).
      rewrite !head_hd_ptr.
      by rewrite (std_lex_chain elem_cmp _ xs ys None None fuel Hc Hc' Hf).
    + by apply equal_lex_agree.
  - intros Hrefl. unfold operator_eq.
    rewrite !(bind_run _ _ _ _ _ (get_head_Repr _ _ _ HX)).
    rewrite !head_hd_ptr.
    rewrite (std_equal_chain elem_eq _ xs xs None None fuel Hc Hc Hf).
    by rewrite equal_spec_refl.
Qed.

Lemma comparisons_agree_witness :
  exists b c,
    operator_eq Nat.eqb 3 100 101 st_two = Some (b, st_two) /\
    operator_cmp nat_cmp 3 100 101 st_two = Some (c, st_two) /\
    (b = true <-> c = equivalent).
Proof.
  destruct (comparisons_agree Nat.eqb nat_cmp st_two 100 101
              [1%nat; 2%nat; 3%nat] [4%nat; 5%nat] 3) as [H _].
  - intros a b. unfold nat_cmp. rewrite Nat.eqb_eq.
    destruct (Nat.compare_spec a b); split; intros; try done; lia.
  - concrete_Repr.
  - concrete_Repr.
  - simpl. lia.
  - exact H.
Defined.
